(** * AnyBlok / WMS Base, [wms_core]: locations, goods avatars and operations

    A shallow embedding of
    - [anyblok_wms_base/bloks/wms_core/location.py] (class [Location]),
    - [anyblok_wms_base/bloks/wms_core/operation/base.py] (class [Operation]),
    over an explicit model of the relational store they work on.

    Tables that the code queries are lists of rows; the operations table,
    whose rows the code reaches through object references, is a finite map
    from primary key to row; the Many2Many join table
    [wms_operation_history] is a list of (parent_id, child_id) pairs. *)

From Stdlib Require Import ZArith Lia.
From stdpp Require Import gmap strings list fin_maps.

Open Scope Z_scope.

(** ** Values shared by the whole model *)

(** A Python [datetime], as a point on a totally ordered time line. *)
Abbreviation datetime := Z (only parsing).

(** The exceptions that the modelled code raises, under their source names.
    [OperationCreateArgFollows], [OperationError] and
    [OperationIrreversibleError] come from [anyblok_wms_base.exceptions];
    [ValueError], [TypeError], [NotImplementedError] and [RecursionError] are
    Python built-ins; [NoResultFound], [MultipleResultsFound] and
    [ObjectDeletedError] are raised by the persistence layer.
    [OperationNotExecutable] is what subtype hooks raise when their
    preconditions are unmet. *)
Inductive Exception :=
| OperationCreateArgFollows
| OperationError
| OperationIrreversibleError
| OperationNotExecutable
| ValueError
| TypeError
| NotImplementedError
| RecursionError
| NoResultFound
| MultipleResultsFound
| ObjectDeletedError.

#[global] Instance Exception_eq_dec : EqDecision Exception.
Proof. solve_decision. Defined.

(** The outcome of a read-only call: a value or a raised exception. *)
Inductive Outcome (A : Type) :=
| Return (a : A)
| Raise (e : Exception).
Arguments Return {A} a.
Arguments Raise {A} e.

(** Lifecycle state of a Goods Avatar. *)
Inductive AvatarState := past | present | future.

#[global] Instance AvatarState_eq_dec : EqDecision AvatarState.
Proof. solve_decision. Defined.

(** Lifecycle state of an Operation (OPERATION_STATES). *)
Inductive OperationState := planned | started | done.

#[global] Instance OperationState_eq_dec : EqDecision OperationState.
Proof. solve_decision. Defined.

(** The [at_datetime] argument of [Location.quantity]: the code tells the
    sentinel apart by object identity ([at_datetime is DATE_TIME_INFINITY]),
    every other datetime object is compared by value. *)
Inductive AtDatetime :=
| DATE_TIME_INFINITY
| At (t : datetime).

(** A value of a keyword argument or of a subtype column. *)
Inductive Value :=
| VInt (z : Z)
| VStr (s : string)
| VRef (pk : Z)
| VRefs (pks : list Z).

(** ** Rows *)

Module Location.
(** [parent] is the Many2One to the parent location (its primary key). *)
Record t := mk {
  id : Z;
  code : option string;
  label : option string;
  parent : option Z;
  tag : option string
}.
End Location.

(** Behaviours of a Goods Type: a Python dict whose values are either a
    flag or a dict of named parameters. *)
Inductive Behaviour :=
| BFlag (b : bool)
| BParams (params : gmap string bool).

Module GoodsType.
Record t := mk {
  id : Z;
  code : option string;
  behaviours : option (gmap string Behaviour)
}.
End GoodsType.

Module Goods.
(** [type] is the primary key of the Goods Type. *)
Record t := mk {
  id : Z;
  type : Z;
  quantity : Z
}.
End Goods.

Module Avatar.
(** [goods], [location] and [reason] are the primary keys of the Goods
    row, of the Location and of the Operation the avatar is due to. *)
Record t := mk {
  id : Z;
  goods : Z;
  location : Z;
  state : AvatarState;
  dt_from : datetime;
  dt_until : option datetime;
  reason : Z
}.
End Avatar.

(** Operation kinds, the values of the polymorphic [type] column. *)
Inductive OperationType :=
| Arrival | Move | Split | Aggregate | Unpack | Pack.

#[global] Instance OperationType_eq_dec : EqDecision OperationType.
Proof. solve_decision. Defined.

Module Operation.
(** The columns of [Model.Wms.Operation]; [fields] holds the columns of
    the concrete subtype, as given in [**fields] to [create]. The
    [follows] relationship lives in the join table of the store. *)
Record t := mk {
  id : Z;
  type : OperationType;
  state : OperationState;
  comment : option string;
  dt_execution : datetime;
  dt_start : option datetime;
  fields : gmap string Value
}.

Definition with_state (st : OperationState) (op : t) : t :=
  mk (id op) (type op) st (comment op) (dt_execution op) (dt_start op)
     (fields op).

Definition with_dt_execution (dt : datetime) (op : t) : t :=
  mk (id op) (type op) (state op) (comment op) dt (dt_start op) (fields op).

Definition with_dt_start (dt : option datetime) (op : t) : t :=
  mk (id op) (type op) (state op) (comment op) (dt_execution op) dt
     (fields op).
End Operation.

(** ** The store *)

(** [wms_operation_history] holds one (parent_id, child_id) row per edge:
    the child follows the parent. [next_id] is the sequence new primary keys
    are drawn from. [clock] and [ticks] stand for the wall clock:
    [datetime.now()] returns reading number [ticks] and moves to the next. *)
Record Store := mkStore {
  locations : list Location.t;
  goods_types : list GoodsType.t;
  goods : list Goods.t;
  avatars : list Avatar.t;
  operations : gmap Z Operation.t;
  wms_operation_history : list (Z * Z);
  next_id : Z;
  clock : nat → datetime;
  ticks : nat
}.

(** ** location.py *)

(** A row of [Avatar.query().join(Avatar.goods)]. *)
Abbreviation JoinRow := (Avatar.t * Goods.t)%type (only parsing).

(** The inner join of the avatars with the goods they point to. *)
Definition join_goods (s : Store) : list JoinRow :=
  a ← avatars s;
  g ← filter (λ g, Goods.id g = Avatar.goods a) (goods s);
  [(a, g)].

(** [Avatar.dt_from <= t, or_(Avatar.dt_until.is_(None), Avatar.dt_until > t)] *)
Definition contains_datetime (t : datetime) (r : JoinRow) : Prop :=
  Avatar.dt_from r.1 ≤ t ∧
  (Avatar.dt_until r.1 = None ∨ ∃ u, Avatar.dt_until r.1 = Some u ∧ t < u).

#[global] Instance contains_datetime_dec t r : Decision (contains_datetime t r).
Proof.
  unfold contains_datetime.
  destruct (Avatar.dt_until r.1) as [u|].
  - destruct (decide (Avatar.dt_from r.1 ≤ t ∧ t < u)) as [H|H].
    + left. destruct H. split; [done|]. right. by exists u.
    + right. intros [H1 [H2|(u' & H2 & H3)]]; [done|].
      injection H2 as <-. by apply H.
  - destruct (decide (Avatar.dt_from r.1 ≤ t)) as [H|H].
    + left. split; [done|]. by left.
    + right. by intros [H1 _].
Defined.

(** [Location.base_quantity_query]: the base join query, without any
    filtering, and [True]: [count()] is to be used. *)
Definition base_quantity_query (s : Store) : list JoinRow * bool :=
  (join_goods s, true).

(** [query.one()[0]] on a query whose rows are Avatar entities:
    [one()] wants exactly one row, and that row is an entity, which has no
    item 0. *)
Definition one_item0 (query : list JoinRow) : Outcome Z :=
  match query with
  | [] => Raise NoResultFound
  | [_] => Raise TypeError
  | _ => Raise MultipleResultsFound
  end.

(** [Location.quantity(goods_type, additional_states=None, at_datetime=None)] *)
Definition quantity (s : Store) (self : Location.t) (goods_type : GoodsType.t)
    (additional_states : option (list AvatarState))
    (at_datetime : option AtDatetime) : Outcome Z :=
  let '(query, use_count) := base_quantity_query s in
  let query :=
    filter (λ r : JoinRow, Goods.type r.2 = GoodsType.id goods_type
                           ∧ Avatar.location r.1 = Location.id self) query in
  let filtered :=
    match additional_states with
    | None => Return (filter (λ r : JoinRow, Avatar.state r.1 = present) query)
    | Some sts =>
        let states := present :: sts in
        let query := filter (λ r : JoinRow, Avatar.state r.1 ∈ states) query in
        match at_datetime with
        | None => Raise ValueError
        | Some _ => Return query
        end
    end in
  match filtered with
  | Raise e => Raise e
  | Return query =>
      let query :=
        match at_datetime with
        | Some DATE_TIME_INFINITY =>
            filter (λ r : JoinRow, Avatar.dt_until r.1 = None) query
        | Some (At t) => filter (contains_datetime t) query
        | None => query
        end in
      if use_count then Return (Z.of_nat (length query))
      else match one_item0 query with
           | Return res => Return res
           | Raise e => Raise e
           end
  end.

(** A row of the [location_tag] CTE: (id, tag). *)
Abbreviation CteRow := (Z * option string)%type (only parsing).

(** [func.coalesce(x, y)] *)
Definition coalesce {A} (x y : option A) : option A :=
  match x with
  | Some _ => x
  | None => y
  end.

(** The non-recursive term of the CTE in [Location.tag_cte]: the locations
    without parent when [top] is [None], the location [top] itself
    otherwise. *)
Definition tag_cte_anchor (s : Store) (top : option Location.t) : list CteRow :=
  let cte :=
    match top with
    | None => filter (λ l, Location.parent l = None) (locations s)
    | Some t => filter (λ l, Location.id l = Location.id t) (locations s)
    end in
  (λ l, (Location.id l, Location.tag l)) <$> cte.

(** The recursive term: the children of the rows of the working table, with
    [coalesce(child.tag, parent.c.tag)] as tag. *)
Definition tag_cte_recursive_term (s : Store) (working : list CteRow)
    : list CteRow :=
  child ← locations s;
  parent ← filter (λ p : CteRow, Location.parent child = Some p.1) working;
  [(Location.id child, coalesce (Location.tag child) parent.2)].

(** Evaluation of a recursive CTE with UNION ALL: the working table is
    emitted, then replaced by the recursive term applied to it, until it is
    empty. [rounds] bounds the number of rounds; [None] stands for an
    evaluation that is still running after that many. *)
Fixpoint eval_recursive_cte (rounds : nat) (s : Store) (working : list CteRow)
    : option (list CteRow) :=
  match working with
  | [] => Some []
  | _ =>
      match rounds with
      | O => None
      | S rounds =>
          (working ++.) <$>
            eval_recursive_cte rounds s (tag_cte_recursive_term s working)
      end
  end.

(** [Location.tag_cte(top=None)] *)
Definition tag_cte (rounds : nat) (s : Store) (top : option Location.t)
    : option (list CteRow) :=
  eval_recursive_cte rounds s (tag_cte_anchor s top).

(** ** The store as seen by operation/base.py *)

(** A call that works on the store: it returns or raises, and in both cases
    leaves a store behind (nothing is rolled back by a raise). *)
Definition M (A : Type) : Type := Store → Outcome A * Store.

#[global] Instance M_ret : MRet M := λ A a s, (Return a, s).

#[global] Instance M_bind : MBind M := λ A B k m s,
  match m s with
  | (Return a, s') => k a s'
  | (Raise e, s') => (Raise e, s')
  end.

Definition raise {A} (e : Exception) : M A := λ s, (Raise e, s).

(** [for x in xs: f(x)] *)
Fixpoint for_each {A} (f : A → M unit) (xs : list A) : M unit :=
  match xs with
  | [] => mret tt
  | x :: xs => f x;; for_each f xs
  end.

Definition set_operations (ops : gmap Z Operation.t) (s : Store) : Store :=
  mkStore (locations s) (goods_types s) (goods s) (avatars s) ops
          (wms_operation_history s) (next_id s) (clock s) (ticks s).

Definition set_history (h : list (Z * Z)) (s : Store) : Store :=
  mkStore (locations s) (goods_types s) (goods s) (avatars s) (operations s)
          h (next_id s) (clock s) (ticks s).

Definition set_next_id (n : Z) (s : Store) : Store :=
  mkStore (locations s) (goods_types s) (goods s) (avatars s) (operations s)
          (wms_operation_history s) n (clock s) (ticks s).

Definition set_ticks (n : nat) (s : Store) : Store :=
  mkStore (locations s) (goods_types s) (goods s) (avatars s) (operations s)
          (wms_operation_history s) (next_id s) (clock s) n.

(** [datetime.now()] *)
Definition datetime_now : M datetime :=
  λ s, (Return (clock s (ticks s)), set_ticks (S (ticks s)) s).

(** Reading the columns of the operation behind a reference; a reference to
    a deleted row raises. *)
Definition get_op (self : Z) : M Operation.t :=
  λ s, match operations s !! self with
       | Some op => (Return op, s)
       | None => (Raise ObjectDeletedError, s)
       end.

(** Assigning to columns of the operation behind a reference. *)
Definition set_op (self : Z) (f : Operation.t → Operation.t) : M unit :=
  λ s, match operations s !! self with
       | Some op => (Return tt, set_operations (<[self := f op]> (operations s)) s)
       | None => (Raise ObjectDeletedError, s)
       end.

(** [tuple(self.followers)]: the operations that follow [self], through the
    join table. *)
Definition followers_of (s : Store) (self : Z) : list Z :=
  filter (λ child, is_Some (operations s !! child))
         ((filter (λ e : Z * Z, e.1 = self) (wms_operation_history s)).*2).

Definition get_followers (self : Z) : M (list Z) :=
  λ s, (Return (followers_of s self), s).

(** [self.follows]: the operations that [self] follows. *)
Definition follows_of (s : Store) (self : Z) : list Z :=
  filter (λ parent, is_Some (operations s !! parent))
         ((filter (λ e : Z * Z, e.2 = self) (wms_operation_history s)).*1).

(** [op.follows.extend(follows)] *)
Definition follows_extend (self : Z) (follows : list Z) : M unit :=
  λ s, (Return tt,
        set_history (wms_operation_history s ++ ((λ p, (p, self)) <$> follows)) s).

(** [self.follows.clear()] *)
Definition follows_clear (self : Z) : M unit :=
  λ s, (Return tt,
        set_history (filter (λ e : Z * Z, e.2 ≠ self) (wms_operation_history s)) s).

(** [self.delete()] *)
Definition delete_op (self : Z) : M unit :=
  λ s, (Return tt, set_operations (delete self (operations s)) s).

(** [cls.insert(state=state, dt_execution=dt_execution, **fields)]: a new
    row under a fresh primary key; columns that are not given are NULL. *)
Definition insert_op (cls : OperationType) (state : OperationState)
    (dt_execution : datetime) (fields : gmap string Value) : M Z :=
  λ s,
    let pk := next_id s in
    let comment := match fields !! "comment"%string with
                   | Some (VStr c) => Some c
                   | _ => None
                   end in
    let op := Operation.mk pk cls state comment dt_execution None fields in
    (Return pk, set_next_id (pk + 1) (set_operations (<[pk := op]> (operations s)) s)).

(** ** operation/base.py *)

(** The methods of [Operation] that subclasses implement. Class methods
    take the class, instance methods the reference to [self]. *)
Record Hooks := mkHooks {
  check_create_conditions :
    OperationType → OperationState → datetime → gmap string Value → M unit;
  find_parent_operations : OperationType → gmap string Value → M (list Z);
  after_insert : Z → M unit;
  check_execute_conditions : Z → M unit;
  execute_planned : Z → M unit;
  cancel_single : Z → M unit;
  obliviate_single : Z → M unit;
  plan_revert_single : Z → datetime → list Z → M Z;
  is_reversible : Z → M bool
}.

(** The implementations of [Model.Wms.Operation] itself:
    [is_reversible] returns [False], all other hooks raise
    [NotImplementedError]. *)
Definition Operation_hooks : Hooks := {|
  check_create_conditions := λ _ _ _ _, raise NotImplementedError;
  find_parent_operations := λ _ _, raise NotImplementedError;
  after_insert := λ _, raise NotImplementedError;
  check_execute_conditions := λ _, raise NotImplementedError;
  execute_planned := λ _, raise NotImplementedError;
  cancel_single := λ _, raise NotImplementedError;
  obliviate_single := λ _, raise NotImplementedError;
  plan_revert_single := λ _ _ _, raise NotImplementedError;
  is_reversible := λ _, mret false
|}.

Section Operation.

(** Polymorphic dispatch: the implementation of the hooks for each
    operation type. *)
Variable registry : OperationType → Hooks.

(** [Operation.forbid_follows_in_create] *)
Definition forbid_follows_in_create (follows : option (list Z)) : M unit :=
  match follows with
  | Some _ => raise OperationCreateArgFollows
  | None => mret tt
  end.

(** [Operation.create(state, follows, dt_execution, dt_start, **fields)].
    [dt_start] is accepted and not forwarded to [insert]. *)
Definition create (cls : OperationType) (state : OperationState)
    (follows : option (list Z)) (dt_execution dt_start : option datetime)
    (fields : gmap string Value) : M Z :=
  forbid_follows_in_create follows;;
  dt_execution ←
    match dt_execution with
    | None => if decide (state = done) then datetime_now
              else raise OperationError
    | Some dt => mret dt
    end;
  check_create_conditions (registry cls) cls state dt_execution fields;;
  follows ← find_parent_operations (registry cls) cls fields;
  op ← insert_op cls state dt_execution fields;
  follows_extend op follows;;
  after_insert (registry cls) op;;
  mret op.

(** [Operation.execute(dt_execution=None)] *)
Definition execute (self : Z) (dt_execution : option datetime) : M unit :=
  op ← get_op self;
  if decide (Operation.state op = done) then mret tt
  else
    dt_execution ←
      match dt_execution with
      | None => datetime_now
      | Some dt => mret dt
      end;
    set_op self (Operation.with_dt_execution dt_execution);;
    match Operation.dt_start op with
    | None => set_op self (Operation.with_dt_start (Some dt_execution))
    | Some _ => mret tt
    end;;
    check_execute_conditions (registry (Operation.type op)) self;;
    execute_planned (registry (Operation.type op)) self;;
    set_op self (Operation.with_state done).

(** [Operation.cancel()]. [depth] is the room left on the Python call
    stack: the recursion raises [RecursionError] when it is used up. *)
Fixpoint cancel (depth : nat) (self : Z) : M unit :=
  match depth with
  | O => raise RecursionError
  | S depth =>
      op ← get_op self;
      if decide (Operation.state op ≠ planned) then raise OperationError
      else
        followers ← get_followers self;
        for_each (cancel depth) followers;;
        cancel_single (registry (Operation.type op)) self;;
        follows_clear self;;
        delete_op self
  end.

(** [Operation.obliviate()] *)
Fixpoint obliviate (depth : nat) (self : Z) : M unit :=
  match depth with
  | O => raise RecursionError
  | S depth =>
      op ← get_op self;
      if decide (Operation.state op ≠ done) then raise OperationError
      else
        followers ← get_followers self;
        for_each (obliviate depth) followers;;
        obliviate_single (registry (Operation.type op)) self;;
        follows_clear self;;
        delete_op self
  end.

(** The loop of [plan_revert] over the followers: it extends
    [followers_reverts] and [exec_leafs]. *)
Fixpoint plan_revert_followers (rec : Z → option datetime → M (Z * list Z))
    (followers : list Z) (followers_reverts exec_leafs : list Z)
    : M (list Z * list Z) :=
  match followers with
  | [] => mret (followers_reverts, exec_leafs)
  | follower :: followers =>
      '(follower_revert, follower_exec_leafs) ← rec follower None;
      plan_revert_followers rec followers
        (followers_reverts ++ [follower_revert])
        (exec_leafs ++ follower_exec_leafs)
  end.

(** [Operation.plan_revert(dt_execution=None)]; [registry.flush()] has no
    counterpart here, since every write is visible at once. *)
Fixpoint plan_revert (depth : nat) (self : Z) (dt_execution : option datetime)
    : M (Z * list Z) :=
  match depth with
  | O => raise RecursionError
  | S depth =>
      dt_execution ←
        match dt_execution with
        | None => datetime_now
        | Some dt => mret dt
        end;
      op ← get_op self;
      if decide (Operation.state op ≠ done) then raise OperationError
      else
        reversible ← is_reversible (registry (Operation.type op)) self;
        if negb reversible then raise OperationIrreversibleError
        else
          followers ← get_followers self;
          '(followers_reverts, exec_leafs) ←
            plan_revert_followers (plan_revert depth) followers [] [];
          this_reversal ←
            plan_revert_single (registry (Operation.type op)) self
              dt_execution followers_reverts;
          let exec_leafs :=
            match exec_leafs with
            | [] => [this_reversal]
            | _ => exec_leafs
            end in
          mret (this_reversal, exec_leafs)
  end.

End Operation.

(** ** Goods Types, Split and Aggregate *)

(** Modelled from the spec: the name of the "physical" behaviour flag of a
    Goods Type is the constant [SPLIT_AGGREGATE_PHYSICAL_BEHAVIOUR] of
    [anyblok_wms_base.constants], which is not part of the sources at hand;
    only its being different from the operation names matters. *)
Definition SPLIT_AGGREGATE_PHYSICAL_BEHAVIOUR : string :=
  "split_aggregate_physical".

(** Modelled from the spec: [Goods.Type] is not part of the sources at hand.
    The "physical" flag of the behaviours forces irreversibility of Split
    and Aggregate, unless the behaviour named after the operation carries an
    explicit [reversible]; a type without behaviours is reversible. *)
Definition are_split_aggregate_physical (gt : GoodsType.t) : bool :=
  match GoodsType.behaviours gt with
  | Some bhv =>
      match bhv !! SPLIT_AGGREGATE_PHYSICAL_BEHAVIOUR with
      | Some (BFlag b) => b
      | _ => false
      end
  | None => false
  end.

(** Modelled from the spec: the explicit per-operation override, if any. *)
Definition reversible_override (op_name : string) (gt : GoodsType.t)
    : option bool :=
  match GoodsType.behaviours gt with
  | Some bhv =>
      match bhv !! op_name with
      | Some (BParams params) => params !! "reversible"%string
      | _ => None
      end
  | None => None
  end.

(** Modelled from the spec: see [are_split_aggregate_physical]. *)
Definition is_op_reversible (op_name : string) (gt : GoodsType.t) : bool :=
  match reversible_override op_name gt with
  | Some reversible => reversible
  | None => negb (are_split_aggregate_physical gt)
  end.

Definition is_split_reversible : GoodsType.t → bool :=
  is_op_reversible "split".

Definition is_aggregate_reversible : GoodsType.t → bool :=
  is_op_reversible "aggregate".

(** Keyword arguments by kind. *)
Definition field_ref (fields : gmap string Value) (k : string) : option Z :=
  match fields !! k with
  | Some (VRef pk) => Some pk
  | _ => None
  end.

Definition field_int (fields : gmap string Value) (k : string) : option Z :=
  match fields !! k with
  | Some (VInt z) => Some z
  | _ => None
  end.

Definition field_refs (fields : gmap string Value) (k : string)
    : option (list Z) :=
  match fields !! k with
  | Some (VRefs pks) => Some pks
  | _ => None
  end.

(** Rows by primary key. *)
Definition find_avatar (s : Store) (pk : Z) : option Avatar.t :=
  head (filter (λ a, Avatar.id a = pk) (avatars s)).

Definition find_goods (s : Store) (pk : Z) : option Goods.t :=
  head (filter (λ g, Goods.id g = pk) (goods s)).

Definition find_goods_type (s : Store) (pk : Z) : option GoodsType.t :=
  head (filter (λ gt, GoodsType.id gt = pk) (goods_types s)).

Definition set_goods (gs : list Goods.t) (s : Store) : Store :=
  mkStore (locations s) (goods_types s) gs (avatars s) (operations s)
          (wms_operation_history s) (next_id s) (clock s) (ticks s).

Definition set_avatars (avs : list Avatar.t) (s : Store) : Store :=
  mkStore (locations s) (goods_types s) (goods s) avs (operations s)
          (wms_operation_history s) (next_id s) (clock s) (ticks s).

(** The value behind an optional reference, or a raise. *)
Definition expect {A} (e : Exception) (o : option A) : M A :=
  match o with
  | Some a => mret a
  | None => raise e
  end.

(** A precondition of a subtype. *)
Definition require (P : Prop) `{Decision P} : M unit :=
  if decide P then mret tt else raise OperationNotExecutable.

(** The avatar a reference points to, with its Goods row. *)
Definition load_avatar (pk : Z) : M (Avatar.t * Goods.t) :=
  λ s, match find_avatar s pk with
       | Some a =>
           match find_goods s (Avatar.goods a) with
           | Some g => (Return (a, g), s)
           | None => (Raise OperationNotExecutable, s)
           end
       | None => (Raise OperationNotExecutable, s)
       end.

(** The Goods Type a reference points to. *)
Definition load_goods_type (pk : Z) : M GoodsType.t :=
  λ s, match find_goods_type s pk with
       | Some gt => (Return gt, s)
       | None => (Raise OperationNotExecutable, s)
       end.

Fixpoint load_avatars (pks : list Z) : M (list (Avatar.t * Goods.t)) :=
  match pks with
  | [] => mret []
  | pk :: pks =>
      r ← load_avatar pk;
      rs ← load_avatars pks;
      mret (r :: rs)
  end.

(** A fresh primary key from the sequence. *)
Definition fresh_id : M Z :=
  λ s, (Return (next_id s), set_next_id (next_id s + 1) s).

Definition update_goods (pk : Z) (f : Goods.t → Goods.t) : M unit :=
  λ s, (Return tt,
        set_goods ((λ g, if decide (Goods.id g = pk) then f g else g) <$> goods s) s).

Definition update_avatar (pk : Z) (f : Avatar.t → Avatar.t) : M unit :=
  λ s, (Return tt,
        set_avatars ((λ a, if decide (Avatar.id a = pk) then f a else a) <$> avatars s) s).

Definition insert_goods (g : Goods.t) : M unit :=
  λ s, (Return tt, set_goods (goods s ++ [g]) s).

Definition insert_avatar (a : Avatar.t) : M unit :=
  λ s, (Return tt, set_avatars (avatars s ++ [a]) s).

Definition Goods_with_quantity (q : Z) (g : Goods.t) : Goods.t :=
  Goods.mk (Goods.id g) (Goods.type g) q.

Definition Avatar_with_reason (op : Z) (a : Avatar.t) : Avatar.t :=
  Avatar.mk (Avatar.id a) (Avatar.goods a) (Avatar.location a)
            (Avatar.state a) (Avatar.dt_from a) (Avatar.dt_until a) op.

Definition Avatar_with_state (st : AvatarState) (a : Avatar.t) : Avatar.t :=
  Avatar.mk (Avatar.id a) (Avatar.goods a) (Avatar.location a)
            st (Avatar.dt_from a) (Avatar.dt_until a) (Avatar.reason a).

Definition Avatar_with_dt_until (dt : option datetime) (a : Avatar.t)
    : Avatar.t :=
  Avatar.mk (Avatar.id a) (Avatar.goods a) (Avatar.location a)
            (Avatar.state a) (Avatar.dt_from a) dt (Avatar.reason a).

(** Modelled from the spec: the Split operation ([Operation.Split]) is not
    part of the sources at hand, only its tests are. A Split takes the avatar
    of some goods ([goods]) and a [quantity]; creation fails with
    [OperationNotExecutable] when the quantity at hand is insufficient, or
    when a split to be done right away is about goods that are not
    present. *)
Definition Split_check_create_conditions (cls : OperationType)
    (state : OperationState) (dt_execution : datetime)
    (fields : gmap string Value) : M unit :=
  av ← expect OperationNotExecutable (field_ref fields "goods");
  n ← expect OperationNotExecutable (field_int fields "quantity");
  '(a, g) ← load_avatar av;
  require (state = done → Avatar.state a = present);;
  require (n ≤ Goods.quantity g).

(** Modelled from the spec: predecessors are computed from the supplied
    input avatars: a Split follows the operation its input is due to. *)
Definition Split_find_parent_operations (cls : OperationType)
    (fields : gmap string Value) : M (list Z) :=
  av ← expect OperationNotExecutable (field_ref fields "goods");
  '(a, _) ← load_avatar av;
  mret [Avatar.reason a].

(** Modelled from the spec: a Split of [quantity] out of goods of quantity q
    leaves the original with q - [quantity] and creates goods of quantity
    [quantity], of the same type, with an avatar at the same location and in
    the same state; both avatars are now due to the Split. *)
Definition Split_after_insert (self : Z) : M unit :=
  op ← get_op self;
  av ← expect OperationNotExecutable (field_ref (Operation.fields op) "goods");
  n ← expect OperationNotExecutable (field_int (Operation.fields op) "quantity");
  '(a, g) ← load_avatar av;
  update_goods (Goods.id g) (Goods_with_quantity (Goods.quantity g - n));;
  update_avatar (Avatar.id a) (Avatar_with_reason self);;
  new_goods ← fresh_id;
  insert_goods (Goods.mk new_goods (Goods.type g) n);;
  new_avatar ← fresh_id;
  insert_avatar (Avatar.mk new_avatar new_goods (Avatar.location a)
                           (Avatar.state a) (Avatar.dt_from a)
                           (Avatar.dt_until a) self).

(** Modelled from the spec: reversibility of a Split is that of the type of
    its goods. *)
Definition Split_is_reversible (self : Z) : M bool :=
  op ← get_op self;
  av ← expect OperationNotExecutable (field_ref (Operation.fields op) "goods");
  '(_, g) ← load_avatar av;
  gt ← load_goods_type (Goods.type g);
  mret (is_split_reversible gt).

(** Modelled from the spec: the hooks of Split that the spec describes; the
    others are left as in the base class. *)
Definition Split_hooks : Hooks := {|
  check_create_conditions := Split_check_create_conditions;
  find_parent_operations := Split_find_parent_operations;
  after_insert := Split_after_insert;
  check_execute_conditions := check_execute_conditions Operation_hooks;
  execute_planned := execute_planned Operation_hooks;
  cancel_single := cancel_single Operation_hooks;
  obliviate_single := obliviate_single Operation_hooks;
  plan_revert_single := plan_revert_single Operation_hooks;
  is_reversible := Split_is_reversible
|}.

(** Total quantity of some avatars with their goods. *)
Definition total_quantity (rows : list (Avatar.t * Goods.t)) : Z :=
  foldr Z.add 0 ((λ r, Goods.quantity r.2) <$> rows).

(** All rows agree on what [f] reads. *)
Definition uniform {A B} `{EqDecision B} (f : A → B) (rows : list A) : Prop :=
  match rows with
  | [] => True
  | r :: rows => Forall (λ r', f r' = f r) rows
  end.

#[global] Instance uniform_dec {A B} `{EqDecision B} (f : A → B) rows :
  Decision (uniform f rows).
Proof. destruct rows; simpl; apply _. Defined.

(** Modelled from the spec: the Aggregate operation ([Operation.Aggregate])
    is not part of the sources at hand. An Aggregate merges the avatars
    [goods], which must be of one type, at one location and in one state
    (present, when the Aggregate is done right away). *)
Definition Aggregate_check_create_conditions (cls : OperationType)
    (state : OperationState) (dt_execution : datetime)
    (fields : gmap string Value) : M unit :=
  avs ← expect OperationNotExecutable (field_refs fields "goods");
  rows ← load_avatars avs;
  require (rows ≠ []);;
  require (uniform (λ r : Avatar.t * Goods.t, Goods.type r.2) rows);;
  require (uniform (λ r : Avatar.t * Goods.t, Avatar.location r.1) rows);;
  require (uniform (λ r : Avatar.t * Goods.t, Avatar.state r.1) rows);;
  require (state = done → Forall (λ r : Avatar.t * Goods.t, Avatar.state r.1 = present) rows).

(** Modelled from the spec: an Aggregate follows the operations its inputs
    are due to. *)
Definition Aggregate_find_parent_operations (cls : OperationType)
    (fields : gmap string Value) : M (list Z) :=
  avs ← expect OperationNotExecutable (field_refs fields "goods");
  rows ← load_avatars avs;
  mret (remove_dups ((λ r : Avatar.t * Goods.t, Avatar.reason r.1) <$> rows)).

(** Modelled from the spec: an Aggregate produces a single avatar, due to
    it, of goods whose quantity is the sum of the quantities of its inputs,
    at their location; done right away, the output is present and the inputs
    become past as of the execution; planned, the output is future. *)
Definition Aggregate_after_insert (self : Z) : M unit :=
  op ← get_op self;
  avs ← expect OperationNotExecutable (field_refs (Operation.fields op) "goods");
  rows ← load_avatars avs;
  '(a, g) ← expect OperationNotExecutable (head rows);
  (if decide (Operation.state op = done) then
     for_each (λ r : Avatar.t * Goods.t,
                 update_avatar (Avatar.id r.1)
                   (λ a, Avatar_with_dt_until
                           (Some (Operation.dt_execution op))
                           (Avatar_with_state past a))) rows
   else mret tt);;
  new_goods ← fresh_id;
  insert_goods (Goods.mk new_goods (Goods.type g) (total_quantity rows));;
  new_avatar ← fresh_id;
  insert_avatar (Avatar.mk new_avatar new_goods (Avatar.location a)
                           (if decide (Operation.state op = done)
                            then present else future)
                           (Operation.dt_execution op) None self).

(** Modelled from the spec: reversibility of an Aggregate is that of the
    type of its goods. *)
Definition Aggregate_is_reversible (self : Z) : M bool :=
  op ← get_op self;
  avs ← expect OperationNotExecutable (field_refs (Operation.fields op) "goods");
  av ← expect OperationNotExecutable (head avs);
  '(_, g) ← load_avatar av;
  gt ← load_goods_type (Goods.type g);
  mret (is_aggregate_reversible gt).

(** Modelled from the spec: the hooks of Aggregate that the spec describes;
    the others are left as in the base class. *)
Definition Aggregate_hooks : Hooks := {|
  check_create_conditions := Aggregate_check_create_conditions;
  find_parent_operations := Aggregate_find_parent_operations;
  after_insert := Aggregate_after_insert;
  check_execute_conditions := check_execute_conditions Operation_hooks;
  execute_planned := execute_planned Operation_hooks;
  cancel_single := cancel_single Operation_hooks;
  obliviate_single := obliviate_single Operation_hooks;
  plan_revert_single := plan_revert_single Operation_hooks;
  is_reversible := Aggregate_is_reversible
|}.

(** The registry of the operation types modelled here; the other types get
    the implementations of the base class. *)
Definition wms_registry (cls : OperationType) : Hooks :=
  match cls with
  | Split => Split_hooks
  | Aggregate => Aggregate_hooks
  | _ => Operation_hooks
  end.

(** ** Reference definitions, in the words of the specification *)

(** The avatars of goods of type [goods_type] at location [self] that are
    in state [present], each with its Goods row. *)
Definition present_avatars (s : Store) (self : Location.t)
    (goods_type : GoodsType.t) : list JoinRow :=
  filter (λ r : JoinRow, Goods.type r.2 = GoodsType.id goods_type
                         ∧ Avatar.location r.1 = Location.id self
                         ∧ Avatar.state r.1 = present) (join_goods s).

(** The sum of the quantity fields of those avatars. *)
Definition sum_present_quantity (s : Store) (self : Location.t)
    (goods_type : GoodsType.t) : Z :=
  total_quantity (present_avatars s self goods_type).

(** Two avatars that differ at most by their date and time bounds. *)
Definition same_but_interval (a a' : Avatar.t) : Prop :=
  Avatar.id a = Avatar.id a' ∧ Avatar.goods a = Avatar.goods a' ∧
  Avatar.location a = Avatar.location a' ∧ Avatar.state a = Avatar.state a' ∧
  Avatar.reason a = Avatar.reason a'.

(** The half-open interval [dt_from, dt_until) of an avatar contains [t];
    a null [dt_until] is open-ended. *)
Definition in_interval (t : datetime) (a : Avatar.t) : Prop :=
  Avatar.dt_from a ≤ t ∧
  match Avatar.dt_until a with
  | None => True
  | Some u => t < u
  end.

#[global] Instance in_interval_dec t a : Decision (in_interval t a).
Proof. unfold in_interval. destruct (Avatar.dt_until a); apply _. Defined.

(** The avatars that a query at [self] for [goods_type] with states
    [states] is about. *)
Definition scoped (self : Location.t) (goods_type : GoodsType.t)
    (states : list AvatarState) (r : JoinRow) : Prop :=
  Goods.type r.2 = GoodsType.id goods_type
  ∧ Avatar.location r.1 = Location.id self
  ∧ Avatar.state r.1 ∈ states.

#[global] Instance scoped_dec self gt states r : Decision (scoped self gt states r).
Proof. unfold scoped. apply _. Defined.

(** The avatars that are due to the operation [op], with their Goods rows:
    the outcomes of the operation. *)
Definition outcomes (s : Store) (op : Z) : list JoinRow :=
  filter (λ r : JoinRow, Avatar.reason r.1 = op) (join_goods s).

(** Primary keys are unique and were drawn from the sequence; reasons are
    existing operations, which holds of every store that the operations
    have built. *)
Definition ledger_wf (s : Store) : Prop :=
  NoDup (Goods.id <$> goods s)
  ∧ NoDup (Avatar.id <$> avatars s)
  ∧ Forall (λ g, Goods.id g < next_id s) (goods s)
  ∧ Forall (λ a, Avatar.reason a < next_id s) (avatars s).

#[global] Instance ledger_wf_dec s : Decision (ledger_wf s).
Proof. unfold ledger_wf. apply _. Defined.

(** ** Notions used in the statements about the location hierarchy *)

(** The locations the traversal of [tag_cte] starts from: those without
    parent when [top] is [None], the location [top] otherwise. *)
Definition is_root (top : option Location.t) (l : Location.t) : Prop :=
  match top with
  | None => Location.parent l = None
  | Some t => Location.id l = Location.id t
  end.

#[global] Instance is_root_dec top l : Decision (is_root top l).
Proof. destruct top; simpl; apply _. Defined.

(** The tree reachable from the root, by primary key. *)
Inductive in_tree (s : Store) (top : option Location.t) : Z → Prop :=
| in_tree_root l :
    l ∈ locations s → is_root top l → in_tree s top (Location.id l)
| in_tree_child l p :
    l ∈ locations s → Location.parent l = Some p → in_tree s top p →
    in_tree s top (Location.id l).

(** The effective tag of a location, in the words of the specification:
    its own tag if set, else the effective tag of its parent, that is, the
    tag of its nearest tagged ancestor; it is null when the location has no
    tag and no ancestor that has one. No root of a traversal comes into
    it. *)
Inductive effective_tag (s : Store) : Z → option string → Prop :=
| effective_own l t :
    l ∈ locations s → Location.tag l = Some t →
    effective_tag s (Location.id l) (Some t)
| effective_none l :
    l ∈ locations s → Location.tag l = None → Location.parent l = None →
    effective_tag s (Location.id l) None
| effective_inherit l p t :
    l ∈ locations s → Location.tag l = None → Location.parent l = Some p →
    effective_tag s p t →
    effective_tag s (Location.id l) t.

(** The rows that the recursive CTE of [tag_cte] denotes: the least set
    that holds the rows of the non-recursive term and is closed under the
    recursive term. *)
Inductive cte_row (s : Store) (top : option Location.t) : CteRow → Prop :=
| cte_row_anchor l :
    l ∈ locations s → is_root top l →
    cte_row s top (Location.id l, Location.tag l)
| cte_row_child child p t :
    child ∈ locations s → Location.parent child = Some p →
    cte_row s top (p, t) →
    cte_row s top (Location.id child, coalesce (Location.tag child) t).

(** A hierarchy built top-down: primary keys are unique and every location
    lies deeper than its parent. *)
Definition deeper_than_parent (depth : Z → nat) (l : Location.t) : Prop :=
  match Location.parent l with
  | Some p => (depth p < depth (Location.id l))%nat
  | None => True
  end.

#[global] Instance deeper_than_parent_dec depth l :
  Decision (deeper_than_parent depth l).
Proof. unfold deeper_than_parent. destruct (Location.parent l); apply _. Defined.

Definition hierarchy_wf (s : Store) (depth : Z → nat) : Prop :=
  NoDup (Location.id <$> locations s)
  ∧ Forall (deeper_than_parent depth) (locations s).

#[global] Instance hierarchy_wf_dec s depth : Decision (hierarchy_wf s depth).
Proof. unfold hierarchy_wf. apply _. Defined.

(** ** Notions used in the statements about operations *)

(** A hook that leaves the row of the operation it is called on as it is,
    whether it returns or raises. *)
Definition keeps_operation (hook : Z → M unit) (self : Z) : Prop :=
  ∀ s, operations (hook self s).2 !! self = operations s !! self.

(** The time that [execute] takes as execution time: the argument, or the
    reading of the clock. *)
Definition execution_time (dt_execution : option datetime) (s : Store)
    : datetime :=
  match dt_execution with
  | Some dt => dt
  | None => clock s (ticks s)
  end.

(** The row of an operation once [execute] has recorded [t] as execution
    time, and as start time if there was none. *)
Definition stamped (t : datetime) (op : Operation.t) : Operation.t :=
  Operation.with_dt_start (Some (default t (Operation.dt_start op)))
    (Operation.with_dt_execution t op).

(** The store after [datetime.now()] has been read, if it had to be. *)
Definition after_default_now (dt : option datetime) (s : Store) : Store :=
  match dt with
  | Some _ => s
  | None => set_ticks (S (ticks s)) s
  end.

(** The Goods Type of the goods that the avatar [av] is about. *)
Definition goods_type_of_avatar (s : Store) (av : Z) (gt : GoodsType.t)
    : Prop :=
  ∃ a g, find_avatar s av = Some a
         ∧ find_goods s (Avatar.goods a) = Some g
         ∧ find_goods_type s (Goods.type g) = Some gt.

(** A Goods Type with the "physical" behaviour flag and no explicit
    [reversible: true] for the operation named [op_name]. *)
Definition physical_without_override (op_name : string) (gt : GoodsType.t)
    : Prop :=
  are_split_aggregate_physical gt = true
  ∧ reversible_override op_name gt ≠ Some true.

(** A hook that leaves the operations and their edges as they are: it
    works on goods and avatars only. *)
Definition keeps_graph (hook : Z → M unit) : Prop :=
  ∀ self s,
    operations (hook self s).2 = operations s
    ∧ wms_operation_history (hook self s).2 = wms_operation_history s.

(** A hook that never raises. *)
Definition succeeds (hook : Z → M unit) : Prop :=
  ∀ self s, (hook self s).1 = Return tt.

(** The operations that depend on [self], directly or not, [self]
    included. *)
Definition downstream (s : Store) : Z → Z → Prop :=
  rtc (λ a b, b ∈ followers_of s a).

(** A graph of operations without duplicate edges, whose edges go down
    along [rank]: a directed acyclic graph. *)
Definition dag (rank : Z → nat) (s : Store) : Prop :=
  NoDup (wms_operation_history s)
  ∧ Forall (λ e : Z * Z, (rank e.2 < rank e.1)%nat) (wms_operation_history s).

(** No follower of an operation depends on another follower of the same
    operation. *)
Definition independent_followers (s : Store) : Prop :=
  ∀ x y y', y ∈ followers_of s x → y' ∈ followers_of s x → y ≠ y' →
            ¬ downstream s y y'.

(** [self] exists, and it is planned as is all that depends on it. *)
Definition planned_below (s : Store) (self : Z) : Prop :=
  is_Some (operations s !! self)
  ∧ ∀ z op, downstream s self z → operations s !! z = Some op →
            Operation.state op = planned.

Definition planned_dag (s : Store) (rank : Z → nat) (self : Z) : Prop :=
  dag rank s ∧ independent_followers s ∧ planned_below s self.

(** What a call that only deletes operations [below] and edges leaves
    behind. *)
Definition shrinks (s s' : Store) (below : Z → Prop) : Prop :=
  operations s' ⊆ operations s
  ∧ (∀ z, ¬ below z → operations s' !! z = operations s !! z)
  ∧ wms_operation_history s' `sublist_of` wms_operation_history s.

(** ** Sample data *)

(** An operation type whose hooks always succeed and have no consequence:
    it follows nothing and cannot be reverted. *)
Definition Inert_hooks : Hooks := {|
  check_create_conditions := λ _ _ _ _, mret tt;
  find_parent_operations := λ _ _, mret [];
  after_insert := λ _, mret tt;
  check_execute_conditions := λ _, mret tt;
  execute_planned := λ _, mret tt;
  cancel_single := λ _, mret tt;
  obliviate_single := λ _, mret tt;
  plan_revert_single := λ _ _ _, raise NotImplementedError;
  is_reversible := λ _, mret false
|}.

Definition inert_registry (cls : OperationType) : Hooks := Inert_hooks.

Definition base_registry (cls : OperationType) : Hooks := Operation_hooks.

(** The setting of the tests of Split: one Goods Type, the incoming
    location and the stock, an Arrival and the goods of quantity 3 it
    brought, present at the incoming location. *)
Definition sample_goods_type : GoodsType.t :=
  GoodsType.mk 1 (Some "MG"%string) None.

Definition sample_incoming_loc : Location.t :=
  Location.mk 1 None (Some "Incoming location"%string) None None.

Definition sample_stock : Location.t :=
  Location.mk 2 None (Some "Stock"%string) None None.

Definition sample_arrival : Operation.t :=
  Operation.mk 1 Arrival done None 100 None ∅.

Definition sample_store : Store :=
  mkStore [sample_incoming_loc; sample_stock] [sample_goods_type]
    [Goods.mk 1 1 3] [Avatar.mk 1 1 1 present 100 None 1]
    {[ 1 := sample_arrival ]} [] 2 (λ n, 200 + Z.of_nat n) 0%nat.

(** [Split.create(state='done', goods=goods, quantity=2)] *)
Definition sample_split_fields : gmap string Value :=
  {[ "goods"%string := VRef 1; "quantity"%string := VInt 2 ]}.

(** The sample store once the Split of 2 out of 3 is done, and the
    Aggregate of its two outcomes. *)
Definition split_done_store : Store :=
  (create wms_registry Split done None None None sample_split_fields
     sample_store).2.

Definition sample_aggregate_fields : gmap string Value :=
  {[ "goods"%string := VRefs [1; 4] ]}.

(** The sample store with goods of quantity 1, and with other bounds on the
    avatar. *)
Definition unit_store : Store :=
  set_goods [Goods.mk 1 1 1] sample_store.

Definition unit_store_later : Store :=
  set_avatars [Avatar.mk 1 1 1 present 500 (Some 600) 1] unit_store.

(** The sample data with a Goods Type that has the "physical" flag, as in
    [test_irreversible], and the store once the Split is done. *)
Definition physical_goods_type : GoodsType.t :=
  GoodsType.mk 1 (Some "MG"%string)
    (Some {[ SPLIT_AGGREGATE_PHYSICAL_BEHAVIOUR := BFlag true ]}).

Definition physical_store : Store :=
  mkStore (locations sample_store) [physical_goods_type] (goods sample_store)
    (avatars sample_store) (operations sample_store)
    (wms_operation_history sample_store) (next_id sample_store)
    (clock sample_store) (ticks sample_store).

Definition physical_split_store : Store :=
  (create wms_registry Split done None None None sample_split_fields
     physical_store).2.

(** A planned operation, numbered 5, next to the Arrival. *)
Definition sample_planned : Operation.t :=
  Operation.mk 5 Move planned None 300 None ∅.

Definition sample_planned_store : Store :=
  set_next_id 6
    (set_operations (<[5 := sample_planned]> (operations sample_store))
       sample_store).

(** A planned chain: operation 5 of the sample, followed by 6, which is
    followed by 7 and 8. *)
Definition chain_store : Store :=
  set_next_id 9
    (set_history [(1, 5); (5, 6); (6, 7); (6, 8)]
       (set_operations
          (<[8 := Operation.mk 8 Move planned None 330 None ∅]>
             (<[7 := Operation.mk 7 Move planned None 320 None ∅]>
                (<[6 := Operation.mk 6 Move planned None 310 None ∅]>
                   (operations sample_planned_store))))
          sample_planned_store)).

Definition chain_rank (pk : Z) : nat := Z.to_nat (10 - pk).

(** A planned diamond: operation 5 of the sample, followed by 6 and 7,
    which are both followed by 8. *)
Definition diamond_store : Store :=
  set_history [(1, 5); (5, 6); (5, 7); (6, 8); (7, 8)] chain_store.

(** The warehouse of the docstring of [Location.tag]: a room tagged
    "sellable", its examination area tagged "qa" and the waiting area in it
    tagged "sellable" again, next to untagged locations. *)
Definition warehouse_locations : list Location.t :=
  [ Location.mk 1 (Some "WH"%string) None None None;
    Location.mk 2 (Some "R1"%string) None (Some 1) (Some "sellable"%string);
    Location.mk 3 (Some "R1/QA"%string) None (Some 2) (Some "qa"%string);
    Location.mk 4 (Some "R1/QA/Good"%string) None (Some 3) (Some "sellable"%string);
    Location.mk 5 (Some "R1/A"%string) None (Some 2) None;
    Location.mk 6 (Some "R1/QA/Bad"%string) None (Some 3) None ].

Definition warehouse : Store :=
  mkStore warehouse_locations [] [] [] ∅ [] 1 (λ _, 0) 0%nat.

Definition warehouse_depth (pk : Z) : nat :=
  if decide (pk = 1) then 0%nat
  else if decide (pk = 2) then 1%nat
  else if decide (pk = 3) then 2%nat
  else if decide (pk = 5) then 2%nat
  else 3%nat.

(** ** Notions used in further statements about [Location.quantity] *)

(** The states that [quantity] filters on. *)
Definition queried_states (additional_states : option (list AvatarState))
    : list AvatarState :=
  match additional_states with
  | None => [present]
  | Some sts => present :: sts
  end.

(** The filter that [at_datetime] stands for. *)
Definition at_filter (at_datetime : option AtDatetime) (a : Avatar.t) : Prop :=
  match at_datetime with
  | None => True
  | Some DATE_TIME_INFINITY => Avatar.dt_until a = None
  | Some (At t) => in_interval t a
  end.

#[global] Instance at_filter_dec at_datetime a : Decision (at_filter at_datetime a).
Proof. destruct at_datetime as [[|t]|]; simpl; apply _. Defined.

(** The rows that a call of [quantity] counts, when it returns. *)
Definition counted (self : Location.t) (goods_type : GoodsType.t)
    (additional_states : option (list AvatarState))
    (at_datetime : option AtDatetime) (r : JoinRow) : Prop :=
  scoped self goods_type (queried_states additional_states) r
  ∧ at_filter at_datetime r.1.

#[global] Instance counted_dec self gt sts at_datetime r :
  Decision (counted self gt sts at_datetime r).
Proof. unfold counted. apply _. Defined.

(** [t] is not before any bound of any avatar. *)
Definition after_all_bounds (t : datetime) (s : Store) : Prop :=
  Forall (λ a, Avatar.dt_from a ≤ t
               ∧ match Avatar.dt_until a with
                 | Some u => u ≤ t
                 | None => True
                 end) (avatars s).

#[global] Instance after_all_bounds_dec t s : Decision (after_all_bounds t s).
Proof.
  unfold after_all_bounds. apply Forall_dec. intros a.
  destruct (Avatar.dt_until a); apply _.
Defined.

(** The sample store with a past avatar and a future avatar of further
    goods next to the present one. *)
Definition history_store : Store :=
  set_avatars
    [Avatar.mk 1 1 1 present 100 None 1;
     Avatar.mk 2 2 1 past 50 (Some 100) 1;
     Avatar.mk 3 3 1 future 300 None 1;
     Avatar.mk 4 9 1 present 100 None 1;
     Avatar.mk 5 2 2 present 100 None 1]
    (set_goods [Goods.mk 1 1 3; Goods.mk 2 1 1; Goods.mk 3 1 1] sample_store).

(** ** Notions used in further statements about [Location.tag_cte] *)

(** The number of steps from the root down to a location of the tree. *)
Inductive level (s : Store) (top : option Location.t) : nat → Z → Prop :=
| level_root l :
    l ∈ locations s → is_root top l → level s top 0 (Location.id l)
| level_child l p k :
    l ∈ locations s → Location.parent l = Some p → level s top k p →
    level s top (S k) (Location.id l).

(** Primary keys that are closed under "has a child among them": each of
    them is a parent of one of them, as on a cycle of the parent
    relation. *)
Definition child_closed (s : Store) (keys : list Z) : Prop :=
  Forall (λ i, Exists (λ child, Location.parent child = Some i
                                ∧ Location.id child ∈ keys) (locations s))
         keys.

#[global] Instance child_closed_dec s keys : Decision (child_closed s keys).
Proof. unfold child_closed. apply _. Defined.

(** Two locations that are the parent of each other. *)
Definition cyclic_locations : Store :=
  mkStore [Location.mk 1 None None (Some 2) (Some "a"%string);
           Location.mk 2 None None (Some 1) None]
    [] [] [] ∅ [] 1 (λ _, 0) 0%nat.

(** ** Notions used in further statements about operations *)

(** A call that leaves the operations, their edges and the next primary
    key as they are, whether it returns or raises: it works on goods and
    avatars only. *)
Definition leaves_operations {A} (m : M A) : Prop :=
  ∀ s, operations (m s).2 = operations s
       ∧ wms_operation_history (m s).2 = wms_operation_history s
       ∧ next_id (m s).2 = next_id s.

(** The next primary key is in use neither for an operation nor in an
    edge. *)
Definition fresh_next_id (s : Store) : Prop :=
  operations s !! next_id s = None
  ∧ Forall (λ e : Z * Z, e.1 ≠ next_id s ∧ e.2 ≠ next_id s)
           (wms_operation_history s).

#[global] Instance fresh_next_id_dec s : Decision (fresh_next_id s).
Proof. unfold fresh_next_id. apply _. Defined.

(** [find_parent_operations] returns operations of the store. *)
Definition finds_operations (m : M (list Z)) : Prop :=
  ∀ s parents s', m s = (Return parents, s') →
                  Forall (λ p, is_Some (operations s !! p)) parents.

(** The row that [create] inserts. *)
Definition created (pk : Z) (cls : OperationType) (state : OperationState)
    (dt_execution : datetime) (fields : gmap string Value) : Operation.t :=
  Operation.mk pk cls state
    match fields !! "comment"%string with
    | Some (VStr c) => Some c
    | _ => None
    end
    dt_execution None fields.

(** An operation type that implements the checks at creation, with no
    parent operations, and nothing else. *)
Definition Unfinished_hooks : Hooks := {|
  check_create_conditions := λ _ _ _ _, mret tt;
  find_parent_operations := λ _ _, mret [];
  after_insert := after_insert Operation_hooks;
  check_execute_conditions := check_execute_conditions Operation_hooks;
  execute_planned := execute_planned Operation_hooks;
  cancel_single := cancel_single Operation_hooks;
  obliviate_single := obliviate_single Operation_hooks;
  plan_revert_single := plan_revert_single Operation_hooks;
  is_reversible := is_reversible Operation_hooks
|}.

Definition unfinished_registry (cls : OperationType) : Hooks :=
  Unfinished_hooks.

(** ** The recursion that [cancel] and [obliviate] have in common *)

(** The docstring of [obliviate] calls it "very much a duplication of
    [cancel]": both are the recursion below, for the state [st] that they
    ask for and the hook [single] that they call. It is used to reason on
    both at once; [cancel] and [obliviate] themselves are defined above,
    each from its own source. *)
Fixpoint sweep (registry : OperationType → Hooks) (st : OperationState)
    (single : Hooks → Z → M unit) (depth : nat) (self : Z) : M unit :=
  match depth with
  | O => raise RecursionError
  | S depth =>
      op ← get_op self;
      if decide (Operation.state op ≠ st) then raise OperationError
      else
        followers ← get_followers self;
        for_each (sweep registry st single depth) followers;;
        single (registry (Operation.type op)) self;;
        follows_clear self;;
        delete_op self
  end.

(** [self] exists, and it is in state [st] as is all that depends on it. *)
Definition all_below (st : OperationState) (s : Store) (self : Z) : Prop :=
  is_Some (operations s !! self)
  ∧ ∀ z op, downstream s self z → operations s !! z = Some op →
            Operation.state op = st.

(** An operation that depends on itself, through one edge or more. *)
Definition on_cycle (s : Store) (self : Z) : Prop :=
  tc (λ a b, b ∈ followers_of s a) self self.

(** The planned operations 5 to 8, where 6 and 7 follow each other. *)
Definition cyclic_store : Store :=
  set_history [(6, 7); (7, 6)] chain_store.

(** The graph of the chain, all operations being done. *)
Definition done_chain_store : Store :=
  set_operations
    (Operation.with_state done <$> operations chain_store) chain_store.

(** What a call that deletes the operations [below] and the edges to them,
    and nothing else, leaves behind. *)
Definition deletes (s s' : Store) (below : Z → Prop) : Prop :=
  (∀ z, below z → operations s' !! z = None)
  ∧ (∀ z, ¬ below z → operations s' !! z = operations s !! z)
  ∧ wms_operation_history s' `sublist_of` wms_operation_history s
  ∧ (∀ e, e ∈ wms_operation_history s'
          ↔ e ∈ wms_operation_history s ∧ ¬ below e.2).

(** The three invariants of a call that returns: edges are removed only if
    their target is deleted; a deleted operation takes its followers along;
    no edge is left to a deleted operation. *)
Definition sweep_invariant (s s' : Store) : Prop :=
  operations s' ⊆ operations s
  ∧ (∀ e, e ∈ wms_operation_history s →
          ¬ (is_Some (operations s !! e.2) ∧ operations s' !! e.2 = None) →
          e ∈ wms_operation_history s')
  ∧ (∀ a b, b ∈ followers_of s a → is_Some (operations s !! a) →
            operations s' !! a = None → operations s' !! b = None)
  ∧ (∀ p z, is_Some (operations s !! z) → operations s' !! z = None →
            (p, z) ∉ wms_operation_history s')
  ∧ wms_operation_history s' `sublist_of` wms_operation_history s.

(** An operation type that can be reverted: the reversal is a planned Move
    that follows the operation and the reversals of its followers. *)
Definition Reversible_hooks : Hooks := {|
  check_create_conditions := λ _ _ _ _, mret tt;
  find_parent_operations := λ _ _, mret [];
  after_insert := λ _, mret tt;
  check_execute_conditions := λ _, mret tt;
  execute_planned := λ _, mret tt;
  cancel_single := λ _, mret tt;
  obliviate_single := λ _, mret tt;
  plan_revert_single := λ self dt_execution follows,
    reversal ← insert_op Move planned dt_execution ∅;
    follows_extend reversal (self :: follows);;
    mret reversal;
  is_reversible := λ _, mret true
|}.

Definition reversible_registry (cls : OperationType) : Hooks :=
  Reversible_hooks.


(** * Properties *)

(** ** The store monad *)

Lemma bind_unfold {A B} (m : M A) (k : A → M B) (s : Store) :
  (m ≫= k) s = match m s with
               | (Return a, s') => k a s'
               | (Raise e, s') => (Raise e, s')
               end.
Proof. reflexivity. Qed.

Lemma ret_unfold {A} (a : A) (s : Store) : (mret a : M A) s = (Return a, s).
Proof. reflexivity. Qed.

Lemma bind_ret_l {A B} (a : A) (k : A → M B) (s : Store) :
  (mret a ≫= k) s = k a s.
Proof. reflexivity. Qed.

Lemma bind_Return_l {A B} (m : M A) (k : A → M B) s a s' :
  m s = (Return a, s') → (m ≫= k) s = k a s'.
Proof. intros H. by rewrite bind_unfold, H. Qed.

Lemma bind_Return_inv {A B} (m : M A) (k : A → M B) s b s' :
  (m ≫= k) s = (Return b, s') →
  ∃ a s0, m s = (Return a, s0) ∧ k a s0 = (Return b, s').
Proof.
  rewrite bind_unfold. destruct (m s) as [[a|e] s0]; [eauto|discriminate].
Qed.

Lemma set_op_Return_inv self f s u s' :
  set_op self f s = (Return u, s') →
  ∃ op, operations s !! self = Some op
        ∧ s' = set_operations (<[self := f op]> (operations s)) s.
Proof.
  unfold set_op. destruct (operations s !! self) as [op|]; [|discriminate].
  intros [= _ <-]. eauto.
Qed.

Lemma get_op_Some self s op :
  operations s !! self = Some op → get_op self s = (Return op, s).
Proof. unfold get_op. by intros ->. Qed.

Lemma set_op_Some self f s op :
  operations s !! self = Some op →
  set_op self f s
  = (Return tt, set_operations (<[self := f op]> (operations s)) s).
Proof. unfold set_op. by intros ->. Qed.

(** ** Operation.execute *)

Lemma execute_done registry s self op dt :
  operations s !! self = Some op → Operation.state op = done →
  execute registry self dt s = (Return tt, s).
Proof.
  intros Hop Hdone. unfold execute. rewrite bind_unfold, (get_op_Some _ _ _ Hop).
  by rewrite decide_True.
Qed.

Lemma execute_Return_done registry s self dt s1 :
  execute registry self dt s = (Return tt, s1) →
  ∃ op, operations s1 !! self = Some op ∧ Operation.state op = done.
Proof.
  unfold execute. intros H.
  apply bind_Return_inv in H as (op & s0 & Hget & H).
  unfold get_op in Hget.
  destruct (operations s !! self) as [op0|] eqn:Hop; [|discriminate].
  injection Hget as -> ->.
  destruct (decide (Operation.state op = done)) as [Hd|Hd].
  - injection H as <-. eauto.
  - repeat (apply bind_Return_inv in H as (? & ? & _ & H)).
    apply set_op_Return_inv in H as (op' & Hop' & ->). simpl.
    rewrite lookup_insert_eq. eauto.
Qed.

(** C3. [execute] is idempotent: on an operation that is already done it
    returns and leaves the whole store as it is, whatever [dt_execution]
    is; hence after a call of [execute] that returned, a second call leaves
    the store in the state the first one produced. *)
Theorem execute_idempotent (registry : OperationType → Hooks) :
  (∀ s self op dt,
      operations s !! self = Some op → Operation.state op = done →
      execute registry self dt s = (Return tt, s))
  ∧ (∀ s self dt1 dt2 s1,
      execute registry self dt1 s = (Return tt, s1) →
      execute registry self dt2 s1 = (Return tt, s1)).
Proof.
  split.
  - intros. by eapply execute_done.
  - intros s self dt1 dt2 s1 H.
    apply execute_Return_done in H as (op & Hop & Hdone).
    by eapply execute_done.
Qed.

Lemma execute_idempotent_witness :
  execute inert_registry 1 (Some 7) sample_planned_store
  = (Return tt, sample_planned_store)
  ∧ ∃ s1, execute inert_registry 5 None sample_planned_store = (Return tt, s1)
          ∧ execute inert_registry 5 (Some 7) s1 = (Return tt, s1).
Proof.
  split.
  - apply (proj1 (execute_idempotent inert_registry) sample_planned_store 1
             sample_arrival (Some 7)); reflexivity.
  - eexists. split; [reflexivity|].
    apply (proj2 (execute_idempotent inert_registry) sample_planned_store 5
             None (Some 7)).
    reflexivity.
Defined.

Lemma execute_not_done registry s self op dt :
  operations s !! self = Some op → Operation.state op ≠ done →
  execute registry self dt s
  = (check_execute_conditions (registry (Operation.type op)) self;;
     execute_planned (registry (Operation.type op)) self;;
     set_op self (Operation.with_state done))
      (set_operations
         (<[self := stamped (execution_time dt s) op]> (operations s))
         (match dt with
          | Some _ => s
          | None => set_ticks (S (ticks s)) s
          end)).
Proof.
  intros Hop Hnd. unfold execute.
  rewrite bind_unfold, (get_op_Some _ _ _ Hop).
  rewrite decide_False by done.
  rewrite bind_unfold.
  assert (∀ t s0, operations s0 = operations s →
    (set_op self (Operation.with_dt_execution t);;
     match Operation.dt_start op with
     | Some _ => mret ()
     | None => set_op self (Operation.with_dt_start (Some t))
     end;;
     check_execute_conditions (registry (Operation.type op)) self;;
     execute_planned (registry (Operation.type op)) self;;
     set_op self (Operation.with_state done)) s0
    = (check_execute_conditions (registry (Operation.type op)) self;;
     execute_planned (registry (Operation.type op)) self;;
     set_op self (Operation.with_state done))
      (set_operations (<[self := stamped t op]> (operations s)) s0)) as Hrest.
  { intros t s0 Hs0.
    rewrite bind_unfold, (set_op_Some _ _ _ op) by (by rewrite Hs0).
    rewrite bind_unfold. unfold stamped.
    destruct (Operation.dt_start op) as [d'|] eqn:Hd.
    - rewrite ret_unfold. rewrite Hs0. do 3 f_equal.
      unfold Operation.with_dt_start, Operation.with_dt_execution. simpl.
      by rewrite Hd.
    - erewrite set_op_Some by apply lookup_insert_eq.
      simpl. by rewrite insert_insert_eq, Hs0. }
  destruct dt as [d|].
  - rewrite ret_unfold. by apply Hrest.
  - unfold datetime_now at 1. by apply Hrest.
Qed.

(** C10. When [execute] is called on a planned operation and raises, which
    only [check_execute_conditions] or [execute_planned] can make it do,
    the state of the operation is unchanged, but its [dt_execution] has
    become the attempted execution time, and so has its [dt_start] if it was
    null. The hooks are taken not to write to the row of the operation
    themselves. *)
Theorem execute_failure_keeps_timestamps (registry : OperationType → Hooks)
    (s : Store) (self : Z) (op : Operation.t) (dt : option datetime)
    (e : Exception) (s' : Store) :
  operations s !! self = Some op →
  Operation.state op = planned →
  keeps_operation (check_execute_conditions (registry (Operation.type op))) self →
  keeps_operation (execute_planned (registry (Operation.type op))) self →
  execute registry self dt s = (Raise e, s') →
  operations s' !! self
  = Some (Operation.mk (Operation.id op) (Operation.type op) planned
            (Operation.comment op) (execution_time dt s)
            (Some (default (execution_time dt s) (Operation.dt_start op)))
            (Operation.fields op)).
Proof.
  intros Hop Hplanned Hcheck Hexec H.
  rewrite (execute_not_done _ _ _ _ _ Hop) in H
    by (rewrite Hplanned; discriminate).
  set (op2 := stamped (execution_time dt s) op) in H.
  set (s2 := set_operations _ _) in H.
  assert (operations s2 !! self = Some op2) as Hop2
    by (subst s2; apply lookup_insert_eq).
  replace (Operation.mk _ _ _ _ _ _ _) with op2
    by (subst op2; unfold stamped, Operation.with_dt_start,
          Operation.with_dt_execution; simpl; by rewrite Hplanned).
  rewrite bind_unfold in H.
  pose proof (Hcheck s2) as Hk1.
  destruct (check_execute_conditions _ self s2) as [[[]|e1] s3] eqn:Hc.
  - pose proof (Hexec s3) as Hk2. rewrite bind_unfold in H.
    destruct (execute_planned _ self s3) as [[[]|e2] s4] eqn:He.
    + simpl in Hk1, Hk2.
      rewrite (set_op_Some _ _ s4 op2) in H by (by rewrite Hk2, Hk1).
      discriminate.
    + injection H as <- <-. simpl in Hk1, Hk2. by rewrite Hk2, Hk1.
  - injection H as <- <-. simpl in Hk1. by rewrite Hk1.
Qed.

Lemma execute_failure_keeps_timestamps_witness :
  ∃ e s',
    execute base_registry 5 None sample_planned_store = (Raise e, s')
    ∧ operations s' !! 5
      = Some (Operation.mk 5 Move planned None 200 (Some 200) ∅).
Proof.
  exists NotImplementedError. eexists. split; [reflexivity|].
  refine (execute_failure_keeps_timestamps base_registry
            sample_planned_store 5 sample_planned None
            NotImplementedError _ _ _ _ _ _).
  - reflexivity.
  - reflexivity.
  - intros s. reflexivity.
  - intros s. reflexivity.
  - reflexivity.
Defined.

(** ** Operation.create *)

Lemma create_with_follows registry cls st fl dt ds fields s :
  create registry cls st (Some fl) dt ds fields s
  = (Raise OperationCreateArgFollows, s).
Proof. reflexivity. Qed.

Lemma create_without_follows registry cls st dt ds fields s :
  create registry cls st None dt ds fields s
  = (dt_execution ←
       match dt with
       | None => if decide (st = done) then datetime_now
                 else raise OperationError
       | Some dt => mret dt
       end;
     check_create_conditions (registry cls) cls st dt_execution fields;;
     follows ← find_parent_operations (registry cls) cls fields;
     op ← insert_op cls st dt_execution fields;
     follows_extend op follows;;
     after_insert (registry cls) op;;
     mret op) s.
Proof. reflexivity. Qed.

(** C4. A call of [create] with an explicit [follows] raises
    [OperationCreateArgFollows] and leaves the store as it is: no row is
    inserted. Whenever [create] returns an operation, [follows] was not
    passed, and the edges that [create] has recorded for the new operation
    are the ones to the operations that [find_parent_operations] returned,
    as the store was when [after_insert] was called. *)
Theorem create_forbids_follows (registry : OperationType → Hooks) :
  (∀ cls st fl dt ds fields s,
      create registry cls st (Some fl) dt ds fields s
      = (Raise OperationCreateArgFollows, s))
  ∧ (∀ cls st follows dt ds fields s pk s',
      create registry cls st follows dt ds fields s = (Return pk, s') →
      follows = None
      ∧ ∃ parents dte s1 s2 s3,
          find_parent_operations (registry cls) cls fields s1
          = (Return parents, s2)
          ∧ insert_op cls st dte fields s2 = (Return pk, s3)
          ∧ after_insert (registry cls) pk
              (set_history
                 (wms_operation_history s2 ++ ((λ p, (p, pk)) <$> parents)) s3)
            = (Return tt, s')).
Proof.
  split; [intros; apply create_with_follows|].
  intros cls st follows dt ds fields s pk s' H.
  destruct follows as [fl|]; [by rewrite create_with_follows in H|].
  split; [done|].
  rewrite create_without_follows in H.
  apply bind_Return_inv in H as (dte & s0 & _ & H).
  apply bind_Return_inv in H as ([] & s1 & _ & H).
  apply bind_Return_inv in H as (parents & s2 & Hparents & H).
  apply bind_Return_inv in H as (op & s3 & Hins & H).
  apply bind_Return_inv in H as ([] & s4 & Hext & H).
  apply bind_Return_inv in H as ([] & s5 & Hafter & H).
  rewrite ret_unfold in H. injection H as -> ->.
  exists parents, dte, s1, s2, s3. repeat split; [done..|].
  unfold follows_extend in Hext. injection Hext as <-.
  rewrite <- Hafter. do 3 f_equal.
  unfold insert_op in Hins. by injection Hins as <- <-.
Qed.

Lemma create_forbids_follows_witness :
  ∃ s',
    create wms_registry Split done None None None sample_split_fields
      sample_store = (Return 2, s')
    ∧ ∃ parents dte s1 s2 s3,
        find_parent_operations (wms_registry Split) Split sample_split_fields s1
        = (Return parents, s2)
        ∧ insert_op Split done dte sample_split_fields s2 = (Return 2, s3)
        ∧ after_insert (wms_registry Split) 2
            (set_history
               (wms_operation_history s2 ++ ((λ p, (p, 2)) <$> parents)) s3)
          = (Return tt, s').
Proof.
  eexists. split; [reflexivity|].
  apply (proj2 (create_forbids_follows wms_registry) Split done None None
           None sample_split_fields sample_store 2).
  reflexivity.
Defined.

(** C5, as the code has it. A call of [create] without [dt_execution] and
    without [follows]: for the state [planned] it raises [OperationError]
    and leaves the store as it is, so that no operation is created; for the
    state [done] it goes on as the call with the reading of the clock as
    [dt_execution] does. *)
Theorem create_without_dt_execution (registry : OperationType → Hooks)
    (cls : OperationType) (ds : option datetime) (fields : gmap string Value)
    (s : Store) :
  create registry cls planned None None ds fields s = (Raise OperationError, s)
  ∧ create registry cls done None None ds fields s
    = create registry cls done None (Some (clock s (ticks s))) ds fields
        (set_ticks (S (ticks s)) s).
Proof. split; reflexivity. Qed.

(** C5, as the specification has it, fails when [follows] is passed too:
    for [planned] the call raises [OperationCreateArgFollows], not
    [OperationError]; for [done] it raises as well instead of going on, and
    the clock is not even read. *)
Lemma create_without_dt_execution_counterexample :
  (create wms_registry Split planned (Some []) None None sample_split_fields
     sample_store).1 = Raise OperationCreateArgFollows
  ∧ (create wms_registry Split planned (Some []) None None sample_split_fields
       sample_store).1 ≠ Raise OperationError
  ∧ create wms_registry Split done (Some []) None None sample_split_fields
      sample_store = (Raise OperationCreateArgFollows, sample_store)
  ∧ create wms_registry Split done (Some []) None None sample_split_fields
      sample_store
    ≠ create wms_registry Split done None (Some (clock sample_store 0%nat))
        None sample_split_fields (set_ticks 1 sample_store).
Proof.
  split; [reflexivity|]. split; [discriminate|]. split; [reflexivity|].
  discriminate.
Qed.

(** ** Location.quantity *)

Lemma filter_filter_and {A} (P Q R : A → Prop) `{!∀ x, Decision (P x)}
    `{!∀ x, Decision (Q x)} `{!∀ x, Decision (R x)} (l : list A) :
  (∀ x, R x ↔ Q x ∧ P x) →
  filter P (filter Q l) = filter R l.
Proof.
  intros HR. rewrite list_filter_filter. apply list_filter_iff.
  intros x. rewrite HR. tauto.
Qed.

Lemma contains_datetime_in_interval t (r : JoinRow) :
  contains_datetime t r ↔ in_interval t r.1.
Proof.
  unfold contains_datetime, in_interval.
  destruct (Avatar.dt_until r.1) as [u|]; split.
  - intros [H1 [H2|(u' & [= <-] & H3)]]; [done|]. done.
  - intros [H1 H2]. split; [done|]. right. eauto.
  - by intros [H1 _].
  - intros [H1 _]. split; [done|]. by left.
Qed.

(** C8. With [additional_states] given, [quantity] raises [ValueError] when
    [at_datetime] is omitted; given a date and time, it counts the avatars,
    among those of the type, at the location and in state [present] or one
    of the additional states, whose half-open interval
    [dt_from, dt_until) contains it, a null [dt_until] being open-ended;
    given the sentinel [DATE_TIME_INFINITY], it counts exactly those whose
    [dt_until] is null. *)
Theorem quantity_with_additional_states (s : Store) (self : Location.t)
    (goods_type : GoodsType.t) (additional_states : list AvatarState) :
  quantity s self goods_type (Some additional_states) None = Raise ValueError
  ∧ (∀ t,
      quantity s self goods_type (Some additional_states) (Some (At t))
      = Return (Z.of_nat (length (filter
          (λ r : JoinRow,
             scoped self goods_type (present :: additional_states) r
             ∧ in_interval t r.1)
          (join_goods s)))))
  ∧ quantity s self goods_type (Some additional_states)
      (Some DATE_TIME_INFINITY)
    = Return (Z.of_nat (length (filter
        (λ r : JoinRow,
           scoped self goods_type (present :: additional_states) r
           ∧ Avatar.dt_until r.1 = None)
        (join_goods s)))).
Proof.
  split; [reflexivity|]. split.
  - intros t. unfold quantity, base_quantity_query. do 3 f_equal.
    rewrite (filter_filter_and (λ r : JoinRow, Avatar.state r.1 ∈ _) _
               (scoped self goods_type (present :: additional_states)))
      by (unfold scoped; tauto).
    apply filter_filter_and. intros r.
    rewrite contains_datetime_in_interval. tauto.
  - unfold quantity, base_quantity_query. do 3 f_equal.
    rewrite (filter_filter_and (λ r : JoinRow, Avatar.state r.1 ∈ _) _
               (scoped self goods_type (present :: additional_states)))
      by (unfold scoped; tauto).
    apply filter_filter_and. tauto.
Qed.

Lemma quantity_default (s : Store) (self : Location.t) (goods_type : GoodsType.t) :
  quantity s self goods_type None None
  = Return (Z.of_nat (length (present_avatars s self goods_type))).
Proof.
  unfold quantity, base_quantity_query, present_avatars. do 3 f_equal.
  apply filter_filter_and. tauto.
Qed.

Lemma total_quantity_units (rows : list JoinRow) :
  Forall (λ r : JoinRow, Goods.quantity r.2 = 1) rows →
  total_quantity rows = Z.of_nat (length rows).
Proof.
  unfold total_quantity.
  induction 1 as [|r rows Hr _ IH]; [done|].
  rewrite fmap_cons. simpl foldr. rewrite IH, Hr. simpl length. lia.
Qed.

Lemma present_count_of_avatar (self : Location.t) (goods_type : GoodsType.t)
    (a a' : Avatar.t) (gs : list Goods.t) :
  same_but_interval a a' →
  length (filter (λ r : JoinRow, Goods.type r.2 = GoodsType.id goods_type
                                 ∧ Avatar.location r.1 = Location.id self
                                 ∧ Avatar.state r.1 = present)
            (gs ≫= λ g, [(a, g)]))
  = length (filter (λ r : JoinRow, Goods.type r.2 = GoodsType.id goods_type
                                   ∧ Avatar.location r.1 = Location.id self
                                   ∧ Avatar.state r.1 = present)
              (gs ≫= λ g, [(a', g)])).
Proof.
  intros (_ & _ & Hloc & Hst & _).
  induction gs as [|g gs IH]; [done|].
  rewrite !bind_cons, !filter_app, !length_app, IH. f_equal.
  rewrite !filter_cons, !filter_nil. simpl. rewrite Hloc, Hst.
  by repeat case_decide.
Qed.

Lemma present_avatars_interval_free (self : Location.t)
    (goods_type : GoodsType.t) (s s' : Store) :
  goods s' = goods s →
  Forall2 same_but_interval (avatars s) (avatars s') →
  length (present_avatars s' self goods_type)
  = length (present_avatars s self goods_type).
Proof.
  intros Hg. unfold present_avatars, join_goods. rewrite Hg.
  generalize (avatars s) (avatars s'). clear Hg.
  induction 1 as [|a a' avs avs' Ha _ IH]; [done|].
  rewrite !bind_cons, !filter_app, !length_app, IH. f_equal.
  destruct Ha as (Hid & Hgoods & Hloc & Hst & Hreason). rewrite Hgoods.
  apply present_count_of_avatar. by repeat split.
Qed.

(** C1, as the code has it. Without [additional_states] and [at_datetime],
    [quantity] returns the number of avatars of goods of the type that are
    at the location in state [present], each avatar counting for one
    whatever the quantity field says; this is the sum of the quantity fields
    when each of them is 1. No interval filter applies: the result does not
    depend on [dt_from] and [dt_until]. *)
Theorem quantity_default_counts (s : Store) (self : Location.t)
    (goods_type : GoodsType.t) :
  quantity s self goods_type None None
  = Return (Z.of_nat (length (present_avatars s self goods_type)))
  ∧ (Forall (λ r : JoinRow, Goods.quantity r.2 = 1)
       (present_avatars s self goods_type) →
     quantity s self goods_type None None
     = Return (sum_present_quantity s self goods_type))
  ∧ (∀ s', goods s' = goods s →
           Forall2 same_but_interval (avatars s) (avatars s') →
           quantity s' self goods_type None None
           = quantity s self goods_type None None).
Proof.
  split; [apply quantity_default|]. split.
  - intros Hunits. rewrite quantity_default. unfold sum_present_quantity.
    by rewrite total_quantity_units.
  - intros s' Hg Havs. rewrite !quantity_default.
    by rewrite (present_avatars_interval_free _ _ s s').
Qed.

Lemma quantity_default_counts_witness :
  quantity unit_store sample_incoming_loc sample_goods_type None None
  = Return (sum_present_quantity unit_store sample_incoming_loc
              sample_goods_type)
  ∧ quantity unit_store_later sample_incoming_loc sample_goods_type None None
    = quantity unit_store sample_incoming_loc sample_goods_type None None.
Proof.
  pose proof (quantity_default_counts unit_store sample_incoming_loc
                sample_goods_type) as (_ & Hunits & Hfree).
  split.
  - apply Hunits. repeat constructor.
  - apply Hfree; [reflexivity|]. repeat constructor.
Defined.

(** C1, as the specification has it, fails: goods of quantity 3 in one
    avatar count for 1. *)
Lemma quantity_default_counterexample :
  quantity sample_store sample_incoming_loc sample_goods_type None None
  = Return 1
  ∧ quantity sample_store sample_incoming_loc sample_goods_type None None
    ≠ Return (sum_present_quantity sample_store sample_incoming_loc
                sample_goods_type).
Proof. split; [reflexivity|discriminate]. Qed.

(** ** Operation.plan_revert and reversibility *)

Lemma plan_revert_not_reversible registry depth self dt s op :
  operations s !! self = Some op → Operation.state op = done →
  is_reversible (registry (Operation.type op)) self (after_default_now dt s)
  = (Return false, after_default_now dt s) →
  plan_revert registry (S depth) self dt s
  = (Raise OperationIrreversibleError, after_default_now dt s).
Proof.
  intros Hop Hdone Hrev. simpl plan_revert. rewrite bind_unfold.
  assert (match dt with
          | None => datetime_now
          | Some dt => mret dt
          end s = (Return (execution_time dt s), after_default_now dt s))
    as -> by (by destruct dt).
  assert (operations (after_default_now dt s) !! self = Some op) as Hop'
    by (by destruct dt).
  rewrite bind_unfold, (get_op_Some _ _ _ Hop').
  rewrite decide_False by (rewrite Hdone; auto).
  by rewrite bind_unfold, Hrev.
Qed.

Lemma physical_not_reversible op_name gt :
  physical_without_override op_name gt → is_op_reversible op_name gt = false.
Proof.
  intros [Hphys Hover]. unfold is_op_reversible. rewrite Hphys.
  by destruct (reversible_override op_name gt) as [[]|].
Qed.

Lemma load_avatar_Some s av a g :
  find_avatar s av = Some a → find_goods s (Avatar.goods a) = Some g →
  load_avatar av s = (Return (a, g), s).
Proof. unfold load_avatar. by intros -> ->. Qed.

Lemma load_goods_type_Some s pk gt :
  find_goods_type s pk = Some gt → load_goods_type pk s = (Return gt, s).
Proof. unfold load_goods_type. by intros ->. Qed.

Lemma goods_type_of_avatar_after_now s av gt dt :
  goods_type_of_avatar s av gt →
  goods_type_of_avatar (after_default_now dt s) av gt.
Proof. by destruct dt. Qed.

(** C6. [plan_revert] on a done Split or Aggregate of goods whose type has
    the "physical" behaviour flag and no explicit [reversible: true] for
    that operation raises [OperationIrreversibleError], and writes nothing
    to the store; [is_reversible] of the base class returns [False], so
    that the same holds for any done operation whose class does not
    override it. *)
Theorem plan_revert_irreversible :
  (∀ self s, is_reversible Operation_hooks self s = (Return false, s))
  ∧ (∀ depth self dt s op,
      operations s !! self = Some op → Operation.state op = done →
      plan_revert base_registry (S depth) self dt s
      = (Raise OperationIrreversibleError, after_default_now dt s))
  ∧ (∀ depth self dt s op av gt,
      operations s !! self = Some op → Operation.state op = done →
      Operation.type op = Split →
      field_ref (Operation.fields op) "goods" = Some av →
      goods_type_of_avatar s av gt →
      physical_without_override "split" gt →
      plan_revert wms_registry (S depth) self dt s
      = (Raise OperationIrreversibleError, after_default_now dt s))
  ∧ (∀ depth self dt s op av avs gt,
      operations s !! self = Some op → Operation.state op = done →
      Operation.type op = Aggregate →
      field_refs (Operation.fields op) "goods" = Some (av :: avs) →
      goods_type_of_avatar s av gt →
      physical_without_override "aggregate" gt →
      plan_revert wms_registry (S depth) self dt s
      = (Raise OperationIrreversibleError, after_default_now dt s)).
Proof.
  split; [done|]. split; [|split].
  - intros depth self dt s op Hop Hdone.
    by apply (plan_revert_not_reversible _ _ _ _ _ op).
  - intros depth self dt s op av gt Hop Hdone Hty Hav Hgt Hphys.
    apply (plan_revert_not_reversible _ _ _ _ _ op); [done..|].
    rewrite Hty. simpl. unfold Split_is_reversible.
    apply (goods_type_of_avatar_after_now _ _ _ dt) in Hgt
      as (a & g & Ha & Hg & Hgt).
    assert (operations (after_default_now dt s) !! self = Some op) as Hop'
      by (by destruct dt).
    rewrite bind_unfold, (get_op_Some _ _ _ Hop'), Hav. cbn [expect].
    rewrite bind_unfold, ret_unfold.
    rewrite bind_unfold, (load_avatar_Some _ _ _ _ Ha Hg).
    rewrite bind_unfold, (load_goods_type_Some _ _ _ Hgt), ret_unfold.
    unfold is_split_reversible. by rewrite physical_not_reversible.
  - intros depth self dt s op av avs gt Hop Hdone Hty Hav Hgt Hphys.
    apply (plan_revert_not_reversible _ _ _ _ _ op); [done..|].
    rewrite Hty. simpl. unfold Aggregate_is_reversible.
    apply (goods_type_of_avatar_after_now _ _ _ dt) in Hgt
      as (a & g & Ha & Hg & Hgt).
    assert (operations (after_default_now dt s) !! self = Some op) as Hop'
      by (by destruct dt).
    rewrite bind_unfold, (get_op_Some _ _ _ Hop'), Hav. cbn [expect].
    rewrite bind_unfold, ret_unfold. cbn [head expect].
    rewrite bind_unfold, ret_unfold.
    rewrite bind_unfold, (load_avatar_Some _ _ _ _ Ha Hg).
    rewrite bind_unfold, (load_goods_type_Some _ _ _ Hgt), ret_unfold.
    unfold is_aggregate_reversible. by rewrite physical_not_reversible.
Qed.

Lemma plan_revert_irreversible_witness :
  plan_revert wms_registry 1 2 None physical_split_store
  = (Raise OperationIrreversibleError,
     after_default_now None physical_split_store).
Proof.
  refine (proj1 (proj2 (proj2 plan_revert_irreversible)) 0%nat 2 None
            physical_split_store
            (Operation.mk 2 Split done None 200 None sample_split_fields)
            1 physical_goods_type _ _ _ _ _ _).
  - reflexivity.
  - reflexivity.
  - reflexivity.
  - reflexivity.
  - exists (Avatar.mk 1 1 1 present 100 None 2), (Goods.mk 1 1 1).
    repeat split; reflexivity.
  - split; [reflexivity|discriminate].
Defined.

(** ** Rows and keys *)

Section Keys.
Context {A : Type} (key : A → Z).

Lemma filter_key_none (l : list A) (k : Z) :
  (∀ x, x ∈ l → key x ≠ k) → filter (λ y, key y = k) l = [].
Proof.
  induction l as [|x l IH]; [done|]. intros H.
  rewrite filter_cons_False by (apply H; left).
  apply IH. intros y Hy. apply H. by right.
Qed.

Lemma filter_key_unique (l : list A) (x : A) :
  NoDup (key <$> l) → x ∈ l → filter (λ y, key y = key x) l = [x].
Proof.
  induction l as [|y l IH]; [by intros _ ?%elem_of_nil|].
  rewrite fmap_cons, NoDup_cons. intros [Hy Hnd] [->|Hx]%elem_of_cons.
  - rewrite filter_cons_True by done. f_equal.
    apply filter_key_none. intros z Hz Hk. apply Hy. rewrite <- Hk.
    by apply list_elem_of_fmap_2.
  - rewrite filter_cons_False; [by apply IH|].
    intros Hk. apply Hy. rewrite Hk. by apply list_elem_of_fmap_2.
Qed.

Lemma filter_key_fmap (f : A → A) (l : list A) (k : Z) :
  (∀ x, key (f x) = key x) →
  filter (λ y, key y = k) (f <$> l) = f <$> filter (λ y, key y = k) l.
Proof.
  intros Hf. induction l as [|x l IH]; [done|].
  rewrite fmap_cons, !filter_cons, Hf, IH. by case_decide.
Qed.

Lemma head_filter_key (l : list A) (k : Z) (x : A) :
  head (filter (λ y, key y = k) l) = Some x → x ∈ l ∧ key x = k.
Proof.
  intros H. assert (x ∈ filter (λ y, key y = k) l) as Hx.
  { destruct (filter _ l) as [|z ?]; [done|]. injection H as ->. left. }
  apply list_elem_of_filter in Hx. tauto.
Qed.
End Keys.

Lemma find_avatar_Some s pk a :
  find_avatar s pk = Some a → a ∈ avatars s ∧ Avatar.id a = pk.
Proof. apply (head_filter_key Avatar.id). Qed.

Lemma find_goods_Some s pk g :
  find_goods s pk = Some g → g ∈ goods s ∧ Goods.id g = pk.
Proof. apply (head_filter_key Goods.id). Qed.

(** Filtering the join on a property of the avatar is filtering the
    avatars. *)
Lemma filter_join_avatar (P : Avatar.t → Prop) `{!∀ a, Decision (P a)}
    (f : Avatar.t → list Goods.t) (avs : list Avatar.t) :
  filter (λ r : JoinRow, P r.1) (avs ≫= λ a, f a ≫= λ g, [(a, g)])
  = filter P avs ≫= λ a, f a ≫= λ g, [(a, g)].
Proof.
  induction avs as [|a avs IH]; [done|].
  rewrite bind_cons, filter_app, IH, filter_cons.
  assert (filter (λ r : JoinRow, P r.1) (f a ≫= λ g, [(a, g)])
          = if decide (P a) then f a ≫= λ g, [(a, g)] else []) as ->.
  { induction (f a) as [|g gs IHg]; [by case_decide|].
    rewrite bind_cons, filter_app, IHg, filter_cons, filter_nil. simpl.
    by case_decide. }
  case_decide; [by rewrite bind_cons|done].
Qed.

Lemma outcomes_unfold s op :
  outcomes s op
  = filter (λ a, Avatar.reason a = op) (avatars s)
    ≫= λ a, filter (λ g, Goods.id g = Avatar.goods a) (goods s)
             ≫= λ g, [(a, g)].
Proof.
  unfold outcomes, join_goods.
  exact (filter_join_avatar (λ a, Avatar.reason a = op)
           (λ a, filter (λ g, Goods.id g = Avatar.goods a) (goods s))
           (avatars s)).
Qed.

(** Claiming the avatar [a] for [op] makes it the one avatar due to [op]. *)
Lemma filter_reason_claimed (avs : list Avatar.t) (a : Avatar.t) (op : Z) :
  NoDup (Avatar.id <$> avs) → a ∈ avs →
  (∀ x, x ∈ avs → Avatar.reason x ≠ op) →
  filter (λ x, Avatar.reason x = op)
    ((λ x, if decide (Avatar.id x = Avatar.id a)
           then Avatar_with_reason op x else x) <$> avs)
  = [Avatar_with_reason op a].
Proof.
  induction avs as [|y avs IH]; [by intros _ ?%elem_of_nil|].
  rewrite fmap_cons, NoDup_cons. intros [Hy Hnd] Ha Hreason.
  assert (∀ x, x ∈ avs → Avatar.reason x ≠ op) as Hreason'
    by (intros x Hx; apply Hreason; by right).
  rewrite fmap_cons. apply elem_of_cons in Ha as [->|Ha]; cbv beta.
  - rewrite decide_True by done. rewrite filter_cons_True by done. f_equal.
    rewrite (filter_key_none Avatar.reason); [done|].
    intros x (z & -> & Hz)%list_elem_of_fmap.
    rewrite decide_False; [by apply Hreason'|].
    intros Hk. apply Hy. rewrite <- Hk. by apply list_elem_of_fmap_2.
  - rewrite decide_False.
    + rewrite filter_cons_False by (apply Hreason; left). by apply IH.
    + intros Hk. apply Hy. rewrite Hk. by apply list_elem_of_fmap_2.
Qed.

(** ** Split and Aggregate *)

Lemma require_True (P : Prop) `{Decision P} s :
  P → require P s = (Return tt, s).
Proof. intros HP. unfold require. by rewrite decide_True. Qed.

Lemma split_conserves s st dt ds fields av n a g :
  ledger_wf s →
  field_ref fields "goods" = Some av →
  field_int fields "quantity" = Some n →
  find_avatar s av = Some a →
  find_goods s (Avatar.goods a) = Some g →
  (st = done → Avatar.state a = present) →
  n ≤ Goods.quantity g →
  ∃ s',
    create wms_registry Split st None (Some dt) ds fields s
    = (Return (next_id s), s')
    ∧ outcomes s' (next_id s)
      = [(Avatar_with_reason (next_id s) a,
          Goods_with_quantity (Goods.quantity g - n) g);
         (Avatar.mk (next_id s + 1 + 1) (next_id s + 1) (Avatar.location a)
            (Avatar.state a) (Avatar.dt_from a) (Avatar.dt_until a)
            (next_id s),
          Goods.mk (next_id s + 1) (Goods.type g) n)].
Proof.
  intros (Hgid & Haid & Hgfresh & Hreason) Hav Hn Ha Hg Hst Hle.
  eexists. split.
  - rewrite create_without_follows.
    rewrite bind_ret_l. cbn [wms_registry check_create_conditions Split_hooks].
    rewrite bind_unfold.
    unfold Split_check_create_conditions. 
    rewrite Hav, Hn. cbn [expect].
    rewrite !bind_ret_l.
    rewrite (bind_Return_l _ _ _ _ _ (load_avatar_Some _ _ _ _ Ha Hg)).
    rewrite (bind_Return_l _ _ _ _ _ (require_True _ _ Hst)).
    rewrite (require_True _ _ Hle).
    cbn [find_parent_operations Split_hooks]. rewrite bind_unfold.
    unfold Split_find_parent_operations. rewrite Hav. cbn [expect].
    rewrite bind_ret_l.
    rewrite (bind_Return_l _ _ _ _ _ (load_avatar_Some _ _ _ _ Ha Hg)).
    rewrite ret_unfold.
    rewrite bind_unfold. unfold insert_op at 1. cbv beta iota zeta.
    rewrite bind_unfold. unfold follows_extend at 1. cbv beta iota zeta.
    rewrite bind_unfold. cbn [after_insert Split_hooks]. unfold Split_after_insert.
    erewrite bind_Return_l by (apply get_op_Some, lookup_insert_eq).
    cbv beta. cbn [Operation.fields].
    rewrite Hav, Hn. cbn [expect].
    rewrite !bind_ret_l.
    erewrite bind_Return_l by (apply load_avatar_Some; [exact Ha|exact Hg]).
    cbv beta iota.
    rewrite bind_unfold. unfold update_goods at 1.
    rewrite bind_unfold. unfold update_avatar at 1.
    rewrite bind_unfold. unfold fresh_id at 1.
    rewrite bind_unfold. unfold insert_goods at 1.
    rewrite bind_unfold. unfold fresh_id at 1.
    unfold insert_avatar. rewrite ret_unfold. reflexivity.
  - rewrite outcomes_unfold.
    cbn [avatars goods set_avatars set_goods set_next_id set_history
         set_operations next_id].
    apply find_avatar_Some in Ha as [Hain _].
    apply find_goods_Some in Hg as [Hgin Hgoods].
    rewrite Forall_forall in Hgfresh. rewrite Forall_forall in Hreason.
    assert (∀ x, Goods.id ((λ g0, if decide (Goods.id g0 = Goods.id g)
                                  then Goods_with_quantity
                                         (Goods.quantity g - n) g0
                                  else g0) x) = Goods.id x) as Hkeep.
    { intros x. simpl. by case_decide. }
    rewrite filter_app, filter_reason_claimed; [|done|done|].
    2:{ intros x Hx. specialize (Hreason x Hx). lia. }
    rewrite filter_cons_True, filter_nil by done.
    cbn [app]. rewrite !bind_cons. change (@nil Avatar.t ≫= ?f) with (@nil (Avatar.t * Goods.t)).
    cbn [Avatar.goods Avatar_with_reason]. rewrite <- Hgoods.
    rewrite !filter_app, !(filter_key_fmap Goods.id _ _ _ Hkeep).
    rewrite (filter_key_unique Goods.id) by done.
    rewrite (filter_key_none Goods.id _ (next_id s + 1)).
    2:{ intros x Hx. specialize (Hgfresh x Hx). lia. }
    rewrite filter_cons_False by (specialize (Hgfresh g Hgin); simpl; lia).
    rewrite filter_cons_True by done. rewrite !filter_nil.
    simpl. by rewrite decide_True.
Qed.

Lemma load_avatar_frame pk s s2 :
  avatars s2 = avatars s → goods s2 = goods s →
  load_avatar pk s2 = ((load_avatar pk s).1, s2)
  ∧ (load_avatar pk s).2 = s.
Proof.
  intros Ha Hg. unfold load_avatar, find_avatar, find_goods. rewrite Ha, Hg.
  destruct (head (filter _ (avatars s))) as [a|]; [|done].
  by destruct (head (filter _ (goods s))).
Qed.

Lemma load_avatars_frame pks s s2 :
  avatars s2 = avatars s → goods s2 = goods s →
  load_avatars pks s2 = ((load_avatars pks s).1, s2)
  ∧ (load_avatars pks s).2 = s.
Proof.
  intros Ha Hg. induction pks as [|pk pks IH]; [done|].
  cbn [load_avatars]. rewrite !bind_unfold.
  destruct (load_avatar_frame pk s s2 Ha Hg) as [H1 H2].
  rewrite H1. destruct (load_avatar pk s) as [[r|e] s0]; simpl in H2 |- *;
    subst s0; [|done].
  rewrite !bind_unfold. destruct IH as [IH1 IH2]. rewrite IH1.
  destruct (load_avatars pks s) as [[rs|e] s0]; simpl in IH2 |- *;
    subst s0; done.
Qed.

Lemma load_avatars_Return pks s s2 rows :
  load_avatars pks s = (Return rows, s) →
  avatars s2 = avatars s → goods s2 = goods s →
  load_avatars pks s2 = (Return rows, s2).
Proof.
  intros H Ha Hg. destruct (load_avatars_frame pks s s2 Ha Hg) as [-> _].
  by rewrite H.
Qed.

Lemma for_each_update_avatar (f : Avatar.t → Avatar.t)
    (rows : list (Avatar.t * Goods.t)) (s : Store) :
  (∀ a, Avatar.reason (f a) = Avatar.reason a) →
  ∃ avs', for_each (λ r : Avatar.t * Goods.t,
                      update_avatar (Avatar.id r.1) f) rows s
          = (Return tt, set_avatars avs' s)
          ∧ Avatar.reason <$> avs' = Avatar.reason <$> avatars s.
Proof.
  intros Hf. revert s. induction rows as [|r rows IH]; intros s.
  - exists (avatars s). by destruct s.
  - cbn [for_each]. rewrite bind_unfold. unfold update_avatar at 1.
    destruct (IH (set_avatars
                    ((λ a, if decide (Avatar.id a = Avatar.id r.1)
                           then f a else a) <$> avatars s) s))
      as (avs' & -> & Hreason).
    exists avs'. split; [done|]. rewrite Hreason. cbn [avatars set_avatars].
    rewrite <- list_fmap_compose. apply list_fmap_ext.
    intros i x _. simpl. by case_decide.
Qed.

Lemma aggregate_conserves s st dt ds fields avs rows :
  ledger_wf s →
  field_refs fields "goods" = Some avs →
  NoDup avs →
  load_avatars avs s = (Return rows, s) →
  rows ≠ [] →
  uniform (λ r : Avatar.t * Goods.t, Goods.type r.2) rows →
  uniform (λ r : Avatar.t * Goods.t, Avatar.location r.1) rows →
  uniform (λ r : Avatar.t * Goods.t, Avatar.state r.1) rows →
  (st = done → Forall (λ r : Avatar.t * Goods.t, Avatar.state r.1 = present) rows) →
  ∃ s' a g,
    create wms_registry Aggregate st None (Some dt) ds fields s
    = (Return (next_id s), s')
    ∧ outcomes s' (next_id s) = [(a, g)]
    ∧ Goods.quantity g = total_quantity rows.
Proof.
  intros (Hgid & Haid & Hgfresh & Hreason) Hav Hnd Hrows Hne Hty Hloc Hstate Hst.
  destruct rows as [|[a0 g0] rows0] eqn:Erows; [done|]. rewrite <- Erows in *.
  set (pk := next_id s).
  set (op := Operation.mk pk Aggregate st
               match fields !! "comment"%string with
               | Some (VStr c) => Some c
               | _ => None
               end dt None fields).
  set (s2 := set_history
               (wms_operation_history s
                ++ ((λ p, (p, pk)) <$>
                    remove_dups ((λ r : Avatar.t * Goods.t, Avatar.reason r.1)
                                   <$> rows)))
               (set_next_id (pk + 1)
                  (set_operations (<[pk := op]> (operations s)) s))).
  assert (∃ avs', (if decide (Operation.state op = done) then
             for_each (λ r : Avatar.t * Goods.t,
                 update_avatar (Avatar.id r.1)
                   (λ a, Avatar_with_dt_until
                           (Some (Operation.dt_execution op))
                           (Avatar_with_state past a))) rows
           else mret tt) s2 = (Return tt, set_avatars avs' s2)
           ∧ Avatar.reason <$> avs' = Avatar.reason <$> avatars s)
    as (avs' & Hloop & Hreasons).
  { case_decide.
    - destruct (for_each_update_avatar
                  (λ a, Avatar_with_dt_until (Some (Operation.dt_execution op))
                          (Avatar_with_state past a)) rows s2)
        as (avs' & H1 & H2); [done|].
      exists avs'. split; [exact H1|exact H2].
    - exists (avatars s). done. }
  eexists _, _, _. split; [|split].
  - rewrite create_without_follows.
    rewrite bind_ret_l.
    cbn [wms_registry check_create_conditions Aggregate_hooks].
    rewrite bind_unfold.
    unfold Aggregate_check_create_conditions. rewrite Hav. cbn [expect].
    rewrite !bind_ret_l.
    rewrite (bind_Return_l _ _ _ _ _ Hrows).
    rewrite (bind_Return_l _ _ _ _ _ (require_True _ _ Hne)).
    rewrite (bind_Return_l _ _ _ _ _ (require_True _ _ Hty)).
    rewrite (bind_Return_l _ _ _ _ _ (require_True _ _ Hloc)).
    rewrite (bind_Return_l _ _ _ _ _ (require_True _ _ Hstate)).
    rewrite (require_True _ _ Hst).
    cbn [find_parent_operations Aggregate_hooks]. rewrite bind_unfold.
    unfold Aggregate_find_parent_operations. rewrite Hav. cbn [expect].
    rewrite bind_ret_l.
    rewrite (bind_Return_l _ _ _ _ _ Hrows).
    rewrite ret_unfold.
    rewrite bind_unfold. unfold insert_op at 1. cbv beta iota zeta.
    rewrite bind_unfold. unfold follows_extend at 1. cbv beta iota zeta.
    fold pk. fold op. cbn [wms_operation_history set_next_id set_operations].
    fold s2.
    rewrite bind_unfold. cbn [after_insert Aggregate_hooks].
    unfold Aggregate_after_insert.
    erewrite bind_Return_l by (apply get_op_Some, lookup_insert_eq).
    cbv beta. cbn [Operation.fields op]. rewrite Hav. cbn [expect].
    rewrite !bind_ret_l.
    erewrite bind_Return_l by (by apply (load_avatars_Return _ s)).
    rewrite Erows at 1. cbn [head expect]. rewrite bind_ret_l. cbv beta iota.
    fold op.
    rewrite (bind_Return_l _ _ _ _ _ Hloop).
    rewrite bind_unfold. unfold fresh_id at 1.
    rewrite bind_unfold. unfold insert_goods at 1.
    rewrite bind_unfold. unfold fresh_id at 1.
    unfold insert_avatar. rewrite ret_unfold. reflexivity.
  - rewrite outcomes_unfold.
    cbn [avatars goods set_avatars set_goods set_next_id set_history
         set_operations next_id s2].
    rewrite Forall_forall in Hgfresh. rewrite Forall_forall in Hreason.
    rewrite filter_app, (filter_key_none Avatar.reason avs' pk).
    2:{ intros x Hx.
        assert (Avatar.reason x ∈ Avatar.reason <$> avatars s) as Hin
          by (rewrite <- Hreasons; by apply list_elem_of_fmap_2).
        apply list_elem_of_fmap in Hin as (y & -> & Hy).
        specialize (Hreason y Hy). unfold pk. lia. }
    rewrite filter_cons_True, filter_nil by done.
    cbn [app]. rewrite bind_cons.
    change (@nil Avatar.t ≫= ?f) with (@nil (Avatar.t * Goods.t)).
    cbn [Avatar.goods].
    rewrite filter_app, (filter_key_none Goods.id _ (pk + 1)).
    2:{ intros x Hx. specialize (Hgfresh x Hx). unfold pk. lia. }
    rewrite filter_cons_True, filter_nil by done.
    reflexivity.
  - reflexivity.
Qed.

(** C7. Quantity conservation. A valid Split of [n] out of goods of
    quantity q is created, and its outcomes are the original avatar, whose
    goods now have quantity q - [n], and a new avatar of new goods of
    quantity [n], of the same type, at the same location and in the same
    state: their quantities sum to q. A valid Aggregate is created, and its
    one outcome is of goods whose quantity is the sum of the quantities of
    the inputs. *)
Theorem split_aggregate_conserve_quantity :
  (∀ s st dt ds fields av n a g,
      ledger_wf s →
      field_ref fields "goods" = Some av →
      field_int fields "quantity" = Some n →
      find_avatar s av = Some a →
      find_goods s (Avatar.goods a) = Some g →
      (st = done → Avatar.state a = present) →
      n ≤ Goods.quantity g →
      ∃ s',
        create wms_registry Split st None (Some dt) ds fields s
        = (Return (next_id s), s')
        ∧ outcomes s' (next_id s)
          = [(Avatar_with_reason (next_id s) a,
              Goods_with_quantity (Goods.quantity g - n) g);
             (Avatar.mk (next_id s + 1 + 1) (next_id s + 1)
                (Avatar.location a) (Avatar.state a) (Avatar.dt_from a)
                (Avatar.dt_until a) (next_id s),
              Goods.mk (next_id s + 1) (Goods.type g) n)]
        ∧ total_quantity (outcomes s' (next_id s)) = Goods.quantity g)
  ∧ (∀ s st dt ds fields avs rows,
      ledger_wf s →
      field_refs fields "goods" = Some avs →
      NoDup avs →
      load_avatars avs s = (Return rows, s) →
      rows ≠ [] →
      uniform (λ r : Avatar.t * Goods.t, Goods.type r.2) rows →
      uniform (λ r : Avatar.t * Goods.t, Avatar.location r.1) rows →
      uniform (λ r : Avatar.t * Goods.t, Avatar.state r.1) rows →
      (st = done →
       Forall (λ r : Avatar.t * Goods.t, Avatar.state r.1 = present) rows) →
      ∃ s' a g,
        create wms_registry Aggregate st None (Some dt) ds fields s
        = (Return (next_id s), s')
        ∧ outcomes s' (next_id s) = [(a, g)]
        ∧ total_quantity (outcomes s' (next_id s)) = total_quantity rows).
Proof.
  split.
  - intros s st dt ds fields av n a g Hwf Hav Hn Ha Hg Hst Hle.
    destruct (split_conserves s st dt ds fields av n a g) as (s' & Hc & Ho);
      [done..|].
    exists s'. split; [done|]. split; [done|].
    rewrite Ho. unfold total_quantity. simpl. lia.
  - intros s st dt ds fields avs rows Hwf Hav Hnd Hrows Hne Hty Hloc Hstate Hst.
    destruct (aggregate_conserves s st dt ds fields avs rows)
      as (s' & a & g & Hc & Ho & Hq); [done..|].
    exists s', a, g. split; [done|]. split; [done|].
    rewrite Ho. unfold total_quantity at 1. simpl. lia.
Qed.

Lemma split_aggregate_conserve_quantity_witness :
  (∃ s',
     create wms_registry Split done None (Some 200) None sample_split_fields
       sample_store = (Return 2, s')
     ∧ outcomes s' 2
       = [(Avatar.mk 1 1 1 present 100 None 2, Goods.mk 1 1 1);
          (Avatar.mk 4 3 1 present 100 None 2, Goods.mk 3 1 2)]
     ∧ total_quantity (outcomes s' 2) = 3)
  ∧ (∃ s' a g,
       create wms_registry Aggregate done None (Some 300) None
         sample_aggregate_fields split_done_store = (Return 5, s')
       ∧ outcomes s' 5 = [(a, g)]
       ∧ total_quantity (outcomes s' 5) = 3).
Proof.
  split.
  - apply (proj1 split_aggregate_conserve_quantity sample_store done 200 None
             sample_split_fields 1 2 (Avatar.mk 1 1 1 present 100 None 1)
             (Goods.mk 1 1 3)).
    + apply (bool_decide_unpack _). vm_compute. exact I.
    + reflexivity.
    + reflexivity.
    + reflexivity.
    + reflexivity.
    + reflexivity.
    + simpl. lia.
  - apply (proj2 split_aggregate_conserve_quantity split_done_store done 300
             None sample_aggregate_fields [1; 4]
             [(Avatar.mk 1 1 1 present 100 None 2, Goods.mk 1 1 1);
              (Avatar.mk 4 3 1 present 100 None 2, Goods.mk 3 1 2)]).
    + apply (bool_decide_unpack _). vm_compute. exact I.
    + reflexivity.
    + apply (bool_decide_unpack _). vm_compute. exact I.
    + reflexivity.
    + discriminate.
    + repeat constructor.
    + repeat constructor.
    + repeat constructor.
    + intros _. repeat constructor.
Defined.

(** ** Location.tag_cte *)

Lemma elem_of_tag_cte_anchor s top (r : Z * option string) :
  r ∈ tag_cte_anchor s top
  ↔ ∃ l, l ∈ locations s ∧ is_root top l
         ∧ r = (Location.id l, Location.tag l).
Proof.
  unfold tag_cte_anchor. rewrite list_elem_of_fmap. split.
  - intros (l & -> & Hl). exists l.
    destruct top; apply list_elem_of_filter in Hl as [? ?]; done.
  - intros (l & Hl & Hroot & ->). exists l. split; [done|].
    destruct top; apply list_elem_of_filter; done.
Qed.

Lemma elem_of_tag_cte_recursive_term s working (r : Z * option string) :
  r ∈ tag_cte_recursive_term s working
  ↔ ∃ child p t, child ∈ locations s ∧ Location.parent child = Some p
                 ∧ (p, t) ∈ working
                 ∧ r = (Location.id child, coalesce (Location.tag child) t).
Proof.
  unfold tag_cte_recursive_term. rewrite list_elem_of_bind. split.
  - intros (child & Hr & Hchild).
    apply list_elem_of_bind in Hr as ([p t] & Hr & Hp).
    apply list_elem_of_filter in Hp as [Hparent Hp].
    apply list_elem_of_singleton in Hr. by exists child, p, t.
  - intros (child & p & t & Hchild & Hparent & Hp & ->).
    exists child. split; [|done]. apply list_elem_of_bind.
    exists (p, t). split; [by apply list_elem_of_singleton|].
    by apply list_elem_of_filter.
Qed.

(** What an evaluation that comes to an end returns: the rows of the
    working table, closed under the recursive term, and nothing else. *)
Lemma eval_recursive_cte_rows rounds s working rows :
  eval_recursive_cte rounds s working = Some rows →
  (∀ r, r ∈ working → r ∈ rows)
  ∧ (∀ child p t, child ∈ locations s → Location.parent child = Some p →
                  (p, t) ∈ rows →
                  (Location.id child, coalesce (Location.tag child) t) ∈ rows)
  ∧ (∀ P : Z * option string → Prop,
       (∀ r, r ∈ working → P r) →
       (∀ child p t, child ∈ locations s → Location.parent child = Some p →
                     P (p, t) →
                     P (Location.id child, coalesce (Location.tag child) t)) →
       ∀ r, r ∈ rows → P r).
Proof.
  revert working rows. induction rounds as [|rounds IH]; intros working rows.
  - destruct working; [|done]. intros [= <-]. split; [done|].
    split; [by intros ??? _ _ ?%elem_of_nil|]. by intros ? _ _ ? ?%elem_of_nil.
  - destruct working as [|w working'].
    { intros [= <-]. split; [done|].
      split; [by intros ??? _ _ ?%elem_of_nil|].
      by intros ? _ _ ? ?%elem_of_nil. }
    cbn [eval_recursive_cte]. remember (w :: working') as working.
    destruct (eval_recursive_cte rounds s (tag_cte_recursive_term s working))
      as [rows'|] eqn:Hrec; [|done].
    intros [= <-]. destruct (IH _ _ Hrec) as (Hin & Hclosed & Hsound).
    split; [|split].
    + intros r Hr. apply elem_of_app. by left.
    + intros child p t Hchild Hparent [Hp|Hp]%elem_of_app;
        apply elem_of_app; right.
      * apply Hin. apply elem_of_tag_cte_recursive_term. by exists child, p, t.
      * by apply (Hclosed child p t).
    + intros P Hworking Hstep r [Hr|Hr]%elem_of_app; [by apply Hworking|].
      apply (Hsound P); [|done..].
      intros r' (child & p & t & Hchild & Hparent & Hp & ->)%elem_of_tag_cte_recursive_term.
      apply (Hstep child p t); [done..|]. by apply Hworking.
Qed.

Lemma eval_recursive_cte_more_rounds rounds s working rows :
  eval_recursive_cte rounds s working = Some rows →
  eval_recursive_cte (S rounds) s working = Some rows.
Proof.
  revert working rows. induction rounds as [|rounds IH]; intros working rows.
  - by destruct working.
  - destruct working as [|w working']; [done|].
    cbn [eval_recursive_cte]. remember (w :: working') as working.
    destruct (eval_recursive_cte rounds s (tag_cte_recursive_term s working))
      as [rows'|] eqn:Hrec; [|done].
    intros [= <-]. apply IH in Hrec. cbn [eval_recursive_cte] in Hrec.
    by rewrite Hrec.
Qed.

Lemma eval_recursive_cte_mono rounds rounds' s working rows :
  (rounds ≤ rounds')%nat →
  eval_recursive_cte rounds s working = Some rows →
  eval_recursive_cte rounds' s working = Some rows.
Proof.
  induction 1 as [|rounds' _ IH]; [done|]. intros H.
  by apply eval_recursive_cte_more_rounds, IH.
Qed.

(** The evaluation comes to an end on a hierarchy built top-down: round
    after round, the working table holds deeper locations only. *)
Lemma eval_recursive_cte_terminates (depth : Z → nat) s :
  (∀ l p, l ∈ locations s → Location.parent l = Some p →
          (depth p < depth (Location.id l))%nat) →
  ∀ rounds working k,
    (∀ r : Z * option string, r ∈ working →
       (k ≤ depth r.1)%nat ∧ ∃ l, l ∈ locations s ∧ Location.id l = r.1) →
    (max_list (depth ∘ Location.id <$> locations s) < k + rounds)%nat →
    is_Some (eval_recursive_cte rounds s working).
Proof.
  intros Hdepth. induction rounds as [|rounds IH]; intros working k Hw Hmax.
  - destruct working as [|r working]; [done|]. exfalso.
    destruct (Hw r) as (Hk & l & Hl & Hid); [left|].
    assert (depth (Location.id l) ≤ max_list (depth ∘ Location.id <$> locations s))%nat.
    { apply max_list_elem_of_le.
      apply (list_elem_of_fmap_2 (depth ∘ Location.id)) in Hl. done. }
    rewrite Hid in *. lia.
  - destruct working as [|w working']; [done|].
    cbn [eval_recursive_cte]. remember (w :: working') as working.
    destruct (IH (tag_cte_recursive_term s working) (S k)) as [rows Hrows].
    + intros r (child & p & t & Hchild & Hparent & Hp & ->)%elem_of_tag_cte_recursive_term.
      cbn [fst]. split; [|by exists child].
      specialize (Hdepth child p Hchild Hparent).
      destruct (Hw (p, t) Hp) as [Hk _]. cbn [fst] in Hk. lia.
    + lia.
    + rewrite Hrows. by eexists.
Qed.

Lemma tag_cte_rows rounds s top rows :
  tag_cte rounds s top = Some rows →
  ∀ r, r ∈ rows ↔ cte_row s top r.
Proof.
  intros Heval. apply eval_recursive_cte_rows in Heval
    as (Hin & Hclosed & Hsound).
  intros r. split.
  - apply (Hsound (cte_row s top)).
    + intros r' (l & Hl & Hroot & ->)%elem_of_tag_cte_anchor.
      by constructor.
    + intros child p t Hchild Hparent Hp. by apply (cte_row_child _ _ _ p).
  - induction 1 as [l Hl Hroot|child p t Hchild Hparent _ IH].
    + apply Hin, elem_of_tag_cte_anchor. by exists l.
    + by apply (Hclosed child p t).
Qed.

Lemma hierarchy_wf_depth s depth l p :
  hierarchy_wf s depth → l ∈ locations s → Location.parent l = Some p →
  (depth p < depth (Location.id l))%nat.
Proof.
  intros [_ Hdepth] Hl Hparent. rewrite Forall_forall in Hdepth.
  specialize (Hdepth l Hl). unfold deeper_than_parent in Hdepth.
  by rewrite Hparent in Hdepth.
Qed.

Section Hierarchy.
Variables (s : Store) (top : option Location.t) (depth : Z → nat).
Hypothesis Hwf : hierarchy_wf s depth.

Lemma location_unique l l' :
  l ∈ locations s → l' ∈ locations s → Location.id l = Location.id l' →
  l = l'.
Proof.
  destruct Hwf as [Hnodup _]. revert Hnodup.
  induction (locations s) as [|x xs IH]; [by intros _ ?%elem_of_nil|].
  rewrite fmap_cons, NoDup_cons. intros [Hx Hnd].
  intros [->|Hl]%elem_of_cons [->|Hl']%elem_of_cons Hid; [done|..].
  - exfalso. apply Hx. rewrite Hid. by apply list_elem_of_fmap_2.
  - exfalso. apply Hx. rewrite <- Hid. by apply list_elem_of_fmap_2.
  - by apply IH.
Qed.

Lemma cte_row_in_tree r : cte_row s top r → in_tree s top r.1.
Proof.
  induction 1 as [l Hl Hroot|child p t Hchild Hparent _ IH]; cbn [fst].
  - by apply in_tree_root.
  - by apply (in_tree_child _ _ _ p).
Qed.

Lemma in_tree_cte_row i : in_tree s top i → ∃ t, cte_row s top (i, t).
Proof.
  induction 1 as [l Hl Hroot|l p Hl Hparent _ [t IH]].
  - exists (Location.tag l). by constructor.
  - exists (coalesce (Location.tag l) t). by apply (cte_row_child _ _ _ p).
Qed.

(** No location of the tree lies higher than the root. *)
Lemma in_tree_depth t i :
  in_tree s (Some t) i → (depth (Location.id t) ≤ depth i)%nat.
Proof.
  induction 1 as [l Hl Hroot|l p Hl Hparent _ IH].
  - simpl in Hroot. by rewrite Hroot.
  - pose proof (hierarchy_wf_depth _ _ _ _ Hwf Hl Hparent). lia.
Qed.

(** A child of a location of the tree is not the root. *)
Lemma child_not_root child p :
  child ∈ locations s → Location.parent child = Some p → in_tree s top p →
  ¬ is_root top child.
Proof.
  intros Hchild Hparent Hp Hroot. destruct top as [t|].
  - simpl in Hroot. pose proof (in_tree_depth t p Hp) as Hle.
    pose proof (hierarchy_wf_depth _ _ _ _ Hwf Hchild Hparent) as Hdepth.
    rewrite Hroot in Hdepth. lia.
  - simpl in Hroot. congruence.
Qed.

(** The row of a location, read backwards. *)
Lemma cte_row_inv l t :
  l ∈ locations s → cte_row s top (Location.id l, t) →
  match Location.tag l with
  | Some x => t = Some x
  | None =>
      if decide (is_root top l) then t = None
      else ∃ p, Location.parent l = Some p ∧ cte_row s top (p, t)
  end.
Proof.
  intros Hl Hrow. inversion Hrow as [l' Hl' Hroot Hid|child p t' Hchild Hparent Hp Hid].
  - apply (location_unique l' l) in Hid as ->; [|done..].
    destruct (Location.tag l); [done|]. by rewrite decide_True.
  - apply (location_unique child l) in Hid as ->; [|done..].
    destruct (Location.tag l); [done|]. cbn [coalesce].
    rewrite decide_False.
    + by exists p.
    + apply (child_not_root l p); [done..|].
      by apply (cte_row_in_tree (p, t')).
Qed.

Lemma effective_tag_unique i t t' :
  effective_tag s i t → effective_tag s i t' → t = t'.
Proof.
  intros H. revert t'.
  induction H as [l x Hl Htag|l Hl Htag Hparent|l p t Hl Htag Hparent _ IH];
    intros t' H'.
  - inversion H' as [l' x' Hl' Htag' Hid|l' Hl' Htag' Hparent' Hid
                    |l' p' t'' Hl' Htag' Hparent' Hp' Hid];
      apply (location_unique l' l) in Hid as ->; try done; congruence.
  - inversion H' as [l' x' Hl' Htag' Hid|l' Hl' Htag' Hparent' Hid
                    |l' p' t'' Hl' Htag' Hparent' Hp' Hid];
      apply (location_unique l' l) in Hid as ->; try done; congruence.
  - inversion H' as [l' x' Hl' Htag' Hid|l' Hl' Htag' Hparent' Hid
                    |l' p' t'' Hl' Htag' Hparent' Hp' Hid];
      apply (location_unique l' l) in Hid as ->; try done; try congruence.
    apply IH. congruence.
Qed.
End Hierarchy.

(** The rows of the traversal from the top of the hierarchy hold effective
    tags. *)
Lemma cte_row_effective_tag s r :
  cte_row s None r → effective_tag s r.1 r.2.
Proof.
  induction 1 as [l Hl Hroot|child p t Hchild Hparent Hp IH];
    cbn [fst snd] in *.
  - destruct (Location.tag l) as [x|] eqn:Htag.
    + by apply effective_own.
    + by apply effective_none.
  - destruct (Location.tag child) as [x|] eqn:Htag; cbn [coalesce].
    + by apply effective_own.
    + by apply (effective_inherit _ _ p).
Qed.

(** The rows of the traversal from [top] hold effective tags as far as
    they are not null; a null tag stands for the effective tag of [top]. *)
Lemma cte_row_below_top s top top_tag r :
  effective_tag s (Location.id top) top_tag →
  cte_row s (Some top) r → effective_tag s r.1 (coalesce r.2 top_tag).
Proof.
  intros Htop.
  induction 1 as [l Hl Hroot|child p t Hchild Hparent Hp IH];
    cbn [fst snd] in *.
  - destruct (Location.tag l) as [x|] eqn:Htag; cbn [coalesce].
    + by apply effective_own.
    + simpl in Hroot. by rewrite Hroot.
  - destruct (Location.tag child) as [x|] eqn:Htag; cbn [coalesce].
    + by apply effective_own.
    + by apply (effective_inherit _ _ p).
Qed.

(** C9, as the code has it. On a hierarchy built top-down, the traversal
    of [tag_cte] comes to an end and yields rows for exactly the locations
    of the tree reachable from the root. The tag in the row of a location
    is its own tag when that is set; otherwise it is the tag in the row of
    its parent, except for the root of the traversal, whose null tag is
    kept as it is. Started from the top of the hierarchy, the rows hold the
    effective tags, that is, the tags of the nearest tagged ancestors.
    Started from a location [top], they do as far as they are not null: a
    null tag in a row stands for the effective tag of [top], which is not
    looked up. Effective tags are unique. *)
Theorem tag_cte_effective_tag (s : Store) (top : option Location.t)
    (depth : Z → nat) :
  hierarchy_wf s depth →
  ∃ rounds rows,
    (∀ n, (rounds ≤ n)%nat → tag_cte n s top = Some rows)
    ∧ (∀ i, in_tree s top i ↔ ∃ t, (i, t) ∈ rows)
    ∧ (∀ l t, l ∈ locations s → (Location.id l, t) ∈ rows →
         match Location.tag l with
         | Some x => t = Some x
         | None =>
             if decide (is_root top l) then t = None
             else ∃ p, Location.parent l = Some p ∧ (p, t) ∈ rows
         end)
    ∧ (∀ i t, (i, t) ∈ rows →
         match top with
         | None => effective_tag s i t
         | Some top =>
             ∀ top_tag, effective_tag s (Location.id top) top_tag →
                        effective_tag s i (coalesce t top_tag)
         end)
    ∧ (∀ i t t', effective_tag s i t → effective_tag s i t' → t = t').
Proof.
  intros Hwf.
  set (rounds := S (max_list (depth ∘ Location.id <$> locations s))).
  destruct (eval_recursive_cte_terminates depth s
              (λ l p, hierarchy_wf_depth s depth l p Hwf)
              rounds (tag_cte_anchor s top) 0%nat) as [rows Hrows].
  { intros r (l & Hl & _ & ->)%elem_of_tag_cte_anchor.
    split; [lia|]. by exists l. }
  { unfold rounds. lia. }
  pose proof (tag_cte_rows rounds s top rows Hrows) as Hiff.
  exists rounds, rows. split; [|split; [|split; [|split]]].
  - intros n Hn. by apply (eval_recursive_cte_mono rounds).
  - intros i. split.
    + intros [t Ht]%in_tree_cte_row. exists t. by apply Hiff.
    + intros [t Ht%Hiff]. by apply (cte_row_in_tree s top (i, t)).
  - intros l t Hl Hrow%Hiff.
    pose proof (cte_row_inv s top depth Hwf l t Hl Hrow) as Hinv.
    destruct (Location.tag l); [done|]. case_decide; [done|].
    destruct Hinv as (p & Hparent & Hp). exists p. split; [done|].
    by apply Hiff.
  - intros i t Hrow%Hiff. destruct top as [top|].
    + intros top_tag Htop. by apply (cte_row_below_top s top top_tag (i, t)).
    + by apply (cte_row_effective_tag s (i, t)).
  - intros i. by apply (effective_tag_unique s depth Hwf).
Qed.

Lemma tag_cte_effective_tag_witness :
  ∃ rounds rows,
    (∀ n, (rounds ≤ n)%nat → tag_cte n warehouse None = Some rows)
    ∧ (∀ i, in_tree warehouse None i ↔ ∃ t, (i, t) ∈ rows)
    ∧ (∀ l t, l ∈ locations warehouse → (Location.id l, t) ∈ rows →
         match Location.tag l with
         | Some x => t = Some x
         | None =>
             if decide (is_root None l) then t = None
             else ∃ p, Location.parent l = Some p ∧ (p, t) ∈ rows
         end)
    ∧ (∀ i t, (i, t) ∈ rows → effective_tag warehouse i t)
    ∧ (∀ i t t', effective_tag warehouse i t → effective_tag warehouse i t' →
                 t = t').
Proof.
  apply (tag_cte_effective_tag warehouse None warehouse_depth).
  apply (bool_decide_unpack _). vm_compute. exact I.
Defined.

(** C9, as the specification has it, fails when the traversal starts at a
    location without tag that has a tagged ancestor. R1/A of the warehouse
    has no tag of its own and lies in R1, which is tagged "sellable", so
    that its effective tag is "sellable"; the traversal started at R1/A
    yields a null tag for it. *)
Lemma tag_cte_effective_tag_counterexample :
  hierarchy_wf warehouse warehouse_depth
  ∧ Location.mk 5 (Some "R1/A"%string) None (Some 2) None ∈ locations warehouse
  ∧ in_tree warehouse
      (Some (Location.mk 5 (Some "R1/A"%string) None (Some 2) None)) 5
  ∧ tag_cte 10 warehouse
      (Some (Location.mk 5 (Some "R1/A"%string) None (Some 2) None))
    = Some [(5, None)]
  ∧ effective_tag warehouse 5 (Some "sellable"%string)
  ∧ ¬ effective_tag warehouse 5 None.
Proof.
  assert (hierarchy_wf warehouse warehouse_depth) as Hwf
    by (apply (bool_decide_unpack _); vm_compute; exact I).
  assert (Location.mk 5 (Some "R1/A"%string) None (Some 2) None
          ∈ locations warehouse) as Hin by repeat constructor.
  assert (effective_tag warehouse 5 (Some "sellable"%string)) as Htag.
  { apply (effective_inherit warehouse
             (Location.mk 5 (Some "R1/A"%string) None (Some 2) None) 2);
      [done|reflexivity..|].
    apply (effective_own warehouse
             (Location.mk 2 (Some "R1"%string) None (Some 1)
                (Some "sellable"%string)));
      [repeat constructor|reflexivity]. }
  split; [done|]. split; [done|]. split.
  { by apply (in_tree_root warehouse _
                (Location.mk 5 (Some "R1/A"%string) None (Some 2) None)). }
  split; [vm_compute; reflexivity|]. split; [done|].
  intros Hnone.
  by pose proof (effective_tag_unique warehouse warehouse_depth Hwf 5 _ _
                   Htag Hnone).
Qed.

(** The resolved tags of the warehouse, from the top of the hierarchy. *)
Example tag_cte_warehouse :
  tag_cte 10 warehouse None
  = Some [(1, None); (2, Some "sellable"); (3, Some "qa"); (5, Some "sellable");
          (4, Some "sellable"); (6, Some "qa")]%string.
Proof. vm_compute. reflexivity. Qed.

(** Started at R1/A, the traversal takes the null tag of R1/A as it is: the
    tag of R1, above it, is not looked at. *)
Example tag_cte_warehouse_top :
  tag_cte 10 warehouse (Some (Location.mk 5 None None None None))
  = Some [(5, None)].
Proof. vm_compute. reflexivity. Qed.

(** ** Operation.cancel *)

(** Cancelling operation 5 of the chain, and of the diamond, removes all
    that was planned, edges included; the Arrival, which is done, cannot be
    cancelled. *)
Example cancel_chain :
  ∃ s', cancel inert_registry 10 5 chain_store = (Return tt, s')
        ∧ operations s' = operations sample_store
        ∧ wms_operation_history s' = [].
Proof. eexists. split; [vm_compute; reflexivity|]. split; reflexivity. Qed.

Example cancel_diamond :
  ∃ s', cancel inert_registry 10 5 diamond_store = (Return tt, s')
        ∧ operations s' = operations sample_store
        ∧ wms_operation_history s' = [].
Proof. eexists. split; [vm_compute; reflexivity|]. split; reflexivity. Qed.

Example cancel_done :
  cancel inert_registry 10 1 chain_store = (Raise OperationError, chain_store).
Proof. reflexivity. Qed.

Lemma cancel_not_planned registry depth s self op :
  operations s !! self = Some op → Operation.state op ≠ planned →
  cancel registry (S depth) self s = (Raise OperationError, s).
Proof.
  intros Hop Hstate. cbn [cancel].
  rewrite (bind_Return_l _ _ _ _ _ (get_op_Some _ _ _ Hop)).
  by rewrite decide_True.
Qed.

Lemma cancel_planned registry depth s self op :
  operations s !! self = Some op → Operation.state op = planned →
  cancel registry (S depth) self s
  = (for_each (cancel registry depth) (followers_of s self);;
     cancel_single (registry (Operation.type op)) self;;
     follows_clear self;;
     delete_op self) s.
Proof.
  intros Hop Hstate. cbn [cancel].
  rewrite (bind_Return_l _ _ _ _ _ (get_op_Some _ _ _ Hop)).
  rewrite decide_False by (by intros []).
  reflexivity.
Qed.

Section CancelReturns.
Variable registry : OperationType → Hooks.
Hypothesis Hkeeps : ∀ cls, keeps_graph (cancel_single (registry cls)).

(** What is known of the store after a loop of calls that each shrink the
    operations table and remove the operation they are called on. *)
Lemma for_each_removes (f : Z → M unit) (ys : list Z) (s s' : Store) :
  (∀ y s0 s1, f y s0 = (Return tt, s1) →
              operations s1 ⊆ operations s0 ∧ operations s1 !! y = None) →
  for_each f ys s = (Return tt, s') →
  operations s' ⊆ operations s ∧ ∀ y, y ∈ ys → operations s' !! y = None.
Proof.
  intros Hf. revert s. induction ys as [|y ys IH]; intros s.
  - intros [= <-]. split; [done|]. by intros ? ?%elem_of_nil.
  - cbn [for_each]. intros H.
    apply bind_Return_inv in H as ([] & s1 & Hy & H).
    apply Hf in Hy as [Hsub Hnone]. apply IH in H as [Hsub' Hnone'].
    split; [by etrans|].
    intros z [->|Hz]%elem_of_cons; [|by apply Hnone'].
    eapply lookup_weaken_None; [exact Hnone|exact Hsub'].
Qed.

Lemma cancel_Return depth self s s' :
  cancel registry depth self s = (Return tt, s') →
  operations s' ⊆ operations s
  ∧ operations s' !! self = None
  ∧ (∀ y, y ∈ followers_of s self → operations s' !! y = None)
  ∧ (∀ p, (p, self) ∉ wms_operation_history s').
Proof.
  revert self s s'. induction depth as [|depth IH]; intros self s s' H;
    [done|].
  destruct (operations s !! self) as [op|] eqn:Hop.
  2:{ cbn [cancel] in H. rewrite bind_unfold in H. unfold get_op in H.
      by rewrite Hop in H. }
  destruct (decide (Operation.state op = planned)) as [Hstate|Hstate].
  2:{ by rewrite (cancel_not_planned _ _ _ _ op) in H. }
  rewrite (cancel_planned _ _ _ _ op) in H by done.
  apply bind_Return_inv in H as ([] & s1 & Hloop & H).
  apply bind_Return_inv in H as ([] & s2 & Hhook & H).
  apply bind_Return_inv in H as ([] & s3 & Hclear & H).
  unfold follows_clear in Hclear. injection Hclear as <-.
  unfold delete_op in H. injection H as <-.
  cbn [operations wms_operation_history set_operations set_history].
  apply for_each_removes in Hloop as [Hsub Hnone].
  2:{ intros y s0 s1' Hy. apply IH in Hy. tauto. }
  destruct (Hkeeps (Operation.type op) self s1) as [Hops _].
  rewrite Hhook in Hops. cbn [snd] in Hops. rewrite Hops.
  assert (delete self (operations s1) ⊆ operations s) as Hsub'.
  { etrans; [apply delete_subseteq|done]. }
  split; [done|]. split; [apply lookup_delete_eq|]. split.
  - intros y Hy. eapply lookup_weaken_None; [by apply Hnone|].
    apply delete_subseteq.
  - intros p Hp. apply list_elem_of_filter in Hp as [Hne _]. by apply Hne.
Qed.
End CancelReturns.

(** *** The graph of operations *)

Lemma elem_of_followers_of s a b :
  b ∈ followers_of s a
  ↔ (a, b) ∈ wms_operation_history s ∧ is_Some (operations s !! b).
Proof.
  unfold followers_of. rewrite list_elem_of_filter, list_elem_of_fmap. split.
  - intros (Hb & [p c] & -> & He). apply list_elem_of_filter in He as [Hp He].
    simpl in Hp. by subst p.
  - intros [He Hb]. split; [done|]. exists (a, b). split; [done|].
    by apply list_elem_of_filter.
Qed.

Lemma sublist_fmap {A B} (f : A → B) (l1 l2 : list A) :
  l1 `sublist_of` l2 → f <$> l1 `sublist_of` f <$> l2.
Proof.
  induction 1; simpl; [constructor|by apply sublist_skip|by apply sublist_cons].
Qed.

Lemma followers_of_NoDup s a :
  NoDup (wms_operation_history s) → NoDup (followers_of s a).
Proof.
  intros Hnd. unfold followers_of. apply NoDup_filter.
  apply NoDup_fmap_2_strong; [|by apply NoDup_filter].
  intros [p c] [p' c'] [Hp _]%list_elem_of_filter [Hp' _]%list_elem_of_filter.
  simpl in *. congruence.
Qed.

(** In a forest an operation follows at most one operation. *)
Lemma one_parent (h : list (Z * Z)) p p' c :
  NoDup h.*2 → (p, c) ∈ h → (p', c) ∈ h → p = p'.
Proof.
  induction h as [|[q d] h IH]; [by intros _ ?%elem_of_nil|].
  rewrite fmap_cons, NoDup_cons. cbn [snd]. intros [Hd Hnd] Hp Hp'.
  apply elem_of_cons in Hp as [Hp|Hp]; apply elem_of_cons in Hp' as [Hp'|Hp'].
  - congruence.
  - exfalso. apply Hd. apply (list_elem_of_fmap_2 snd) in Hp'.
    injection Hp as _ <-. exact Hp'.
  - exfalso. apply Hd. apply (list_elem_of_fmap_2 snd) in Hp.
    injection Hp' as _ <-. exact Hp.
  - by apply IH.
Qed.

Section Graph.
Variable rank : Z → nat.

Lemma downstream_mono s s' a b :
  operations s' ⊆ operations s →
  wms_operation_history s' `sublist_of` wms_operation_history s →
  downstream s' a b → downstream s a b.
Proof.
  intros Hops Hhist. apply rtc_subrel. intros x y.
  rewrite !elem_of_followers_of. intros [He [op Hy]]. split.
  - by eapply elem_of_sublist.
  - exists op. by eapply lookup_weaken.
Qed.

Lemma downstream_rank s a b :
  Forall (λ e : Z * Z, (rank e.2 < rank e.1)%nat) (wms_operation_history s) →
  downstream s a b → (rank b ≤ rank a)%nat.
Proof.
  intros Hrank. rewrite Forall_forall in Hrank.
  induction 1 as [|x y z Hxy _ IH]; [done|].
  apply elem_of_followers_of in Hxy as [He _].
  specialize (Hrank _ He). simpl in Hrank. lia.
Qed.

(** In a forest, where every operation follows at most one operation,
    two operations that follow the same operation do not depend on each
    other. *)
Lemma forest_independent_followers s :
  NoDup (wms_operation_history s).*2 →
  Forall (λ e : Z * Z, (rank e.2 < rank e.1)%nat) (wms_operation_history s) →
  independent_followers s.
Proof.
  intros Hnd Hrank x y y' Hy Hy' Hne Hdown.
  apply rtc_inv_r in Hdown as [->|(p & Hp & Hlast)]; [done|].
  apply elem_of_followers_of in Hy as [Hy _].
  apply elem_of_followers_of in Hy' as [Hy' _].
  apply elem_of_followers_of in Hlast as [Hlast _].
  assert (p = x) as -> by (by eapply one_parent).
  apply (downstream_rank s) in Hp; [|done].
  rewrite Forall_forall in Hrank. specialize (Hrank _ Hy). simpl in Hrank.
  lia.
Qed.

End Graph.

Section CancelSucceeds.
Variables (registry : OperationType → Hooks) (rank : Z → nat).
Hypothesis Hkeeps : ∀ cls, keeps_graph (cancel_single (registry cls)).
Hypothesis Hsucceeds : ∀ cls, succeeds (cancel_single (registry cls)).

Lemma dag_shrinks s s' below :
  dag rank s → shrinks s s' below → dag rank s'.
Proof.
  intros [Hnd Hrank] (_ & _ & Hsub). split.
  - by eapply sublist_NoDup.
  - rewrite Forall_forall in Hrank |- *. intros e He. apply Hrank.
    by eapply elem_of_sublist.
Qed.

Lemma followers_of_shrinks s s' below x y :
  shrinks s s' below → y ∈ followers_of s' x → y ∈ followers_of s x.
Proof.
  intros (Hops & _ & Hhist). rewrite !elem_of_followers_of.
  intros [He [op Hy]]. split; [by eapply elem_of_sublist|].
  exists op. by eapply lookup_weaken.
Qed.

Lemma independent_followers_shrinks s s' below :
  independent_followers s → shrinks s s' below → independent_followers s'.
Proof.
  intros Hindep Hshrinks x y y' Hy Hy' Hne Hdown.
  apply (Hindep x y y'); [by eapply followers_of_shrinks..|done|].
  destruct Hshrinks as (Hops & _ & Hhist). by apply (downstream_mono s s').
Qed.

Lemma planned_below_shrinks s s' below y :
  shrinks s s' below → ¬ below y → planned_below s y → planned_below s' y.
Proof.
  intros (Hops & Hkeep & Hhist) Hy [Hsome Hplanned]. split.
  - by rewrite Hkeep.
  - intros z op Hz Hop. apply (Hplanned z op).
    + by apply (downstream_mono s s').
    + by eapply lookup_weaken.
Qed.

Lemma cancel_followers_succeed depth :
  (∀ s y, dag rank s → independent_followers s → planned_below s y →
          (rank y < depth)%nat →
          ∃ s', cancel registry depth y s = (Return tt, s')
                ∧ shrinks s s' (downstream s y)) →
  ∀ ys s,
    dag rank s → independent_followers s → NoDup ys →
    (∀ y, y ∈ ys → planned_below s y ∧ (rank y < depth)%nat) →
    (∀ y y', y ∈ ys → y' ∈ ys → y ≠ y' → ¬ downstream s y y') →
    ∃ s', for_each (cancel registry depth) ys s = (Return tt, s')
          ∧ shrinks s s' (λ z, ∃ y, y ∈ ys ∧ downstream s y z).
Proof.
  intros IH. induction ys as [|y ys IHys];
    intros s Hforest Hfollowers Hnd Hys Hindep.
  - exists s. split; [done|]. split; [done|]. split; [done|]. done.
  - apply NoDup_cons in Hnd as [Hy Hnd].
    destruct (Hys y) as [Hbelow Hrank]; [left|].
    destruct (IH s y Hforest Hfollowers Hbelow Hrank)
      as (s1 & Hcancel & Hshrinks).
    destruct (IHys s1) as (s' & Hloop & Hshrinks').
    + by eapply dag_shrinks.
    + by eapply independent_followers_shrinks.
    + done.
    + intros y' Hy'. destruct (Hys y') as [Hbelow' Hrank']; [by right|].
      split; [|done]. eapply planned_below_shrinks; [done| |done].
      apply Hindep; [left|by right|]. by intros ->.
    + intros y1 y2 Hy1 Hy2 Hne Hdown. apply (Hindep y1 y2); [by right..|done|].
      destruct Hshrinks as (Hops & _ & Hhist).
      by apply (downstream_mono s s1).
    + exists s'. split.
      { cbn [for_each]. by rewrite (bind_Return_l _ _ _ _ _ Hcancel). }
      destruct Hshrinks as (Hops & Hkeep & Hhist).
      destruct Hshrinks' as (Hops' & Hkeep' & Hhist').
      split; [by etrans|]. split; [|by etrans].
      intros z Hz. rewrite Hkeep', Hkeep; [done|..].
      * intros Hdown. apply Hz. exists y. split; [left|done].
      * intros (y' & Hy' & Hdown). apply Hz. exists y'. split; [by right|].
        by apply (downstream_mono s s1).
Qed.

Lemma cancel_succeeds depth s y :
  dag rank s → independent_followers s → planned_below s y →
  (rank y < depth)%nat →
  ∃ s', cancel registry depth y s = (Return tt, s')
        ∧ shrinks s s' (downstream s y).
Proof.
  revert s y. induction depth as [|depth IH];
    intros s y Hforest Hfollowers Hbelow Hrank; [lia|].
  destruct Hbelow as [[op Hop] Hplanned].
  assert (Operation.state op = planned) as Hstate
    by (by apply (Hplanned y op); [apply rtc_refl|]).
  destruct Hforest as [Hnd Hranks].
  destruct (cancel_followers_succeed depth IH (followers_of s y) s)
    as (s1 & Hloop & Hops & Hkeep & Hhist).
  { done. }
  { done. }
  { by apply followers_of_NoDup. }
  { intros y' Hy'. split; [split|].
    - by apply elem_of_followers_of in Hy' as [_ ?].
    - intros z opz Hz. apply Hplanned. by eapply rtc_l.
    - apply elem_of_followers_of in Hy' as [He _].
      rewrite Forall_forall in Hranks. specialize (Hranks _ He).
      simpl in Hranks. lia. }
  { intros y1 y2 Hy1 Hy2 Hne. by apply (Hfollowers y). }
  pose proof (Hsucceeds (Operation.type op) y s1) as Hhook.
  destruct (Hkeeps (Operation.type op) y s1) as [Hhook_ops Hhook_hist].
  destruct (cancel_single (registry (Operation.type op)) y s1)
    as [o s2] eqn:Hcs.
  cbn [fst snd] in *. subst o.
  exists (set_operations (delete y (operations s2))
            (set_history
               (filter (λ e : Z * Z, e.2 ≠ y) (wms_operation_history s2))
               s2)).
  split.
  { rewrite (cancel_planned _ _ _ _ op) by done.
    rewrite (bind_Return_l _ _ _ _ _ Hloop).
    rewrite (bind_Return_l _ _ _ _ _ Hcs).
    reflexivity. }
  unfold shrinks.
  cbn [operations wms_operation_history set_operations set_history].
  split; [|split].
  - rewrite Hhook_ops. etrans; [apply delete_subseteq|done].
  - intros z Hz. rewrite Hhook_ops.
    rewrite lookup_delete_ne by (intros ->; apply Hz, rtc_refl).
    apply Hkeep. intros (y' & Hy' & Hdown). apply Hz. by eapply rtc_l.
  - rewrite Hhook_hist. etrans; [apply sublist_filter|done].
Qed.
End CancelSucceeds.

(** A way to establish [planned_dag] for a forest, where every operation
    follows at most one operation: a list [ds] that holds [self], is closed
    under the followers, and holds planned operations only. *)
Lemma planned_forest_dag s rank self (ds : list Z) :
  NoDup (wms_operation_history s).*2 →
  Forall (λ e : Z * Z, (rank e.2 < rank e.1)%nat) (wms_operation_history s) →
  self ∈ ds →
  Forall (λ a, Forall (λ b, b ∈ ds) (followers_of s a)) ds →
  Forall (λ z, ∃ op, operations s !! z = Some op
                     ∧ Operation.state op = planned) ds →
  planned_dag s rank self.
Proof.
  intros Hnd Hrank Hself Hclosed Hplanned.
  rewrite Forall_forall in Hclosed. rewrite Forall_forall in Hplanned.
  assert (∀ a z, downstream s a z → a ∈ ds → z ∈ ds) as Hin.
  { induction 1 as [|a b z Hab _ IH]; [done|]. intros Ha. apply IH.
    specialize (Hclosed a Ha). rewrite Forall_forall in Hclosed.
    by apply Hclosed. }
  split; [|split; [|split]].
  - split; [by eapply NoDup_fmap_1|done].
  - by apply (forest_independent_followers rank).
  - destruct (Hplanned self Hself) as (op & -> & _). by eexists.
  - intros z op Hz Hop. destruct (Hplanned z (Hin self z Hz Hself))
      as (op' & Hop' & Hstate). congruence.
Qed.

(** X23. [cancel] on an operation that is not planned raises
    [OperationError] and leaves the store as it is. On a planned operation
    it cancels the followers recorded when it starts, one by one, then calls
    [cancel_single], clears the edges to the operations it follows, and
    deletes the operation. When it returns, the operation and all its former
    followers are gone from the store, and so are the edges to the
    operation. It does return on a directed acyclic graph of planned
    operations in which the followers of an operation do not depend on each
    other, given room enough on the call stack and a [cancel_single] that
    does not raise. [cancel_single] is taken to work on goods and avatars
    only. *)
Theorem cancel_planned_subgraph (registry : OperationType → Hooks) :
  (∀ cls, keeps_graph (cancel_single (registry cls))) →
  (∀ depth s self op,
      operations s !! self = Some op → Operation.state op ≠ planned →
      cancel registry (S depth) self s = (Raise OperationError, s))
  ∧ (∀ depth s self op,
      operations s !! self = Some op → Operation.state op = planned →
      cancel registry (S depth) self s
      = (for_each (cancel registry depth) (followers_of s self);;
         cancel_single (registry (Operation.type op)) self;;
         follows_clear self;;
         delete_op self) s)
  ∧ (∀ depth s self s',
      cancel registry depth self s = (Return tt, s') →
      operations s' !! self = None
      ∧ (∀ y, y ∈ followers_of s self → operations s' !! y = None)
      ∧ (∀ p, (p, self) ∉ wms_operation_history s'))
  ∧ (∀ s self rank depth,
      (∀ cls, succeeds (cancel_single (registry cls))) →
      planned_dag s rank self → (rank self < depth)%nat →
      ∃ s', cancel registry depth self s = (Return tt, s')).
Proof.
  intros Hkeeps. split; [|split; [|split]].
  - intros depth s self op. apply cancel_not_planned.
  - intros depth s self op. apply cancel_planned.
  - intros depth s self s' H.
    apply (cancel_Return registry Hkeeps) in H. tauto.
  - intros s self rank depth Hsucceeds (Hdag & Hfollowers & Hplanned) Hdepth.
    destruct (cancel_succeeds registry rank Hkeeps Hsucceeds depth s self)
      as (s' & Hcancel & _); [done..|].
    by exists s'.
Qed.

Lemma cancel_planned_subgraph_witness :
  cancel inert_registry 1 1 chain_store = (Raise OperationError, chain_store)
  ∧ ∃ s', cancel inert_registry 6 5 chain_store = (Return tt, s')
          ∧ operations s' !! 5 = None
          ∧ (∀ y, y ∈ followers_of chain_store 5 → operations s' !! y = None)
          ∧ (∀ p, (p, 5) ∉ wms_operation_history s').
Proof.
  assert (∀ cls, keeps_graph (cancel_single (inert_registry cls))) as Hkeeps
    by (intros cls self s; split; reflexivity).
  destruct (cancel_planned_subgraph inert_registry Hkeeps)
    as (Hnot & _ & Hgone & Hreturns).
  split.
  - apply (Hnot 0%nat chain_store 1 sample_arrival); [reflexivity|discriminate].
  - destruct (Hreturns chain_store 5 chain_rank 6%nat) as [s' Hs'].
    + intros cls self s. reflexivity.
    + apply (planned_forest_dag _ _ _ [5; 6; 7; 8]).
      * apply (bool_decide_unpack _). vm_compute. exact I.
      * apply (bool_decide_unpack _). vm_compute. exact I.
      * apply (bool_decide_unpack _). vm_compute. exact I.
      * apply (bool_decide_unpack _). vm_compute. exact I.
      * repeat constructor; eexists; split; reflexivity.
    + vm_compute. lia.
    + exists s'. split; [exact Hs'|]. by apply (Hgone 6%nat chain_store 5 s').
Defined.

(** * Further properties *)

(** ** Location.quantity *)

Lemma quantity_counted s self gt sts at_datetime :
  (is_Some sts → is_Some at_datetime) →
  quantity s self gt sts at_datetime
  = Return (Z.of_nat (length (filter (counted self gt sts at_datetime)
                                (join_goods s)))).
Proof.
  intros Hat. unfold quantity, base_quantity_query.
  destruct sts as [sts|].
  - destruct at_datetime as [at_datetime|];
      [|by destruct Hat as [? ?]; [eexists|]].
    cbv beta iota zeta. do 3 f_equal.
    rewrite (filter_filter_and (λ r : JoinRow, Avatar.state r.1 ∈ _) _
               (scoped self gt (present :: sts)))
      by (unfold scoped; tauto).
    destruct at_datetime as [|t].
    + apply filter_filter_and. unfold counted. simpl. tauto.
    + apply filter_filter_and. intros r. unfold counted. simpl.
      rewrite contains_datetime_in_interval. tauto.
  - cbv beta iota zeta.
    rewrite (filter_filter_and (λ r : JoinRow, Avatar.state r.1 = present) _
               (scoped self gt [present])).
    2:{ intros r. unfold scoped. rewrite list_elem_of_singleton. tauto. }
    destruct at_datetime as [[|t]|]; do 3 f_equal.
    + apply filter_filter_and. unfold counted. simpl. tauto.
    + apply filter_filter_and. intros r. unfold counted. simpl.
      rewrite contains_datetime_in_interval. tauto.
    + apply list_filter_iff. intros r. unfold counted. simpl. tauto.
Qed.

(** X1. [quantity] raises in one case only: when [additional_states] is
    given and [at_datetime] is not; the exception is then [ValueError]. In
    every other case it returns a number. *)
Theorem quantity_raises_only (s : Store) (self : Location.t)
    (goods_type : GoodsType.t) (additional_states : option (list AvatarState))
    (at_datetime : option AtDatetime) (e : Exception) :
  quantity s self goods_type additional_states at_datetime = Raise e
  ↔ e = ValueError ∧ is_Some additional_states ∧ at_datetime = None.
Proof.
  split.
  - destruct additional_states as [sts|], at_datetime as [at_datetime|].
    + rewrite quantity_counted by (intros; by eexists). discriminate.
    + intros [= <-]. split; [done|]. split; [by eexists|done].
    + rewrite quantity_counted by (intros; by eexists). discriminate.
    + rewrite quantity_counted by (by intros [? [=]]). discriminate.
  - intros (-> & [sts ->] & ->). reflexivity.
Qed.

Lemma length_filter_impl {A} (P Q : A → Prop) `{!∀ x, Decision (P x)}
    `{!∀ x, Decision (Q x)} (l : list A) :
  (∀ x, x ∈ l → P x → Q x) →
  (length (filter P l) ≤ length (filter Q l))%nat.
Proof.
  induction l as [|x l IH]; [done|]. intros Himpl.
  assert (length (filter P l) ≤ length (filter Q l))%nat as IH'
    by (apply IH; intros y Hy; apply Himpl; by right).
  rewrite !filter_cons. destruct (decide (P x)) as [HP|HP].
  - rewrite decide_True by (apply Himpl; [left|done]). simpl. lia.
  - case_decide; simpl; lia.
Qed.

(** X2. The additional states count as a set: two lists that hold the same
    states next to [present] give the same quantity, so that order,
    repetitions and [present] itself do not matter; and an empty list with a
    date and time gives what no list gives. *)
Theorem quantity_states_as_set (s : Store) (self : Location.t)
    (goods_type : GoodsType.t) (sts1 sts2 : list AvatarState)
    (at_datetime : option AtDatetime) :
  (∀ st, st ∈ present :: sts1 ↔ st ∈ present :: sts2) →
  quantity s self goods_type (Some sts1) at_datetime
  = quantity s self goods_type (Some sts2) at_datetime
  ∧ (is_Some at_datetime →
     quantity s self goods_type (Some []) at_datetime
     = quantity s self goods_type None at_datetime).
Proof.
  intros Hsame. split.
  - destruct at_datetime as [at_datetime|]; [|done].
    rewrite !quantity_counted by (intros; by eexists). do 3 f_equal.
    apply list_filter_iff. intros r. unfold counted, scoped. simpl.
    rewrite (Hsame (Avatar.state r.1)). tauto.
  - intros Hat. by rewrite !quantity_counted.
Qed.

Lemma quantity_states_as_set_witness :
  quantity history_store sample_incoming_loc sample_goods_type
    (Some [past; present; past]) (Some (At 60))
  = quantity history_store sample_incoming_loc sample_goods_type
      (Some [past]) (Some (At 60)).
Proof.
  apply (quantity_states_as_set history_store sample_incoming_loc
           sample_goods_type [past; present; past] [past] (Some (At 60))).
  intros []; split; apply (bool_decide_unpack _); vm_compute; exact I.
Defined.

(** X3. More states never give less: when every state of one list is in the
    other, the quantity for the other list is at least the quantity for the
    one, at the same date and time. *)
Theorem quantity_monotone_in_states (s : Store) (self : Location.t)
    (goods_type : GoodsType.t) (sts1 sts2 : list AvatarState)
    (at_datetime : AtDatetime) :
  sts1 ⊆ sts2 →
  ∃ n1 n2,
    quantity s self goods_type (Some sts1) (Some at_datetime) = Return n1
    ∧ quantity s self goods_type (Some sts2) (Some at_datetime) = Return n2
    ∧ n1 ≤ n2.
Proof.
  intros Hsub. eexists _, _.
  rewrite !quantity_counted by (intros; by eexists).
  split; [done|]. split; [done|]. apply inj_le, length_filter_impl.
  intros r _ [(Hty & Hloc & Hst) Hat]. split; [|done].
  split; [done|]. split; [done|].
  simpl in *. apply elem_of_cons in Hst as [->|Hst]; [left|right].
  by apply Hsub.
Qed.

Lemma quantity_monotone_in_states_witness :
  ∃ n1 n2,
    quantity history_store sample_incoming_loc sample_goods_type
      (Some [past]) (Some (At 60)) = Return n1
    ∧ quantity history_store sample_incoming_loc sample_goods_type
        (Some [future; past]) (Some (At 60)) = Return n2
    ∧ n1 ≤ n2.
Proof.
  apply (quantity_monotone_in_states history_store sample_incoming_loc
           sample_goods_type [past] [future; past] (At 60)).
  intros st Hst. apply list_elem_of_singleton in Hst as ->. right. left.
Defined.

Lemma join_goods_length s :
  NoDup (Goods.id <$> goods s) →
  (length (join_goods s) ≤ length (avatars s))%nat.
Proof.
  intros Hnd. unfold join_goods.
  induction (avatars s) as [|a avs IH]; [done|].
  rewrite bind_cons, length_app. simpl length.
  assert (length (filter (λ g, Goods.id g = Avatar.goods a) (goods s)
                  ≫= λ g, [(a, g)]) ≤ 1)%nat; [|lia].
  destruct (filter (λ g, Goods.id g = Avatar.goods a) (goods s))
    as [|g gs] eqn:Hf; [simpl; lia|].
  assert (g ∈ goods s ∧ Goods.id g = Avatar.goods a) as [Hg Hid].
  { apply (head_filter_key Goods.id). by rewrite Hf. }
  rewrite <- Hid, (filter_key_unique Goods.id) in Hf by done.
  injection Hf as <-. simpl. lia.
Qed.

(** X4. A quantity is never negative, and, primary keys of goods being
    unique, never more than the number of avatars in the store. *)
Theorem quantity_bounds (s : Store) (self : Location.t)
    (goods_type : GoodsType.t) (additional_states : option (list AvatarState))
    (at_datetime : option AtDatetime) (n : Z) :
  NoDup (Goods.id <$> goods s) →
  quantity s self goods_type additional_states at_datetime = Return n →
  0 ≤ n ≤ Z.of_nat (length (avatars s)).
Proof.
  intros Hnd Hq.
  assert (is_Some additional_states → is_Some at_datetime) as Hat.
  { intros [sts ->]. destruct at_datetime; [by eexists|discriminate Hq]. }
  rewrite quantity_counted in Hq by done. injection Hq as <-.
  pose proof (length_filter (counted self goods_type additional_states
                               at_datetime) (join_goods s)).
  pose proof (join_goods_length s Hnd). lia.
Qed.

Lemma quantity_bounds_witness :
  quantity history_store sample_incoming_loc sample_goods_type
    (Some [past; future]) (Some (At 100)) = Return 1
  ∧ 0 ≤ 1 ≤ Z.of_nat (length (avatars history_store)).
Proof.
  split; [reflexivity|].
  apply (quantity_bounds history_store sample_incoming_loc sample_goods_type
           (Some [past; future]) (Some (At 100)) 1).
  - apply (bool_decide_unpack _). vm_compute. exact I.
  - reflexivity.
Defined.

Lemma filter_iff_in {A} (P Q : A → Prop) `{!∀ x, Decision (P x)}
    `{!∀ x, Decision (Q x)} (l : list A) :
  (∀ x, x ∈ l → P x ↔ Q x) → filter P l = filter Q l.
Proof.
  induction l as [|x l IH]; [done|]. intros Hiff.
  rewrite !filter_cons, IH by (intros y Hy; apply Hiff; by right).
  destruct (decide (P x)) as [HP|HP].
  - rewrite decide_True; [done|]. apply Hiff; [left|done].
  - rewrite decide_False; [done|]. intros HQ. apply HP, Hiff; [left|done].
Qed.

(** X5. The sentinel stands for the end of time: at a date and time that
    is not before any bound of any avatar, the quantity is the one that
    [DATE_TIME_INFINITY] gives. *)
Theorem quantity_infinity_is_late (s : Store) (self : Location.t)
    (goods_type : GoodsType.t) (additional_states : option (list AvatarState))
    (t : datetime) :
  after_all_bounds t s →
  quantity s self goods_type additional_states (Some (At t))
  = quantity s self goods_type additional_states (Some DATE_TIME_INFINITY).
Proof.
  intros Hlate. unfold after_all_bounds in Hlate.
  rewrite Forall_forall in Hlate.
  rewrite !quantity_counted by (intros; by eexists). do 3 f_equal.
  apply filter_iff_in. intros [a g] Hr.
  assert (a ∈ avatars s) as Ha.
  { unfold join_goods in Hr. apply list_elem_of_bind in Hr as (a' & Hr & Ha').
    apply list_elem_of_bind in Hr as (g' & Hr & _).
    apply list_elem_of_singleton in Hr. by injection Hr as -> ->. }
  destruct (Hlate a Ha) as [Hfrom Huntil].
  unfold counted, at_filter, in_interval. cbn [fst].
  destruct (Avatar.dt_until a) as [u|]; [|tauto].
  split; [intros [_ [_ ?]]; lia|by intros [_ ?]].
Qed.

Lemma quantity_infinity_is_late_witness :
  quantity history_store sample_incoming_loc sample_goods_type
    (Some [past; future]) (Some (At 1000))
  = quantity history_store sample_incoming_loc sample_goods_type
      (Some [past; future]) (Some DATE_TIME_INFINITY).
Proof.
  apply (quantity_infinity_is_late history_store sample_incoming_loc
           sample_goods_type (Some [past; future]) 1000).
  apply (bool_decide_unpack _). vm_compute. exact I.
Defined.

Lemma join_goods_insert_avatar (a : Avatar.t) (s : Store) :
  join_goods (set_avatars (avatars s ++ [a]) s)
  = join_goods s
    ++ (filter (λ g, Goods.id g = Avatar.goods a) (goods s) ≫= λ g, [(a, g)]).
Proof.
  unfold join_goods. cbn [avatars goods set_avatars].
  rewrite bind_app, bind_cons. by rewrite app_nil_r.
Qed.

(** X6. What one more avatar does to the quantity. A new avatar of goods
    of the type, at the location and in a counted state and interval makes
    the quantity one more; an avatar that is elsewhere, or of goods of
    another type, or in another state, or whose goods row is missing, leaves
    it as it is. *)
Theorem quantity_insert_avatar (s : Store) (self : Location.t)
    (goods_type : GoodsType.t) (additional_states : option (list AvatarState))
    (at_datetime : option AtDatetime) (a : Avatar.t) (n : Z) :
  NoDup (Goods.id <$> goods s) →
  quantity s self goods_type additional_states at_datetime = Return n →
  quantity (set_avatars (avatars s ++ [a]) s) self goods_type
    additional_states at_datetime
  = Return (match find_goods s (Avatar.goods a) with
            | Some g =>
                if decide (counted self goods_type additional_states
                             at_datetime (a, g))
                then n + 1 else n
            | None => n
            end).
Proof.
  intros Hnd Hq.
  assert (is_Some additional_states → is_Some at_datetime) as Hat.
  { intros [sts ->]. destruct at_datetime; [by eexists|discriminate Hq]. }
  rewrite quantity_counted in Hq |- * by done. injection Hq as <-.
  rewrite join_goods_insert_avatar, filter_app, length_app. f_equal.
  unfold find_goods.
  destruct (filter (λ g, Goods.id g = Avatar.goods a) (goods s))
    as [|g gs] eqn:Hf; [simpl; lia|].
  assert (g ∈ goods s ∧ Goods.id g = Avatar.goods a) as [Hg Hid].
  { apply (head_filter_key Goods.id). by rewrite Hf. }
  rewrite <- Hid, (filter_key_unique Goods.id) in Hf by done.
  injection Hf as <-. cbn [head]. rewrite bind_cons.
  change (@nil Goods.t ≫= ?f) with (@nil (Avatar.t * Goods.t)).
  rewrite app_nil_r, filter_cons, filter_nil. case_decide; simpl; lia.
Qed.

Lemma quantity_insert_avatar_witness :
  quantity (set_avatars (avatars history_store
                         ++ [Avatar.mk 6 3 1 present 100 None 1]) history_store)
    sample_incoming_loc sample_goods_type None None = Return 2
  ∧ quantity (set_avatars (avatars history_store
                           ++ [Avatar.mk 6 3 2 present 100 None 1]) history_store)
      sample_incoming_loc sample_goods_type None None = Return 1.
Proof.
  split.
  - apply (quantity_insert_avatar history_store sample_incoming_loc
             sample_goods_type None None (Avatar.mk 6 3 1 present 100 None 1) 1).
    + apply (bool_decide_unpack _). vm_compute. exact I.
    + reflexivity.
  - apply (quantity_insert_avatar history_store sample_incoming_loc
             sample_goods_type None None (Avatar.mk 6 3 2 present 100 None 1) 1).
    + apply (bool_decide_unpack _). vm_compute. exact I.
    + reflexivity.
Defined.

(** ** Location.tag_cte *)

Lemma eval_recursive_cte_cycle s (keys : list Z) rounds working :
  child_closed s keys →
  (∃ r : Z * option string, r ∈ working ∧ r.1 ∈ keys) →
  eval_recursive_cte rounds s working = None.
Proof.
  intros Hclosed. unfold child_closed in Hclosed.
  rewrite Forall_forall in Hclosed.
  revert working. induction rounds as [|rounds IH];
    intros working ([i t] & Hr & Hi).
  - destruct working; [by apply elem_of_nil in Hr|done].
  - destruct working as [|w working']; [by apply elem_of_nil in Hr|].
    cbn [eval_recursive_cte]. rewrite IH; [done|].
    apply Hclosed, Exists_exists in Hi as (child & Hchild & Hparent & Hkey).
    exists (Location.id child, coalesce (Location.tag child) t).
    split; [|done]. apply elem_of_tag_cte_recursive_term.
    by exists child, i, t.
Qed.

(** X7. The traversal needs the hierarchy to be acyclic: started at a
    location that lies on a cycle of the parent relation, it never comes to
    an end, however many rounds it is given. *)
Theorem tag_cte_cycle_runs_forever (s : Store) (top : Location.t)
    (keys : list Z) (rounds : nat) :
  child_closed s keys →
  Location.id top ∈ keys →
  Exists (λ l, Location.id l = Location.id top) (locations s) →
  tag_cte rounds s (Some top) = None.
Proof.
  intros Hclosed Hkey (l & Hl & Hid)%Exists_exists.
  apply (eval_recursive_cte_cycle s keys); [done|].
  exists (Location.id l, Location.tag l). split; [|by rewrite Hid].
  apply elem_of_tag_cte_anchor. by exists l.
Qed.

Lemma tag_cte_cycle_runs_forever_witness :
  tag_cte 1000 cyclic_locations
    (Some (Location.mk 1 None None (Some 2) (Some "a"%string))) = None.
Proof.
  apply (tag_cte_cycle_runs_forever cyclic_locations _ [1; 2] 1000).
  - apply (bool_decide_unpack _). vm_compute. exact I.
  - apply (bool_decide_unpack _). vm_compute. exact I.
  - apply (bool_decide_unpack _). vm_compute. exact I.
Defined.

Lemma filter_none {A} (P : A → Prop) `{!∀ x, Decision (P x)} (l : list A) :
  (∀ x, x ∈ l → ¬ P x) → filter P l = [].
Proof.
  induction l as [|x l IH]; [done|]. intros Hl.
  rewrite filter_cons, decide_False by (apply Hl; left).
  apply IH. intros y Hy. apply Hl. by right.
Qed.

Lemma NoDup_fst_functional {A B} (l : list (A * B)) x y1 y2 :
  NoDup l.*1 → (x, y1) ∈ l → (x, y2) ∈ l → y1 = y2.
Proof.
  induction l as [|[a b] l IH]; [by intros _ ?%elem_of_nil|].
  rewrite fmap_cons, NoDup_cons. cbn [fst]. intros [Ha Hnd].
  intros [H1|H1]%elem_of_cons [H2|H2]%elem_of_cons.
  - congruence.
  - exfalso. apply Ha. injection H1 as <- _.
    by apply (list_elem_of_fmap_2 fst) in H2.
  - exfalso. apply Ha. injection H2 as <- _.
    by apply (list_elem_of_fmap_2 fst) in H1.
  - by apply IH.
Qed.

Section Levels.
Variables (s : Store) (top : option Location.t) (depth : Z → nat).
Hypothesis Hwf : hierarchy_wf s depth.

Lemma level_in_tree k i : level s top k i → in_tree s top i.
Proof.
  induction 1 as [l Hl Hroot|l p k Hl Hparent _ IH].
  - by apply in_tree_root.
  - by apply (in_tree_child _ _ _ p).
Qed.

Lemma level_inv k i :
  level s top k i →
  ∃ l, l ∈ locations s ∧ Location.id l = i
       ∧ match k with
         | O => is_root top l
         | S k' => ∃ p, Location.parent l = Some p ∧ level s top k' p
         end.
Proof.
  destruct 1 as [l Hl Hroot|l p k Hl Hparent Hp].
  - by exists l.
  - exists l. repeat split; [done|]. by exists p.
Qed.

Lemma level_unique k k' i : level s top k i → level s top k' i → k = k'.
Proof.
  revert k' i. induction k as [|k IH]; intros k' i H H';
    apply level_inv in H as (l & Hl & Hid & H);
    apply level_inv in H' as (l' & Hl' & Hid' & H');
    rewrite <- Hid' in Hid;
    apply (location_unique s depth Hwf l l') in Hid as ->; try done;
    destruct k' as [|k']; try done.
  - destruct H' as (p & Hparent & Hp). exfalso.
    apply (child_not_root s top depth Hwf l' p); [done..| |done].
    by eapply level_in_tree.
  - destruct H as (p & Hparent & Hp). exfalso.
    apply (child_not_root s top depth Hwf l' p); [done..| |done].
    by eapply level_in_tree.
  - destruct H as (p & Hparent & Hp). destruct H' as (p' & Hparent' & Hp').
    f_equal. apply (IH k' p); [done|]. congruence.
Qed.

Lemma eval_recursive_cte_levels rounds working rows k :
  eval_recursive_cte rounds s working = Some rows →
  (∀ r : Z * option string, r ∈ working → level s top k r.1) →
  ∀ r, r ∈ rows → ∃ k', (k ≤ k')%nat ∧ level s top k' r.1.
Proof.
  revert working rows k. induction rounds as [|rounds IH];
    intros working rows k Heval Hlevel r Hr.
  - destruct working; [|done]. injection Heval as <-.
    by apply elem_of_nil in Hr.
  - destruct working as [|w working'].
    { injection Heval as <-. by apply elem_of_nil in Hr. }
    cbn [eval_recursive_cte] in Heval. remember (w :: working') as working.
    destruct (eval_recursive_cte rounds s (tag_cte_recursive_term s working))
      as [rows'|] eqn:Hrec; [|done].
    injection Heval as <-. apply elem_of_app in Hr as [Hr|Hr].
    + exists k. split; [done|]. by apply Hlevel.
    + destruct (IH _ _ (S k) Hrec) with (r := r) as (k' & Hk' & Hl); [|done|].
      * intros r' (child & p & t & Hchild & Hparent & Hp & ->)%elem_of_tag_cte_recursive_term.
        cbn [fst]. apply (level_child _ _ _ p); [done..|].
        by apply (Hlevel (p, t)).
      * exists k'. split; [lia|done].
Qed.

Lemma matching_parents_length (working : list (Z * option string))
    (child : Location.t) :
  NoDup working.*1 →
  (length (filter (λ p : Z * option string,
                     Location.parent child = Some p.1) working) ≤ 1)%nat.
Proof.
  induction working as [|[i t] working IH]; [simpl; lia|].
  rewrite fmap_cons, NoDup_cons. cbn [fst]. intros [Hi Hnd].
  rewrite filter_cons. cbn [fst]. case_decide as Hp; [|by apply IH].
  rewrite filter_none; [simpl; lia|].
  intros [j u] Hj. cbn [fst]. intros Hp'.
  apply Hi. apply (list_elem_of_fmap_2 fst) in Hj. cbn [fst] in Hj.
  congruence.
Qed.

Lemma tag_cte_recursive_term_NoDup (working : list (Z * option string)) :
  NoDup working.*1 → NoDup (tag_cte_recursive_term s working).*1.
Proof.
  intros Hnd. unfold tag_cte_recursive_term.
  destruct Hwf as [Hids _]. revert Hids.
  induction (locations s) as [|child locs IH]; [constructor|].
  rewrite fmap_cons, NoDup_cons. intros [Hchild Hids].
  rewrite bind_cons, fmap_app. apply NoDup_app. split; [|split].
  - pose proof (matching_parents_length working child Hnd) as Hlen.
    destruct (filter _ working) as [|p [|p' ps]]; simpl in Hlen |- *;
      [constructor|apply NoDup_singleton|lia].
  - intros i Hi Hi'. apply Hchild.
    apply list_elem_of_fmap in Hi as ([i1 t1] & -> & Hi).
    apply list_elem_of_bind in Hi as (p & Hi & _).
    apply list_elem_of_singleton in Hi. injection Hi as -> _.
    apply list_elem_of_fmap in Hi' as ([i2 t2] & Heq & Hi').
    apply list_elem_of_bind in Hi' as (child' & Hi' & Hchild').
    apply list_elem_of_bind in Hi' as (p' & Hi' & _).
    apply list_elem_of_singleton in Hi'. injection Hi' as -> _.
    cbn [fst] in Heq. rewrite Heq. by apply list_elem_of_fmap_2.
  - by apply IH.
Qed.

Lemma eval_recursive_cte_NoDup rounds working rows k :
  eval_recursive_cte rounds s working = Some rows →
  NoDup working.*1 →
  (∀ r : Z * option string, r ∈ working → level s top k r.1) →
  NoDup rows.*1.
Proof.
  revert working rows k. induction rounds as [|rounds IH];
    intros working rows k Heval Hnd Hlevel.
  - destruct working; [|done]. injection Heval as <-. constructor.
  - destruct working as [|w working'].
    { injection Heval as <-. constructor. }
    cbn [eval_recursive_cte] in Heval. remember (w :: working') as working.
    destruct (eval_recursive_cte rounds s (tag_cte_recursive_term s working))
      as [rows'|] eqn:Hrec; [|done].
    injection Heval as <-.
    assert (∀ r : Z * option string,
              r ∈ tag_cte_recursive_term s working → level s top (S k) r.1)
      as Hlevel'.
    { intros r' (child & p & t & Hchild & Hparent & Hp & ->)%elem_of_tag_cte_recursive_term.
      cbn [fst]. apply (level_child _ _ _ p); [done..|].
      by apply (Hlevel (p, t)). }
    rewrite fmap_app. apply NoDup_app. split; [done|]. split.
    + intros i Hi Hi'.
      apply list_elem_of_fmap in Hi as (r & -> & Hr).
      apply list_elem_of_fmap in Hi' as (r' & Heq & Hr').
      destruct (eval_recursive_cte_levels _ _ _ (S k) Hrec Hlevel' r' Hr')
        as (k' & Hk' & Hl').
      rewrite <- Heq in Hl'.
      pose proof (level_unique _ _ _ (Hlevel r Hr) Hl'). lia.
    + apply (IH _ _ (S k) Hrec); [|done].
      by apply tag_cte_recursive_term_NoDup.
Qed.
End Levels.

(** X8. One row for each location: on a hierarchy built top-down, no
    primary key comes twice in the rows of [tag_cte], so that they make up
    a mapping from locations to tags. *)
Theorem tag_cte_one_row_per_location (s : Store) (top : option Location.t)
    (depth : Z → nat) (rounds : nat) (rows : list (Z * option string)) :
  hierarchy_wf s depth →
  tag_cte rounds s top = Some rows →
  NoDup rows.*1
  ∧ ∀ i t t', (i, t) ∈ rows → (i, t') ∈ rows → t = t'.
Proof.
  intros Hwf Heval.
  assert (NoDup rows.*1) as Hnd.
  { apply (eval_recursive_cte_NoDup s top depth Hwf rounds
             (tag_cte_anchor s top) rows 0%nat Heval).
    - unfold tag_cte_anchor. rewrite <- list_fmap_compose.
      destruct Hwf as [Hids _].
      eapply sublist_NoDup; [exact Hids|].
      destruct top; apply sublist_fmap, sublist_filter.
    - intros r (l & Hl & Hroot & ->)%elem_of_tag_cte_anchor.
      by apply level_root. }
  split; [done|]. intros i t t' Ht Ht'.
  by eapply NoDup_fst_functional.
Qed.

Lemma tag_cte_one_row_per_location_witness :
  ∃ rows, tag_cte 10 warehouse None = Some rows ∧ NoDup rows.*1.
Proof.
  eexists. split; [reflexivity|].
  apply (tag_cte_one_row_per_location warehouse None warehouse_depth 10).
  - apply (bool_decide_unpack _). vm_compute. exact I.
  - reflexivity.
Defined.

Lemma coalesce_assoc {A} (x y z : option A) :
  coalesce (coalesce x y) z = coalesce x (coalesce y z).
Proof. by destruct x. Qed.

(** X9. Traversals compose: the tag that the full traversal resolves for a
    location below [top] is the tag that the traversal started at [top]
    gives it, or else, when that one is null, the tag that the full
    traversal resolves for [top] itself. *)
Theorem tag_cte_below_top (s : Store) (top : Location.t) (depth : Z → nat)
    (rounds rounds' : nat) (full sub : list (Z * option string))
    (top_tag : option string) :
  hierarchy_wf s depth →
  tag_cte rounds s None = Some full →
  tag_cte rounds' s (Some top) = Some sub →
  (Location.id top, top_tag) ∈ full →
  ∀ i t, (i, t) ∈ sub → (i, coalesce t top_tag) ∈ full.
Proof.
  intros Hwf Hfull Hsub Htop i t Hrow.
  apply (tag_cte_rows _ _ _ _ Hsub) in Hrow.
  apply (tag_cte_rows _ _ _ _ Hfull).
  apply (tag_cte_rows _ _ _ _ Hfull) in Htop.
  remember (i, t) as r eqn:Hr. revert i t Hr.
  induction Hrow as [l Hl Hroot|child p t' Hchild Hparent Hp IH];
    intros i t [= <- <-].
  - simpl in Hroot. rewrite <- Hroot in Htop.
    pose proof (cte_row_inv s None depth Hwf l top_tag Hl Htop) as Hinv.
    destruct (Location.tag l) as [x|]; [by rewrite Hinv in Htop |- *|done].
  - rewrite coalesce_assoc. apply (cte_row_child _ _ _ p); [done..|].
    by apply IH.
Qed.

Lemma tag_cte_below_top_witness :
  (6, coalesce (Some "qa"%string) (Some "qa"%string))
  ∈ [(1, None); (2, Some "sellable"); (3, Some "qa"); (5, Some "sellable");
     (4, Some "sellable"); (6, Some "qa")]%string.
Proof.
  apply (tag_cte_below_top warehouse
           (Location.mk 3 None None None None) warehouse_depth 10 10 _
           [(3, Some "qa"); (4, Some "sellable"); (6, Some "qa")]%string
           (Some "qa"%string)).
  - apply (bool_decide_unpack _). vm_compute. exact I.
  - vm_compute. reflexivity.
  - vm_compute. reflexivity.
  - apply (bool_decide_unpack _). vm_compute. exact I.
  - apply (bool_decide_unpack _). vm_compute. exact I.
Defined.

(** X10. A [top] that is not a location of the store is no error: the
    traversal is empty, at once; and these are the only [top] for which it
    is empty. *)
Theorem tag_cte_unknown_top (s : Store) (top : Location.t) (rounds : nat) :
  tag_cte rounds s (Some top) = Some []
  ↔ Location.id top ∉ Location.id <$> locations s.
Proof.
  unfold tag_cte. split.
  - intros Heval (l & Hid & Hl)%list_elem_of_fmap.
    assert ((Location.id l, Location.tag l) ∈ tag_cte_anchor s (Some top))
      as Hanchor.
    { apply elem_of_tag_cte_anchor. by exists l. }
    apply eval_recursive_cte_rows in Heval as (Hin & _).
    by apply Hin, elem_of_nil in Hanchor.
  - intros Hnot. unfold tag_cte_anchor.
    rewrite filter_none; [by destruct rounds|].
    intros l Hl Hid. apply Hnot. rewrite <- Hid.
    by apply list_elem_of_fmap_2.
Qed.

(** ** Operation.execute, and what can follow it *)

Lemma succeeds_Return (hook : Z → M unit) self s :
  succeeds hook → hook self s = (Return tt, (hook self s).2).
Proof.
  intros H. specialize (H self s). destruct (hook self s) as [o s'].
  simpl in *. by subst o.
Qed.

(** X11. [execute] on an operation that is not done yet, planned or
    started, whose hooks return: it returns, and it has made the operation
    done, with the execution time as [dt_execution]; [dt_start] has become
    the execution time if it was null and is as it was otherwise; the other
    columns are as they were. The hooks are taken not to write to the row of
    the operation themselves. *)
Theorem execute_marks_done (registry : OperationType → Hooks) (s : Store)
    (self : Z) (op : Operation.t) (dt : option datetime) :
  operations s !! self = Some op →
  Operation.state op ≠ done →
  succeeds (check_execute_conditions (registry (Operation.type op))) →
  succeeds (execute_planned (registry (Operation.type op))) →
  keeps_operation (check_execute_conditions (registry (Operation.type op))) self →
  keeps_operation (execute_planned (registry (Operation.type op))) self →
  ∃ s',
    execute registry self dt s = (Return tt, s')
    ∧ operations s' !! self
      = Some (Operation.mk (Operation.id op) (Operation.type op) done
                (Operation.comment op) (execution_time dt s)
                (Some (default (execution_time dt s) (Operation.dt_start op)))
                (Operation.fields op)).
Proof.
  intros Hop Hstate Hcheck Hexec Hkcheck Hkexec.
  rewrite (execute_not_done _ _ _ _ _ Hop Hstate).
  set (op2 := stamped (execution_time dt s) op).
  set (s2 := set_operations _ _).
  assert (operations s2 !! self = Some op2) as Hop2
    by (subst s2; apply lookup_insert_eq).
  rewrite bind_unfold, (succeeds_Return _ self s2 Hcheck).
  set (s3 := (check_execute_conditions _ self s2).2).
  assert (operations s3 !! self = Some op2) as Hop3
    by (subst s3; by rewrite Hkcheck).
  rewrite bind_unfold, (succeeds_Return _ self s3 Hexec).
  set (s4 := (execute_planned _ self s3).2).
  assert (operations s4 !! self = Some op2) as Hop4
    by (subst s4; by rewrite Hkexec).
  rewrite (set_op_Some _ _ _ _ Hop4).
  eexists. split; [reflexivity|].
  cbn [operations set_operations]. by rewrite lookup_insert_eq.
Qed.

Lemma execute_marks_done_witness :
  ∃ s',
    execute inert_registry 5 None sample_planned_store = (Return tt, s')
    ∧ operations s' !! 5
      = Some (Operation.mk 5 Move done None 200 (Some 200) ∅).
Proof.
  apply (execute_marks_done inert_registry sample_planned_store 5
           sample_planned None).
  - reflexivity.
  - discriminate.
  - intros self s. reflexivity.
  - intros self s. reflexivity.
  - intros s. reflexivity.
  - intros s. reflexivity.
Defined.

Lemma obliviate_not_done registry depth s self op :
  operations s !! self = Some op → Operation.state op ≠ done →
  obliviate registry (S depth) self s = (Raise OperationError, s).
Proof.
  intros Hop Hstate. cbn [obliviate].
  rewrite (bind_Return_l _ _ _ _ _ (get_op_Some _ _ _ Hop)).
  by rewrite decide_True.
Qed.

Lemma obliviate_done registry depth s self op :
  operations s !! self = Some op → Operation.state op = done →
  obliviate registry (S depth) self s
  = (for_each (obliviate registry depth) (followers_of s self);;
     obliviate_single (registry (Operation.type op)) self;;
     follows_clear self;;
     delete_op self) s.
Proof.
  intros Hop Hstate. cbn [obliviate].
  rewrite (bind_Return_l _ _ _ _ _ (get_op_Some _ _ _ Hop)).
  rewrite decide_False by (by intros []).
  reflexivity.
Qed.

Lemma plan_revert_not_done registry depth s self op dt :
  operations s !! self = Some op → Operation.state op ≠ done →
  plan_revert registry (S depth) self dt s
  = (Raise OperationError, after_default_now dt s).
Proof.
  intros Hop Hstate. cbn [plan_revert]. rewrite bind_unfold.
  assert (match dt with
          | None => datetime_now
          | Some dt => mret dt
          end s = (Return (execution_time dt s), after_default_now dt s))
    as -> by (by destruct dt).
  assert (operations (after_default_now dt s) !! self = Some op) as Hop'
    by (by destruct dt).
  rewrite bind_unfold, (get_op_Some _ _ _ Hop').
  by rewrite decide_True.
Qed.

(** X12. Once [execute] has returned, the operation can no longer be
    cancelled: [cancel] raises [OperationError] and leaves the store as
    [execute] left it. *)
Theorem execute_then_cancel (registry : OperationType → Hooks) (s s' : Store)
    (self : Z) (dt : option datetime) (depth : nat) :
  execute registry self dt s = (Return tt, s') →
  cancel registry (S depth) self s' = (Raise OperationError, s').
Proof.
  intros (op & Hop & Hdone)%execute_Return_done.
  apply (cancel_not_planned _ _ _ _ op); [done|]. by rewrite Hdone.
Qed.

Lemma execute_then_cancel_witness :
  ∃ s', execute inert_registry 5 None sample_planned_store = (Return tt, s')
        ∧ cancel inert_registry 3 5 s' = (Raise OperationError, s').
Proof.
  eexists. split; [reflexivity|].
  apply (execute_then_cancel inert_registry sample_planned_store _ 5 None 2).
  reflexivity.
Defined.

(** X13. [obliviate] and [plan_revert] are for done operations only: on a
    planned or started operation both raise [OperationError]. [obliviate]
    leaves the store as it is; [plan_revert] has read the clock by then if
    [dt_execution] was omitted, and changed nothing else. Hence a started
    operation can neither be cancelled, nor obliviated, nor reverted. *)
Theorem undo_needs_done (registry : OperationType → Hooks) (s : Store)
    (self : Z) (op : Operation.t) (depth : nat) (dt : option datetime) :
  operations s !! self = Some op →
  Operation.state op ≠ done →
  obliviate registry (S depth) self s = (Raise OperationError, s)
  ∧ plan_revert registry (S depth) self dt s
    = (Raise OperationError, after_default_now dt s)
  ∧ (Operation.state op = started →
     cancel registry (S depth) self s = (Raise OperationError, s)).
Proof.
  intros Hop Hstate. split; [by eapply obliviate_not_done|].
  split; [by eapply plan_revert_not_done|].
  intros Hstarted. apply (cancel_not_planned _ _ _ _ op); [done|].
  by rewrite Hstarted.
Qed.

Lemma undo_needs_done_witness :
  obliviate inert_registry 3 5 sample_planned_store
  = (Raise OperationError, sample_planned_store)
  ∧ plan_revert inert_registry 3 5 None sample_planned_store
    = (Raise OperationError, set_ticks 1 sample_planned_store).
Proof.
  destruct (undo_needs_done inert_registry sample_planned_store 5
              sample_planned 2 None) as (H1 & H2 & _).
  - reflexivity.
  - discriminate.
  - split; [exact H1|exact H2].
Defined.

(** ** Operation.create, and undoing it *)

Lemma leaves_operations_Return {A} (m : M A) s a s' :
  leaves_operations m → m s = (Return a, s') →
  operations s' = operations s
  ∧ wms_operation_history s' = wms_operation_history s
  ∧ next_id s' = next_id s.
Proof. intros H Hm. specialize (H s). by rewrite Hm in H. Qed.

Lemma leaves_operations_Raise {A} (m : M A) s e s' :
  leaves_operations m → m s = (Raise e, s') →
  operations s' = operations s
  ∧ wms_operation_history s' = wms_operation_history s
  ∧ next_id s' = next_id s.
Proof. intros H Hm. specialize (H s). by rewrite Hm in H. Qed.

Lemma default_now_leaves (st : OperationState) (dt : option datetime) s o s' :
  match dt with
  | None => if decide (st = done) then datetime_now else raise OperationError
  | Some dt => mret dt
  end s = (o, s') →
  operations s' = operations s
  ∧ wms_operation_history s' = wms_operation_history s
  ∧ next_id s' = next_id s
  ∧ ∀ dte, o = Return dte → dte = execution_time dt s.
Proof.
  destruct dt as [d|]; [|destruct (decide (st = done))];
    intros [= <- <-]; repeat split; try done; by intros dte [= <-].
Qed.

Section Create.
Variables (registry : OperationType → Hooks) (cls : OperationType)
  (st : OperationState) (fields : gmap string Value).
Hypothesis Hcheck : ∀ dte,
  leaves_operations (check_create_conditions (registry cls) cls st dte fields).
Hypothesis Hfind :
  leaves_operations (find_parent_operations (registry cls) cls fields).
Hypothesis Hafter : ∀ pk, leaves_operations (after_insert (registry cls) pk).

Lemma create_Return follows dt ds s pk s' :
  create registry cls st follows dt ds fields s = (Return pk, s') →
  pk = next_id s
  ∧ next_id s' = pk + 1
  ∧ operations s'
    = <[pk := created pk cls st (execution_time dt s) fields]> (operations s)
  ∧ ∃ parents s0 s0',
      find_parent_operations (registry cls) cls fields s0
      = (Return parents, s0')
      ∧ operations s0 = operations s
      ∧ wms_operation_history s'
        = wms_operation_history s ++ ((λ p, (p, pk)) <$> parents).
Proof.
  intros H.
  destruct follows as [fl|]; [by rewrite create_with_follows in H|].
  rewrite create_without_follows in H.
  apply bind_Return_inv in H as (dte & s0 & Hdt & H).
  apply default_now_leaves in Hdt as (Ho0 & Hh0 & Hn0 & Hdte).
  rewrite (Hdte dte eq_refl) in H. clear Hdte dte.
  apply bind_Return_inv in H as ([] & s1 & Hc & H).
  apply (leaves_operations_Return _ _ _ _ (Hcheck _)) in Hc
    as (Ho1 & Hh1 & Hn1).
  apply bind_Return_inv in H as (parents & s2 & Hparents & H).
  pose proof (leaves_operations_Return _ _ _ _ Hfind Hparents)
    as (Ho2 & Hh2 & Hn2).
  apply bind_Return_inv in H as (op & s3 & Hins & H).
  unfold insert_op in Hins. injection Hins as <- <-.
  apply bind_Return_inv in H as ([] & s4 & Hext & H).
  unfold follows_extend in Hext. injection Hext as <-.
  apply bind_Return_inv in H as ([] & s5 & Ha & H).
  apply (leaves_operations_Return _ _ _ _ (Hafter _)) in Ha
    as (Ho5 & Hh5 & Hn5).
  rewrite ret_unfold in H. injection H as <- <-.
  cbn [operations wms_operation_history next_id set_history set_next_id
         set_operations] in Ho5, Hh5, Hn5.
  rewrite Ho5, Hh5, Hn5, Hn2, Hn1, Hn0, Ho2, Ho1, Ho0, Hh2, Hh1, Hh0.
  repeat split; try done.
  exists parents, s1, s2. repeat split; [done|congruence].
Qed.

Lemma create_Raise dt ds s e s' :
  create registry cls st None dt ds fields s = (Raise e, s') →
  (operations s' = operations s
   ∧ wms_operation_history s' = wms_operation_history s
   ∧ next_id s' = next_id s)
  ∨ (∃ s3, after_insert (registry cls) (next_id s) s3 = (Raise e, s')
           ∧ operations s'
             = <[next_id s := created (next_id s) cls st (execution_time dt s)
                                fields]> (operations s)
           ∧ next_id s' = next_id s + 1).
Proof.
  rewrite create_without_follows. intros H. rewrite bind_unfold in H.
  match type of H with
  | match ?m s with _ => _ end = _ =>
      destruct (m s) as [[dte|e0] s0] eqn:Hdt
  end.
  2:{ injection H as <- <-. left.
      apply default_now_leaves in Hdt. tauto. }
  apply default_now_leaves in Hdt as (Ho0 & Hh0 & Hn0 & Hdte).
  rewrite (Hdte dte eq_refl) in H. clear Hdte dte.
  rewrite bind_unfold in H.
  destruct (check_create_conditions _ _ _ _ _ s0) as [[[]|e1] s1] eqn:Hc.
  2:{ injection H as <- <-. left.
      apply (leaves_operations_Raise _ _ _ _ (Hcheck _)) in Hc
        as (Ho1 & Hh1 & Hn1). split; [|split]; congruence. }
  apply (leaves_operations_Return _ _ _ _ (Hcheck _)) in Hc
    as (Ho1 & Hh1 & Hn1).
  rewrite bind_unfold in H.
  destruct (find_parent_operations _ _ _ s1) as [[parents|e2] s2] eqn:Hp.
  2:{ injection H as <- <-. left.
      apply (leaves_operations_Raise _ _ _ _ Hfind) in Hp
        as (Ho2 & Hh2 & Hn2). split; [|split]; congruence. }
  apply (leaves_operations_Return _ _ _ _ Hfind) in Hp as (Ho2 & Hh2 & Hn2).
  rewrite bind_unfold in H. unfold insert_op at 1 in H.
  rewrite bind_unfold in H. unfold follows_extend at 1 in H.
  rewrite bind_unfold in H.
  match type of H with
  | context [after_insert _ ?pk ?s3] =>
      destruct (after_insert (registry cls) pk s3) as [[[]|e3] s4] eqn:Ha
  end; [done|].
  injection H as <- <-. right.
  pose proof (leaves_operations_Raise _ _ _ _ (Hafter _) Ha)
    as (Ho4 & Hh4 & Hn4).
  cbn [operations wms_operation_history next_id set_history set_next_id
         set_operations] in Ho4, Hh4, Hn4.
  assert (next_id s2 = next_id s) as Hn by congruence.
  rewrite Hn in *.
  eexists. split; [exact Ha|]. split; [|congruence].
  rewrite Ho4, Ho2, Ho1, Ho0. reflexivity.
Qed.
End Create.

(** X14. What [create] has done when it returns: one row has been inserted
    under the primary key that was next, with the class, the state and the
    keyword arguments given and with [dt_execution] as given, or as read
    from the clock; its [dt_start] is null whatever [dt_start] was passed;
    the edges from the operations that [find_parent_operations] found have
    been added, and nothing else has changed among operations and edges. The
    hooks are taken to work on goods and avatars only. *)
Theorem create_inserts_one_row (registry : OperationType → Hooks)
    (cls : OperationType) (st : OperationState) (follows : option (list Z))
    (dt ds : option datetime) (fields : gmap string Value) (s s' : Store)
    (pk : Z) :
  (∀ dte, leaves_operations
            (check_create_conditions (registry cls) cls st dte fields)) →
  leaves_operations (find_parent_operations (registry cls) cls fields) →
  (∀ pk, leaves_operations (after_insert (registry cls) pk)) →
  create registry cls st follows dt ds fields s = (Return pk, s') →
  pk = next_id s
  ∧ next_id s' = pk + 1
  ∧ operations s'
    = <[pk := Operation.mk pk cls st
                match fields !! "comment"%string with
                | Some (VStr c) => Some c
                | _ => None
                end
                (execution_time dt s) None fields]> (operations s)
  ∧ ∃ parents,
      wms_operation_history s'
      = wms_operation_history s ++ ((λ p, (p, pk)) <$> parents).
Proof.
  intros Hcheck Hfind Hafter H.
  apply (create_Return registry cls st fields Hcheck Hfind Hafter) in H
    as (Hpk & Hnext & Hops & parents & _ & _ & _ & _ & Hhist).
  repeat split; [done..|]. by exists parents.
Qed.

Lemma create_inserts_one_row_witness :
  ∃ s',
    create inert_registry Move planned None (Some 300) (Some 250) ∅
      sample_store = (Return 2, s')
    ∧ operations s'
      = <[2 := Operation.mk 2 Move planned None 300 None ∅]>
          (operations sample_store).
Proof.
  eexists. split; [reflexivity|].
  refine (proj1 (proj2 (proj2
            (create_inserts_one_row inert_registry Move planned None
               (Some 300) (Some 250) ∅ sample_store _ 2 _ _ _ _)))).
  - intros dte s. done.
  - intros s. done.
  - intros pk s. done.
  - reflexivity.
Defined.

(** X15. [create] is not atomic. When it raises, either operations and
    edges are as they were, or it is [after_insert] that raised, and the new
    row has been inserted by then and is left behind. The hooks are taken
    to work on goods and avatars only. *)
Theorem create_raise_leaves (registry : OperationType → Hooks)
    (cls : OperationType) (st : OperationState)
    (dt ds : option datetime) (fields : gmap string Value) (s s' : Store)
    (e : Exception) :
  (∀ dte, leaves_operations
            (check_create_conditions (registry cls) cls st dte fields)) →
  leaves_operations (find_parent_operations (registry cls) cls fields) →
  (∀ pk, leaves_operations (after_insert (registry cls) pk)) →
  create registry cls st None dt ds fields s = (Raise e, s') →
  (operations s' = operations s
   ∧ wms_operation_history s' = wms_operation_history s
   ∧ next_id s' = next_id s)
  ∨ (∃ s3, after_insert (registry cls) (next_id s) s3 = (Raise e, s')
           ∧ operations s'
             = <[next_id s := created (next_id s) cls st (execution_time dt s)
                                fields]> (operations s)
           ∧ next_id s' = next_id s + 1).
Proof.
  intros Hcheck Hfind Hafter. by apply create_Raise.
Qed.

Lemma create_raise_leaves_witness :
  let s' :=
    (create unfinished_registry Move planned None (Some 300) None ∅
       sample_store).2 in
  (operations s' = operations sample_store
   ∧ wms_operation_history s' = wms_operation_history sample_store
   ∧ next_id s' = next_id sample_store)
  ∨ (∃ s3, after_insert (unfinished_registry Move) 2 s3
           = (Raise NotImplementedError, s')
           ∧ operations s'
             = <[2 := created 2 Move planned 300 ∅]> (operations sample_store)
           ∧ next_id s' = 3).
Proof.
  apply (create_raise_leaves unfinished_registry Move planned (Some 300)
           None ∅ sample_store _ NotImplementedError).
  - intros dte s. done.
  - intros s. done.
  - intros pk s. done.
  - reflexivity.
Defined.

(** With an operation type whose [after_insert] is the one of the base
    class, the row is there once [create] has raised. *)
Example create_unfinished :
  ∃ s',
    create unfinished_registry Move planned None (Some 300) None ∅
      sample_store = (Raise NotImplementedError, s')
    ∧ operations s' !! 2 = Some (Operation.mk 2 Move planned None 300 None ∅).
Proof. eexists. split; reflexivity. Qed.

Lemma filter_all {A} (P : A → Prop) `{!∀ x, Decision (P x)} (l : list A) :
  (∀ x, x ∈ l → P x) → filter P l = l.
Proof.
  induction l as [|x l IH]; [done|]. intros Hl.
  rewrite filter_cons, decide_True by (apply Hl; left).
  f_equal. apply IH. intros y Hy. apply Hl. by right.
Qed.

Section Created.
Variables (s s1 : Store) (pk : Z) (row : Operation.t) (parents : list Z).
Hypothesis Hfresh : fresh_next_id s.
Hypothesis Hpk : pk = next_id s.
Hypothesis Hparents : Forall (λ p, is_Some (operations s !! p)) parents.
Hypothesis Hops : operations s1 = <[pk := row]> (operations s).
Hypothesis Hhist :
  wms_operation_history s1
  = wms_operation_history s ++ ((λ p, (p, pk)) <$> parents).

Lemma created_not_parent : pk ∉ parents.
Proof.
  intros Hin. rewrite Forall_forall in Hparents.
  destruct (Hparents _ Hin) as [op Hop].
  destruct Hfresh as [Hnone _]. rewrite <- Hpk in Hnone. congruence.
Qed.

Lemma created_followers : followers_of s1 pk = [].
Proof.
  unfold followers_of.
  assert (filter (λ e : Z * Z, e.1 = pk) (wms_operation_history s1) = [])
    as ->; [|done].
  apply filter_none. intros e He Heq. rewrite Hhist in He.
  destruct Hfresh as [_ Hedges]. rewrite Forall_forall in Hedges.
  apply elem_of_app in He as [He|(p & -> & Hp)%list_elem_of_fmap].
  - apply Hedges in He as [He _]. by rewrite Hpk in Heq.
  - simpl in Heq. rewrite Heq in Hp. by apply created_not_parent.
Qed.

Lemma created_follows_clear :
  filter (λ e : Z * Z, e.2 ≠ pk) (wms_operation_history s1)
  = wms_operation_history s.
Proof.
  rewrite Hhist, filter_app.
  destruct Hfresh as [_ Hedges]. rewrite Forall_forall in Hedges.
  rewrite (filter_all _ (wms_operation_history s)).
  2:{ intros e He. cbv beta. rewrite Hpk. by apply Hedges. }
  rewrite filter_none; [by rewrite app_nil_r|].
  intros e (p & -> & Hp)%list_elem_of_fmap. cbn [snd]. by intros H.
Qed.

Lemma created_delete : delete pk (operations s1) = operations s.
Proof.
  rewrite Hops. apply delete_insert_id.
  destruct Hfresh as [Hnone _]. by rewrite Hpk.
Qed.

Lemma created_undo (hook : Z → M unit) :
  keeps_graph hook → succeeds hook →
  ∃ s2, (hook pk;; follows_clear pk;; delete_op pk) s1 = (Return tt, s2)
        ∧ operations s2 = operations s
        ∧ wms_operation_history s2 = wms_operation_history s.
Proof.
  intros Hkeeps Hsucceeds.
  rewrite bind_unfold, (succeeds_Return _ pk s1 Hsucceeds).
  destruct (Hkeeps pk s1) as [Hhops Hhhist].
  eexists. split; [reflexivity|].
  cbn [operations wms_operation_history set_operations set_history].
  rewrite Hhops, Hhhist. split.
  - apply created_delete.
  - apply created_follows_clear.
Qed.
End Created.

(** X16. Creating a planned operation and cancelling it right away is a
    round trip: operations and edges are as they were before (the primary
    key is not given again). The next primary key is taken to be fresh, the
    hooks to work on goods and avatars only, [find_parent_operations] to
    return operations of the store and [cancel_single] to return. *)
Theorem create_then_cancel (registry : OperationType → Hooks)
    (cls : OperationType) (dt ds : option datetime)
    (fields : gmap string Value) (s s1 : Store) (pk : Z) (depth : nat) :
  (∀ dte, leaves_operations
            (check_create_conditions (registry cls) cls planned dte fields)) →
  leaves_operations (find_parent_operations (registry cls) cls fields) →
  finds_operations (find_parent_operations (registry cls) cls fields) →
  (∀ pk, leaves_operations (after_insert (registry cls) pk)) →
  keeps_graph (cancel_single (registry cls)) →
  succeeds (cancel_single (registry cls)) →
  fresh_next_id s →
  create registry cls planned None dt ds fields s = (Return pk, s1) →
  ∃ s2, cancel registry (S depth) pk s1 = (Return tt, s2)
        ∧ operations s2 = operations s
        ∧ wms_operation_history s2 = wms_operation_history s.
Proof.
  intros Hcheck Hfind Hfinds Hafter Hkeeps Hsucceeds Hfresh H.
  apply (create_Return registry cls planned fields Hcheck Hfind Hafter) in H
    as (Hpk & Hnext & Hops & parents & s0 & s0' & Hp & Hs0 & Hhist).
  apply Hfinds in Hp. rewrite Hs0 in Hp.
  set (row := created pk cls planned (execution_time dt s) fields) in Hops.
  assert (operations s1 !! pk = Some row) as Hrow
    by (rewrite Hops; apply lookup_insert_eq).
  rewrite (cancel_planned _ _ _ _ row Hrow eq_refl).
  rewrite (created_followers s s1 pk parents) by done.
  cbn [for_each]. rewrite bind_ret_l.
  change (Operation.type row) with cls.
  destruct (created_undo s s1 pk row parents Hfresh Hpk Hops Hhist
              (cancel_single (registry cls)) Hkeeps Hsucceeds)
    as (s2 & Hundo & Hops2 & Hhist2).
  by exists s2.
Qed.

Lemma create_then_cancel_witness :
  ∃ s2,
    cancel inert_registry 1 2
      (create inert_registry Move planned None (Some 300) None ∅
         sample_store).2 = (Return tt, s2)
    ∧ operations s2 = operations sample_store
    ∧ wms_operation_history s2 = wms_operation_history sample_store.
Proof.
  apply (create_then_cancel inert_registry Move (Some 300) None ∅
           sample_store _ 2 0).
  - intros dte s. done.
  - intros s. done.
  - intros s parents s' [= <- _]. constructor.
  - intros pk s. done.
  - intros self s. done.
  - intros self s. done.
  - apply (bool_decide_unpack _). vm_compute. exact I.
  - reflexivity.
Defined.

(** X17. Likewise for an operation created as done, with [dt_execution]
    given or not: obliviating it right away leaves operations and edges as
    they were before its creation. The assumptions are those of the round
    trip through [cancel], on [obliviate_single] this time. *)
Theorem create_then_obliviate (registry : OperationType → Hooks)
    (cls : OperationType) (dt ds : option datetime)
    (fields : gmap string Value) (s s1 : Store) (pk : Z) (depth : nat) :
  (∀ dte, leaves_operations
            (check_create_conditions (registry cls) cls done dte fields)) →
  leaves_operations (find_parent_operations (registry cls) cls fields) →
  finds_operations (find_parent_operations (registry cls) cls fields) →
  (∀ pk, leaves_operations (after_insert (registry cls) pk)) →
  keeps_graph (obliviate_single (registry cls)) →
  succeeds (obliviate_single (registry cls)) →
  fresh_next_id s →
  create registry cls done None dt ds fields s = (Return pk, s1) →
  ∃ s2, obliviate registry (S depth) pk s1 = (Return tt, s2)
        ∧ operations s2 = operations s
        ∧ wms_operation_history s2 = wms_operation_history s.
Proof.
  intros Hcheck Hfind Hfinds Hafter Hkeeps Hsucceeds Hfresh H.
  apply (create_Return registry cls done fields Hcheck Hfind Hafter) in H
    as (Hpk & Hnext & Hops & parents & s0 & s0' & Hp & Hs0 & Hhist).
  apply Hfinds in Hp. rewrite Hs0 in Hp.
  set (row := created pk cls done (execution_time dt s) fields) in Hops.
  assert (operations s1 !! pk = Some row) as Hrow
    by (rewrite Hops; apply lookup_insert_eq).
  rewrite (obliviate_done _ _ _ _ row Hrow eq_refl).
  rewrite (created_followers s s1 pk parents) by done.
  cbn [for_each]. rewrite bind_ret_l.
  change (Operation.type row) with cls.
  destruct (created_undo s s1 pk row parents Hfresh Hpk Hops Hhist
              (obliviate_single (registry cls)) Hkeeps Hsucceeds)
    as (s2 & Hundo & Hops2 & Hhist2).
  by exists s2.
Qed.

Lemma create_then_obliviate_witness :
  ∃ s2,
    obliviate inert_registry 1 2
      (create inert_registry Move done None None None ∅ sample_store).2
    = (Return tt, s2)
    ∧ operations s2 = operations sample_store
    ∧ wms_operation_history s2 = wms_operation_history sample_store.
Proof.
  apply (create_then_obliviate inert_registry Move None None ∅
           sample_store _ 2 0).
  - intros dte s. done.
  - intros s. done.
  - intros s parents s' [= <- _]. constructor.
  - intros pk s. done.
  - intros self s. done.
  - intros self s. done.
  - apply (bool_decide_unpack _). vm_compute. exact I.
  - reflexivity.
Defined.

(** ** Operation.cancel and Operation.obliviate: the recursion *)

Lemma for_each_ext {A} (f g : A → M unit) (xs : list A) s :
  (∀ x s, f x s = g x s) → for_each f xs s = for_each g xs s.
Proof.
  intros Hfg. revert s. induction xs as [|x xs IH]; intros s; [done|].
  cbn [for_each]. rewrite !bind_unfold, Hfg.
  destruct (g x s) as [[[]|e] s1]; [apply IH|done].
Qed.

Lemma cancel_sweep registry depth self s :
  cancel registry depth self s
  = sweep registry planned cancel_single depth self s.
Proof.
  revert self s. induction depth as [|depth IH]; intros self s; [done|].
  cbn [cancel sweep]. rewrite !bind_unfold.
  destruct (get_op self s) as [[op|e] s0]; [|done].
  destruct (decide (Operation.state op ≠ planned)); [done|].
  rewrite !bind_unfold. unfold get_followers.
  rewrite !bind_unfold. by rewrite (for_each_ext _ _ _ _ IH).
Qed.

Lemma obliviate_sweep registry depth self s :
  obliviate registry depth self s
  = sweep registry done obliviate_single depth self s.
Proof.
  revert self s. induction depth as [|depth IH]; intros self s; [done|].
  cbn [obliviate sweep]. rewrite !bind_unfold.
  destruct (get_op self s) as [[op|e] s0]; [|done].
  destruct (decide (Operation.state op ≠ done)); [done|].
  rewrite !bind_unfold. unfold get_followers.
  rewrite !bind_unfold. by rewrite (for_each_ext _ _ _ _ IH).
Qed.

Lemma shrinks_refl s below : shrinks s s below.
Proof. split; [done|]. split; [done|]. done. Qed.

Lemma for_each_shrinks (f : Z → M unit) (ys : list Z) (s s' : Store) :
  (∀ y s0 s1, f y s0 = (Return tt, s1) → shrinks s0 s1 (downstream s0 y)) →
  for_each f ys s = (Return tt, s') →
  shrinks s s' (λ z, ∃ y, y ∈ ys ∧ downstream s y z).
Proof.
  intros Hf. revert s. induction ys as [|y ys IH]; intros s.
  - intros [= <-]. apply shrinks_refl.
  - cbn [for_each]. intros H.
    apply bind_Return_inv in H as ([] & s1 & Hy & H).
    apply Hf in Hy as (Hops & Hkeep & Hhist).
    apply IH in H as (Hops' & Hkeep' & Hhist').
    split; [by etrans|]. split; [|by etrans].
    intros z Hz. rewrite Hkeep', Hkeep; [done|..].
    + intros Hdown. apply Hz. exists y. split; [left|done].
    + intros (y' & Hy' & Hdown). apply Hz. exists y'. split; [by right|].
      by apply (downstream_mono s s1).
Qed.

Lemma tc_avoiding {A} (R : relation A) (x a b : A) :
  (∀ c, ¬ R x c) → b ≠ x → tc R a b → tc (λ u v, R u v ∧ v ≠ x) a b.
Proof.
  intros Hx Hb. induction 1 as [a b Hab|a c b Hac Hcb IH].
  - by apply tc_once.
  - apply tc_l with c; [|by apply IH]. split; [done|]. intros ->.
    inversion Hcb as [? ? Hxc|? c' ? Hxc _]; by apply Hx in Hxc.
Qed.

Lemma tc_source {A} (R : relation A) (a b : A) : tc R a b → ∃ c, R a c.
Proof. destruct 1; eauto. Qed.

Section Sweep.
Variables (registry : OperationType → Hooks) (st : OperationState)
  (single : Hooks → Z → M unit).
Hypothesis Hkeeps : ∀ cls, keeps_graph (single (registry cls)).

Lemma sweep_wrong_state depth s self op :
  operations s !! self = Some op → Operation.state op ≠ st →
  sweep registry st single (S depth) self s = (Raise OperationError, s).
Proof.
  intros Hop Hstate. cbn [sweep].
  rewrite (bind_Return_l _ _ _ _ _ (get_op_Some _ _ _ Hop)).
  by rewrite decide_True.
Qed.

Lemma sweep_right_state depth s self op :
  operations s !! self = Some op → Operation.state op = st →
  sweep registry st single (S depth) self s
  = (for_each (sweep registry st single depth) (followers_of s self);;
     single (registry (Operation.type op)) self;;
     follows_clear self;;
     delete_op self) s.
Proof.
  intros Hop Hstate. cbn [sweep].
  rewrite (bind_Return_l _ _ _ _ _ (get_op_Some _ _ _ Hop)).
  rewrite decide_False by (by intros []).
  reflexivity.
Qed.

Lemma sweep_Return_inv depth self s s' :
  sweep registry st single (S depth) self s = (Return tt, s') →
  ∃ op s1,
    operations s !! self = Some op
    ∧ Operation.state op = st
    ∧ for_each (sweep registry st single depth) (followers_of s self) s
      = (Return tt, s1)
    ∧ operations s' = delete self (operations s1)
    ∧ wms_operation_history s'
      = filter (λ e : Z * Z, e.2 ≠ self) (wms_operation_history s1).
Proof.
  intros H.
  destruct (operations s !! self) as [op|] eqn:Hop.
  2:{ cbn [sweep] in H. rewrite bind_unfold in H. unfold get_op in H.
      by rewrite Hop in H. }
  destruct (decide (Operation.state op = st)) as [Hstate|Hstate].
  2:{ by rewrite (sweep_wrong_state _ _ _ op) in H. }
  rewrite (sweep_right_state _ _ _ op) in H by done.
  apply bind_Return_inv in H as ([] & s1 & Hloop & H).
  apply bind_Return_inv in H as ([] & s2 & Hhook & H).
  apply bind_Return_inv in H as ([] & s3 & Hclear & H).
  unfold follows_clear in Hclear. injection Hclear as <-.
  unfold delete_op in H. injection H as <-.
  destruct (Hkeeps (Operation.type op) self s1) as [Hops Hhist].
  rewrite Hhook in Hops, Hhist. cbn [snd] in Hops, Hhist.
  exists op, s1. repeat split; [done..| |].
  - cbn [operations set_operations set_history]. by rewrite Hops.
  - cbn [wms_operation_history set_operations set_history]. by rewrite Hhist.
Qed.

(** On return the operation and its former followers are gone, and so are
    the edges to the operation. *)
Lemma sweep_gone depth self s s' :
  sweep registry st single depth self s = (Return tt, s') →
  operations s' ⊆ operations s
  ∧ operations s' !! self = None
  ∧ (∀ y, y ∈ followers_of s self → operations s' !! y = None)
  ∧ (∀ p, (p, self) ∉ wms_operation_history s').
Proof.
  revert self s s'. induction depth as [|depth IH]; intros self s s' H;
    [done|].
  apply sweep_Return_inv in H as (op & s1 & Hop & Hstate & Hloop & -> & ->).
  apply for_each_removes in Hloop as [Hsub Hnone].
  2:{ intros y s0 s1' Hy. apply IH in Hy. tauto. }
  split; [etrans; [apply delete_subseteq|done]|].
  split; [apply lookup_delete_eq|]. split.
  - intros y Hy. eapply lookup_weaken_None; [by apply Hnone|].
    apply delete_subseteq.
  - intros p Hp. apply list_elem_of_filter in Hp as [Hne _]. by apply Hne.
Qed.

(** On return nothing but operations that depend on [self] has been
    deleted, and edges have only been removed. *)
Lemma sweep_shrinks depth self s s' :
  sweep registry st single depth self s = (Return tt, s') →
  shrinks s s' (downstream s self).
Proof.
  revert self s s'. induction depth as [|depth IH]; intros self s s' H;
    [done|].
  apply sweep_Return_inv in H as (op & s1 & Hop & Hstate & Hloop & Ho & Hh).
  apply for_each_shrinks in Hloop as (Hops & Hkeep & Hhist); [|exact IH].
  split; [|split].
  - rewrite Ho. etrans; [apply delete_subseteq|done].
  - intros z Hz. rewrite Ho.
    rewrite lookup_delete_ne by (intros ->; apply Hz, rtc_refl).
    apply Hkeep. intros (y' & Hy' & Hdown). apply Hz. by eapply rtc_l.
  - rewrite Hh. etrans; [apply sublist_filter|done].
Qed.

(** Operations on a cycle are never deleted, and the operation that the
    call is for is not on a cycle if the call returns. *)
Lemma for_each_on_cycle (f : Z → M unit) (ys : list Z) (s s' : Store) :
  (∀ y s0 s1, f y s0 = (Return tt, s1) →
              ∀ z, on_cycle s0 z → on_cycle s1 z) →
  for_each f ys s = (Return tt, s') →
  ∀ z, on_cycle s z → on_cycle s' z.
Proof.
  intros Hf. revert s. induction ys as [|y ys IH]; intros s.
  - by intros [= <-].
  - cbn [for_each]. intros H z Hz.
    apply bind_Return_inv in H as ([] & s1 & Hy & H).
    apply (IH _ H). by apply (Hf _ _ _ Hy).
Qed.

Lemma sweep_on_cycle depth self s s' :
  sweep registry st single depth self s = (Return tt, s') →
  ∀ z, on_cycle s z → z ≠ self ∧ on_cycle s' z.
Proof.
  revert self s s'. induction depth as [|depth IH]; intros self s s' H;
    [done|].
  apply sweep_Return_inv in H as (op & s1 & Hop & Hstate & Hloop & Ho & Hh).
  assert (∀ c, c ∉ followers_of s1 self) as Hleaf.
  { intros c Hc.
    pose proof (for_each_shrinks _ _ _ _ (sweep_shrinks depth) Hloop)
      as Hshrinks.
    apply (followers_of_shrinks _ _ _ _ _ Hshrinks) in Hc as Hc'.
    apply for_each_removes in Hloop as [_ Hnone].
    2:{ intros y s0 s1' Hy. apply sweep_gone in Hy. tauto. }
    apply elem_of_followers_of in Hc as [_ [opc Hopc]].
    rewrite (Hnone c Hc') in Hopc. discriminate. }
  assert (∀ z, on_cycle s z → on_cycle s1 z) as Hcycle.
  { apply (for_each_on_cycle _ _ _ _ (λ y s0 s1' Hy z Hz,
             proj2 (IH y s0 s1' Hy z Hz)) Hloop). }
  intros z Hz. apply Hcycle in Hz.
  assert (z ≠ self) as Hne.
  { intros ->. apply tc_source in Hz as [c Hc]. by apply Hleaf in Hc. }
  split; [done|].
  apply (tc_avoiding _ self) in Hz; [|exact Hleaf|done].
  unfold on_cycle.
  refine (tc_congruence id _ z z _ Hz).
  intros a b [Hab Hb]. unfold id.
  apply elem_of_followers_of in Hab as [He [opb Hopb]].
  apply elem_of_followers_of. split.
  - rewrite Hh. apply list_elem_of_filter. by split.
  - exists opb. rewrite Ho. by rewrite lookup_delete_ne.
Qed.

Lemma all_below_shrinks s s' below y :
  shrinks s s' below → ¬ below y → all_below st s y → all_below st s' y.
Proof.
  intros (Hops & Hkeep & Hhist) Hy [Hsome Hst]. split.
  - by rewrite Hkeep.
  - intros z op Hz Hop. apply (Hst z op).
    + by apply (downstream_mono s s').
    + by eapply lookup_weaken.
Qed.

Section Succeeds.
Variable rank : Z → nat.
Hypothesis Hsucceeds : ∀ cls, succeeds (single (registry cls)).

Lemma sweep_followers_succeed depth :
  (∀ s y, dag rank s → independent_followers s → all_below st s y →
          (rank y < depth)%nat →
          ∃ s', sweep registry st single depth y s = (Return tt, s')) →
  ∀ ys s,
    dag rank s → independent_followers s → NoDup ys →
    (∀ y, y ∈ ys → all_below st s y ∧ (rank y < depth)%nat) →
    (∀ y y', y ∈ ys → y' ∈ ys → y ≠ y' → ¬ downstream s y y') →
    ∃ s', for_each (sweep registry st single depth) ys s = (Return tt, s').
Proof.
  intros IH. induction ys as [|y ys IHys];
    intros s Hdag Hfollowers Hnd Hys Hindep.
  - by exists s.
  - apply NoDup_cons in Hnd as [Hy Hnd].
    destruct (Hys y) as [Hbelow Hrank]; [left|].
    destruct (IH s y Hdag Hfollowers Hbelow Hrank) as (s1 & Hcall).
    pose proof (sweep_shrinks _ _ _ _ Hcall) as Hshrinks.
    destruct (IHys s1) as (s' & Hloop).
    + by eapply dag_shrinks.
    + by eapply independent_followers_shrinks.
    + done.
    + intros y' Hy'. destruct (Hys y') as [Hbelow' Hrank']; [by right|].
      split; [|done]. eapply all_below_shrinks; [done| |done].
      apply Hindep; [left|by right|]. by intros ->.
    + intros y1 y2 Hy1 Hy2 Hne Hdown. apply (Hindep y1 y2); [by right..|done|].
      destruct Hshrinks as (Hops & _ & Hhist).
      by apply (downstream_mono s s1).
    + exists s'. cbn [for_each]. by rewrite (bind_Return_l _ _ _ _ _ Hcall).
Qed.

Lemma sweep_succeeds depth s y :
  dag rank s → independent_followers s → all_below st s y →
  (rank y < depth)%nat →
  ∃ s', sweep registry st single depth y s = (Return tt, s').
Proof.
  revert s y. induction depth as [|depth IH];
    intros s y Hdag Hfollowers Hbelow Hrank; [lia|].
  destruct Hbelow as [[op Hop] Hst].
  assert (Operation.state op = st) as Hstate
    by (by apply (Hst y op); [apply rtc_refl|]).
  destruct Hdag as [Hnd Hranks].
  destruct (sweep_followers_succeed depth IH (followers_of s y) s)
    as (s1 & Hloop).
  { done. }
  { done. }
  { by apply followers_of_NoDup. }
  { intros y' Hy'. split; [split|].
    - by apply elem_of_followers_of in Hy' as [_ ?].
    - intros z opz Hz. apply Hst. by eapply rtc_l.
    - apply elem_of_followers_of in Hy' as [He _].
      rewrite Forall_forall in Hranks. specialize (Hranks _ He).
      simpl in Hranks. lia. }
  { intros y1 y2 Hy1 Hy2 Hne. by apply (Hfollowers y). }
  rewrite (sweep_right_state _ _ _ op) by done.
  rewrite (bind_Return_l _ _ _ _ _ Hloop).
  rewrite bind_unfold, (succeeds_Return _ y s1 (Hsucceeds _)).
  eexists. reflexivity.
Qed.
End Succeeds.
End Sweep.

(** What depends on an operation of the store is in the store. *)
Lemma downstream_exists s a b :
  is_Some (operations s !! a) → downstream s a b →
  is_Some (operations s !! b).
Proof.
  intros Ha. induction 1 as [|a b c Hab _ IH]; [done|].
  apply IH. by apply elem_of_followers_of in Hab as [_ ?].
Qed.

Section SweepDeletes.
Variables (registry : OperationType → Hooks) (st : OperationState)
  (single : Hooks → Z → M unit).
Hypothesis Hkeeps : ∀ cls, keeps_graph (single (registry cls)).

Lemma sweep_invariant_refl s : sweep_invariant s s.
Proof.
  split; [done|]. split; [done|]. split; [|split; [|done]].
  - intros a b _ [op Hop] Hnone. congruence.
  - intros p z [op Hop] Hnone. congruence.
Qed.

Lemma sweep_invariant_trans s s1 s' :
  sweep_invariant s s1 → sweep_invariant s1 s' → sweep_invariant s s'.
Proof.
  intros (Hops & Hkept & Hclosed & Hcleared & Hhist)
         (Hops' & Hkept' & Hclosed' & Hcleared' & Hhist').
  split; [by etrans|]. split; [|split; [|split; [|by etrans]]].
  - intros e He Hdel. apply Hkept'.
    + apply Hkept; [done|]. intros [Hsome Hnone]. apply Hdel.
      split; [done|]. by eapply lookup_weaken_None.
    + intros [[op Hop] Hnone]. apply Hdel. split; [|done].
      exists op. by eapply lookup_weaken.
  - intros a b Hb Ha Hnone.
    destruct (operations s1 !! a) as [opa|] eqn:Ha1.
    + destruct (operations s1 !! b) as [opb|] eqn:Hb1.
      * apply (Hclosed' a b); [|by rewrite Ha1|done].
        apply elem_of_followers_of. split; [|by rewrite Hb1].
        apply elem_of_followers_of in Hb as [He Hsome].
        apply Hkept; [done|]. cbn [snd]. intros [_ Hn]. congruence.
      * by eapply lookup_weaken_None.
    + eapply lookup_weaken_None; [|done]. by apply (Hclosed a b).
  - intros p z Hz Hnone He.
    destruct (operations s1 !! z) as [opz|] eqn:Hz1.
    + apply (Hcleared' p z); [by rewrite Hz1|done..].
    + apply (Hcleared p z); [done..|]. by eapply elem_of_sublist.
Qed.

Lemma for_each_invariant (f : Z → M unit) (ys : list Z) (s s' : Store) :
  (∀ y s0 s1, f y s0 = (Return tt, s1) → sweep_invariant s0 s1) →
  for_each f ys s = (Return tt, s') → sweep_invariant s s'.
Proof.
  intros Hf. revert s. induction ys as [|y ys IH]; intros s.
  - intros [= <-]. apply sweep_invariant_refl.
  - cbn [for_each]. intros H.
    apply bind_Return_inv in H as ([] & s1 & Hy & H).
    eapply sweep_invariant_trans; [by apply Hf in Hy|by apply IH].
Qed.

Lemma sweep_keeps_invariant depth self s s' :
  sweep registry st single depth self s = (Return tt, s') →
  sweep_invariant s s'.
Proof.
  revert self s s'. induction depth as [|depth IH]; intros self s s' H;
    [done|].
  pose proof (sweep_gone registry st single Hkeeps _ _ _ _ H)
    as (_ & _ & Hfollowers & _).
  apply sweep_Return_inv in H as (op & s1 & Hop & Hstate & Hloop & Ho & Hh);
    [|done].
  apply for_each_invariant in Hloop; [|exact IH].
  destruct Hloop as (Hops & Hkept & Hclosed & Hcleared & Hhist).
  split; [|split; [|split; [|split]]].
  - rewrite Ho. etrans; [apply delete_subseteq|done].
  - intros e He Hdel. rewrite Hh. apply list_elem_of_filter. split.
    + intros Heq. apply Hdel. rewrite Heq, Ho, Hop.
      split; [done|apply lookup_delete_eq].
    + apply Hkept; [done|]. intros [Hsome Hnone]. apply Hdel.
      split; [done|]. rewrite Ho. eapply lookup_weaken_None; [done|].
      apply delete_subseteq.
  - intros a b Hb Ha Hnone. destruct (decide (a = self)) as [->|Hne].
    + by apply Hfollowers.
    + rewrite Ho in Hnone |- *. rewrite lookup_delete_ne in Hnone by done.
      eapply lookup_weaken_None; [|apply delete_subseteq].
      by apply (Hclosed a b).
  - intros p z Hz Hnone He. rewrite Hh in He.
    apply list_elem_of_filter in He as [Hne He]. cbn [snd] in Hne.
    rewrite Ho, lookup_delete_ne in Hnone by done.
    by apply (Hcleared p z).
  - rewrite Hh. etrans; [apply sublist_filter|done].
Qed.

(** The whole effect of a call that returns. *)
Lemma sweep_deletes depth self s s' :
  sweep registry st single depth self s = (Return tt, s') →
  deletes s s' (downstream s self).
Proof.
  intros H.
  pose proof (sweep_shrinks registry st single Hkeeps _ _ _ _ H)
    as (_ & Hframe & _).
  pose proof (sweep_gone registry st single Hkeeps _ _ _ _ H)
    as (_ & Hself & _ & _).
  pose proof (sweep_keeps_invariant _ _ _ _ H)
    as (Hops & Hkept & Hclosed & Hcleared & Hhist).
  assert (is_Some (operations s !! self)) as Hsome.
  { destruct depth; [done|].
    apply sweep_Return_inv in H as (op & _ & Hop & _); [|done].
    by rewrite Hop. }
  assert (∀ z, downstream s self z → operations s' !! z = None) as Hgone.
  { apply (rtc_ind_r (λ z, operations s' !! z = None) self); [done|].
    intros b c Hab Hbc IH.
    apply (Hclosed b c); [done| |done]. by eapply downstream_exists. }
  split; [done|]. split; [done|]. split; [done|].
  intros e. split.
  - intros He. split; [by eapply elem_of_sublist|].
    intros Hdown. destruct e as [p z]. apply (Hcleared p z); [|by apply Hgone|done].
    by eapply downstream_exists.
  - intros [He Hdown]. apply Hkept; [done|].
    intros [[op Hop] Hnone]. rewrite Hframe in Hnone by done. congruence.
Qed.
End SweepDeletes.

(** A way to establish [all_below]: a list [ds] that holds [self], is
    closed under the followers, and holds operations in state [st] only. *)
Lemma all_below_closed st s self (ds : list Z) :
  self ∈ ds →
  Forall (λ a, Forall (λ b, b ∈ ds) (followers_of s a)) ds →
  Forall (λ z, ∃ op, operations s !! z = Some op
                     ∧ Operation.state op = st) ds →
  all_below st s self.
Proof.
  intros Hself Hclosed Hst.
  rewrite Forall_forall in Hclosed. rewrite Forall_forall in Hst.
  assert (∀ a z, downstream s a z → a ∈ ds → z ∈ ds) as Hin.
  { induction 1 as [|a b z Hab _ IH]; [done|]. intros Ha. apply IH.
    specialize (Hclosed a Ha). rewrite Forall_forall in Hclosed.
    by apply Hclosed. }
  split.
  - destruct (Hst self Hself) as (op & -> & _). by eexists.
  - intros z op Hz Hop. destruct (Hst z (Hin self z Hz Hself))
      as (op' & Hop' & Hstate). congruence.
Qed.

(** X18. What [cancel] has done when it returns: the operations that
    depended on the cancelled one, directly or not, are gone, itself
    included, and so is every edge to one of them; all other operations and
    edges are as they were. [cancel_single] is taken to work on goods and
    avatars only. *)
Theorem cancel_deletes_downstream (registry : OperationType → Hooks)
    (depth : nat) (self : Z) (s s' : Store) :
  (∀ cls, keeps_graph (cancel_single (registry cls))) →
  cancel registry depth self s = (Return tt, s') →
  (∀ z, downstream s self z → operations s' !! z = None)
  ∧ (∀ z, ¬ downstream s self z → operations s' !! z = operations s !! z)
  ∧ wms_operation_history s' `sublist_of` wms_operation_history s
  ∧ (∀ e, e ∈ wms_operation_history s'
          ↔ e ∈ wms_operation_history s ∧ ¬ downstream s self e.2).
Proof.
  intros Hkeeps H. rewrite cancel_sweep in H.
  by apply (sweep_deletes registry planned cancel_single Hkeeps) in H.
Qed.

Lemma cancel_deletes_downstream_witness :
  let s' := (cancel inert_registry 6 6 chain_store).2 in
  (∀ z, downstream chain_store 6 z → operations s' !! z = None)
  ∧ (∀ z, ¬ downstream chain_store 6 z →
          operations s' !! z = operations chain_store !! z)
  ∧ wms_operation_history s' `sublist_of` wms_operation_history chain_store
  ∧ (∀ e, e ∈ wms_operation_history s'
          ↔ e ∈ wms_operation_history chain_store
            ∧ ¬ downstream chain_store 6 e.2).
Proof.
  apply (cancel_deletes_downstream inert_registry 6 6 chain_store).
  - intros cls self s. done.
  - vm_compute. reflexivity.
Defined.

(** X19. [obliviate] is to done operations what [cancel] is to planned
    ones. When it returns, the operations that depended on the obliviated
    one are gone, itself included, with every edge to one of them, and all
    else is as it was. It does return on a directed acyclic graph of done
    operations in which the followers of an operation do not depend on each
    other, given room enough on the call stack and an [obliviate_single]
    that does not raise. [obliviate_single] is taken to work on goods and
    avatars only. *)
Theorem obliviate_done_subgraph (registry : OperationType → Hooks) :
  (∀ cls, keeps_graph (obliviate_single (registry cls))) →
  (∀ depth s self s',
      obliviate registry depth self s = (Return tt, s') →
      (∀ z, downstream s self z → operations s' !! z = None)
      ∧ (∀ z, ¬ downstream s self z → operations s' !! z = operations s !! z)
      ∧ wms_operation_history s' `sublist_of` wms_operation_history s
      ∧ (∀ e, e ∈ wms_operation_history s'
              ↔ e ∈ wms_operation_history s ∧ ¬ downstream s self e.2))
  ∧ (∀ s self rank depth,
      (∀ cls, succeeds (obliviate_single (registry cls))) →
      dag rank s → independent_followers s → all_below done s self →
      (rank self < depth)%nat →
      ∃ s', obliviate registry depth self s = (Return tt, s')).
Proof.
  intros Hkeeps. split.
  - intros depth s self s' H. rewrite obliviate_sweep in H.
    by apply (sweep_deletes registry done obliviate_single Hkeeps) in H.
  - intros s self rank depth Hsucceeds Hdag Hfollowers Hbelow Hdepth.
    destruct (sweep_succeeds registry done obliviate_single Hkeeps rank
                Hsucceeds depth s self) as [s' Hs']; [done..|].
    exists s'. by rewrite obliviate_sweep.
Qed.

Lemma obliviate_done_subgraph_witness :
  ∃ s', obliviate inert_registry 10 1 done_chain_store = (Return tt, s')
        ∧ (∀ z, downstream done_chain_store 1 z → operations s' !! z = None).
Proof.
  assert (∀ cls, keeps_graph (obliviate_single (inert_registry cls)))
    as Hkeeps by (intros cls self s; split; reflexivity).
  destruct (obliviate_done_subgraph inert_registry Hkeeps)
    as (Hdeletes & Hreturns).
  destruct (Hreturns done_chain_store 1 chain_rank 10%nat) as [s' Hs'].
  - intros cls self s. reflexivity.
  - apply (bool_decide_unpack _). vm_compute. exact I.
  - apply (forest_independent_followers chain_rank).
    + apply (bool_decide_unpack _). vm_compute. exact I.
    + apply (bool_decide_unpack _). vm_compute. exact I.
  - apply (all_below_closed _ _ _ [1; 5; 6; 7; 8]).
    + apply (bool_decide_unpack _). vm_compute. exact I.
    + apply (bool_decide_unpack _). vm_compute. exact I.
    + repeat constructor; eexists; split; reflexivity.
  - vm_compute. lia.
  - exists s'. split; [exact Hs'|].
    by apply (Hdeletes 10%nat done_chain_store 1 s').
Defined.

(** X20. Neither [cancel] nor [obliviate] gets through a cycle of the
    graph of operations. A call that returns has deleted no operation that
    depends on itself, and was not for such an operation: on those the
    call cannot return. *)
Theorem cycles_are_never_deleted (registry : OperationType → Hooks)
    (depth : nat) (self z : Z) (s s' : Store) :
  (∀ cls, keeps_graph (cancel_single (registry cls))) →
  (∀ cls, keeps_graph (obliviate_single (registry cls))) →
  on_cycle s z →
  cancel registry depth self s = (Return tt, s')
  ∨ obliviate registry depth self s = (Return tt, s') →
  z ≠ self ∧ on_cycle s' z.
Proof.
  intros Hcancel Hobliviate Hz [H|H].
  - rewrite cancel_sweep in H.
    by apply (sweep_on_cycle registry planned cancel_single Hcancel
                _ _ _ _ H).
  - rewrite obliviate_sweep in H.
    by apply (sweep_on_cycle registry done obliviate_single Hobliviate
                _ _ _ _ H).
Qed.

Lemma cycles_are_never_deleted_witness :
  6 ≠ 5 ∧ on_cycle (cancel inert_registry 3 5 cyclic_store).2 6.
Proof.
  apply (cycles_are_never_deleted inert_registry 3 5 6 cyclic_store).
  - intros cls self s. done.
  - intros cls self s. done.
  - apply tc_l with 7; [|apply tc_once];
      apply (bool_decide_unpack _); vm_compute; exact I.
  - left. vm_compute. reflexivity.
Defined.

(** On the cycle itself the recursion goes on until the call stack is used
    up. *)
Example cancel_cyclic :
  cancel inert_registry 10 6 cyclic_store = (Raise RecursionError, cyclic_store).
Proof. vm_compute. reflexivity. Qed.


(** ** Operation.plan_revert *)

Lemma plan_revert_followers_nil rec frs els s :
  plan_revert_followers rec [] frs els s = (Return (frs, els), s).
Proof. reflexivity. Qed.

(** X21. What [plan_revert] returns: the list of the operations to start
    the reversal with is never empty; for an operation without followers
    it holds the reversal of the operation itself and nothing else.
    [is_reversible] is taken to leave operations and edges as they are. *)
Theorem plan_revert_leafs (registry : OperationType → Hooks) (depth : nat)
    (self : Z) (dt : option datetime) (s s' : Store) (reversal : Z)
    (exec_leafs : list Z) :
  (∀ cls z, leaves_operations (is_reversible (registry cls) z)) →
  plan_revert registry depth self dt s = (Return (reversal, exec_leafs), s') →
  exec_leafs ≠ []
  ∧ (followers_of s self = [] → exec_leafs = [reversal]).
Proof.
  intros Hrev H. destruct depth as [|depth]; [done|].
  cbn [plan_revert] in H.
  apply bind_Return_inv in H as (dte & s0 & Hdt & H).
  assert (operations s0 = operations s
          ∧ wms_operation_history s0 = wms_operation_history s)
    as [Ho0 Hh0] by (destruct dt; by injection Hdt as <- <-).
  apply bind_Return_inv in H as (op & s1 & Hget & H).
  unfold get_op in Hget.
  destruct (operations s0 !! self); [|done]. injection Hget as -> ->.
  destruct (decide (Operation.state op ≠ done)); [done|].
  apply bind_Return_inv in H as (reversible & s2 & Hr & H).
  apply (leaves_operations_Return _ _ _ _ (Hrev _ _)) in Hr
    as (Ho2 & Hh2 & _).
  destruct reversible; [|done]. cbn [negb] in H.
  apply bind_Return_inv in H as (followers & s3 & Hf & H).
  unfold get_followers in Hf. injection Hf as <- <-.
  apply bind_Return_inv in H as ([frs els] & s4 & Hloop & H).
  apply bind_Return_inv in H as (this & s5 & Hsingle & H).
  rewrite ret_unfold in H. injection H as <- <- <-.
  split; [by destruct els|].
  assert (followers_of s2 self = followers_of s self) as Hfollowers
    by (unfold followers_of; by rewrite Ho2, Hh2, Ho0, Hh0).
  rewrite Hfollowers in Hloop. intros Hnil. rewrite Hnil in Hloop.
  rewrite plan_revert_followers_nil in Hloop. by injection Hloop as <- <- <-.
Qed.

Lemma plan_revert_leafs_witness :
  [9; 10] ≠ []
  ∧ (followers_of done_chain_store 5 = [] → [9; 10] = [12]).
Proof.
  apply (plan_revert_leafs reversible_registry 10 5 (Some 400)
           done_chain_store
           (plan_revert reversible_registry 10 5 (Some 400)
              done_chain_store).2).
  - intros cls z s. done.
  - vm_compute. reflexivity.
Defined.

(** The reversals of the followers are planned at the time of the call, as
    read from the clock once for each of them, whatever [dt_execution] is
    passed: only the reversal of the operation itself gets that one. *)
Example plan_revert_chain_times :
  ∃ s',
    plan_revert reversible_registry 10 5 (Some 400) done_chain_store
    = (Return (12, [9; 10]), s')
    ∧ Operation.dt_execution <$> operations s' !! 9 = Some 201
    ∧ Operation.dt_execution <$> operations s' !! 10 = Some 202
    ∧ Operation.dt_execution <$> operations s' !! 11 = Some 200
    ∧ Operation.dt_execution <$> operations s' !! 12 = Some 400
    ∧ follows_of s' 12 = [5; 11].
Proof. eexists. split; [vm_compute; reflexivity|]. repeat split. Qed.

(** ** The hooks of the base class *)

(** X22. [Model.Wms.Operation] itself is abstract: with the hooks of the
    base class no call of [create], [cancel], [obliviate] or [plan_revert]
    returns, and [execute] returns on operations that are done already
    only, where it does nothing. *)
Theorem base_class_is_abstract :
  (∀ cls st follows dt ds fields s pk s',
      create base_registry cls st follows dt ds fields s ≠ (Return pk, s'))
  ∧ (∀ self dt s s',
      execute base_registry self dt s = (Return tt, s') →
      s' = s ∧ ∃ op, operations s !! self = Some op
                     ∧ Operation.state op = done)
  ∧ (∀ depth self s s',
      cancel base_registry depth self s ≠ (Return tt, s'))
  ∧ (∀ depth self s s',
      obliviate base_registry depth self s ≠ (Return tt, s'))
  ∧ (∀ depth self dt s r s',
      plan_revert base_registry depth self dt s ≠ (Return r, s')).
Proof.
  split; [|split; [|split; [|split]]].
  - intros cls st follows dt ds fields s pk s' H.
    destruct follows as [fl|]; [by rewrite create_with_follows in H|].
    rewrite create_without_follows in H.
    apply bind_Return_inv in H as (dte & s0 & _ & H).
    by apply bind_Return_inv in H as ([] & s1 & Hc & _).
  - intros self dt s s' H. unfold execute in H.
    apply bind_Return_inv in H as (op & s0 & Hget & H).
    unfold get_op in Hget.
    destruct (operations s !! self) as [op0|] eqn:Hop; [|done].
    injection Hget as -> ->.
    destruct (decide (Operation.state op = done)) as [Hdone|Hnd].
    + injection H as <-. eauto.
    + apply bind_Return_inv in H as (dte & s1 & _ & H).
      apply bind_Return_inv in H as ([] & s2 & _ & H).
      apply bind_Return_inv in H as ([] & s3 & _ & H).
      by apply bind_Return_inv in H as ([] & s4 & Hc & _).
  - intros depth self s s' H. destruct depth as [|depth]; [done|].
    cbn [cancel] in H.
    apply bind_Return_inv in H as (op & s0 & _ & H).
    destruct (decide (Operation.state op ≠ planned)); [done|].
    apply bind_Return_inv in H as (fs & s1 & _ & H).
    apply bind_Return_inv in H as ([] & s2 & _ & H).
    by apply bind_Return_inv in H as ([] & s3 & Hc & _).
  - intros depth self s s' H. destruct depth as [|depth]; [done|].
    cbn [obliviate] in H.
    apply bind_Return_inv in H as (op & s0 & _ & H).
    destruct (decide (Operation.state op ≠ done)); [done|].
    apply bind_Return_inv in H as (fs & s1 & _ & H).
    apply bind_Return_inv in H as ([] & s2 & _ & H).
    by apply bind_Return_inv in H as ([] & s3 & Hc & _).
  - intros depth self dt s r s' H. destruct depth as [|depth]; [done|].
    cbn [plan_revert] in H.
    apply bind_Return_inv in H as (dte & s0 & _ & H).
    apply bind_Return_inv in H as (op & s1 & _ & H).
    destruct (decide (Operation.state op ≠ done)); [done|].
    apply bind_Return_inv in H as (reversible & s2 & Hr & H).
    by injection Hr as <- <-.
Qed.

Lemma base_class_is_abstract_witness :
  sample_store = sample_store
  ∧ ∃ op, operations sample_store !! 1 = Some op ∧ Operation.state op = done.
Proof.
  apply (proj1 (proj2 base_class_is_abstract) 1 None sample_store
           sample_store).
  reflexivity.
Defined.
